(** * Resumable execution store and wait tracker

  A shallow embedding of
  - [packages/cli/src/databases/repositories/execution.repository.ts]
    (the [ExecutionRepository]),
  - the [WaitTracker] class (wait scheduler), and
  - the store of the external secrets of the editor,
  together with the run-data codec ([flatted]'s [stringify]/[parse]) they
  rely on, and the properties of the specification checked against them. *)

From stdpp Require Import base option list gmap strings sorting pretty.
From Stdlib Require Import ZArith.

(** ** Run-data codec *)

Module Flatted.

(** Objects of the JavaScript heap are identified by their address:
    two references are [===] exactly when the addresses are equal. *)
Abbreviation addr := nat.

Inductive JsPrim :=
| PNull
| PBool (b : bool)
| PNum (n : Z)
| PStr (s : string).

Inductive JsValue :=
| JPrim (p : JsPrim)
| JRef (a : addr).

(** An object is its list of own properties, in insertion order; an array
    is an object keyed by its indices. *)
Abbreviation JsObject := (list (string * JsValue)).

Record Graph := mkGraph { heap : gmap addr JsObject; root : addr }.

(** The flat, storable form: one entry per distinct object; a reference
    is replaced by the slot number of its target. *)
Inductive FValue :=
| FPrim (p : JsPrim)
| FSlot (i : nat).

Abbreviation FObject := (list (string * FValue)).
Abbreviation flatted := (list FObject).

Fixpoint indexOf (a : addr) (l : list addr) : option nat :=
  match l with
  | [] => None
  | b :: l' => if decide (a = b) then Some 0 else S <$> indexOf a l'
  end.

Definition fieldsOf (h : gmap addr JsObject) (a : addr) : JsObject :=
  default [] (h !! a).

(** Modelled from the spec: the codec is the imported [flatted] package,
    whose code is not part of the repository sources. Section 4.1: the
    traversal gives each distinct object a slot the first time it is
    visited; later visits emit a back-reference to that slot. [order] is
    the list of objects that have a slot, slot [i] being [order !! i]. *)
Definition encodeValue (order : list addr) (v : JsValue) : list addr * FValue :=
  match v with
  | JPrim p => (order, FPrim p)
  | JRef a =>
      match indexOf a order with
      | Some i => (order, FSlot i)
      | None => (order ++ [a], FSlot (length order))
      end
  end.

(** Modelled from the spec: the properties of one object, encoded in
    order; [flatted] itself is not part of the sources. *)
Fixpoint encodeFields (order : list addr) (fs : JsObject) : list addr * FObject :=
  match fs with
  | [] => (order, [])
  | (k, v) :: rest =>
      let '(order1, fv) := encodeValue order v in
      let '(order2, out) := encodeFields order1 rest in
      (order2, (k, fv) :: out)
  end.

(** Modelled from the spec: the explicit worklist of section 9, [flatted]
    itself not being part of the sources. [order] doubles as the queue; the
    objects before position [i] are already written to [out]. *)
Fixpoint encodeLoop (fuel : nat) (h : gmap addr JsObject)
    (order : list addr) (i : nat) (out : flatted) : flatted :=
  match fuel with
  | O => out
  | S fuel' =>
      match order !! i with
      | None => out
      | Some a =>
          let '(order', o) := encodeFields order (fieldsOf h a) in
          encodeLoop fuel' h order' (S i) (out ++ [o])
      end
  end.

(** Modelled from the spec: [stringify] of the [flatted] package, which is
    not part of the sources; the contract [encode] of section 4.1. No
    object is visited twice, so as many steps as the heap has objects
    suffice. *)
Definition stringify (g : Graph) : flatted :=
  encodeLoop (size (heap g)) (heap g) [root g] 0 [].

(** Modelled from the spec: decoding first materialises every slot as an
    empty shell, then patches the fields in a second pass, resolving each
    back-reference to the shell of that slot. A back-reference to a slot
    that does not exist, or an empty stream, is a corrupt payload. *)
Definition shells (n : nat) : gmap addr JsObject :=
  map_seq 0 (replicate n []).

(** Modelled from the spec: a back-reference resolves to the shell of its
    slot; a dangling one is a corrupt payload ([flatted] is not part of the
    sources). *)
Definition decodeValue (h : gmap addr JsObject) (fv : FValue) : option JsValue :=
  match fv with
  | FPrim p => Some (JPrim p)
  | FSlot j => if h !! j is Some _ then Some (JRef j) else None
  end.

(** Modelled from the spec: the properties of one slot, decoded ([flatted]
    is not part of the sources). *)
Definition decodeFields (h : gmap addr JsObject) (fs : FObject) : option JsObject :=
  mapM (λ kv, v ← decodeValue h kv.2; Some (kv.1, v)) fs.

(** Modelled from the spec: the second pass of decoding, which patches
    the shells one slot after the other ([flatted] is not part of the
    sources). *)
Fixpoint patchAll (h : gmap addr JsObject) (i : nat) (f : flatted)
    : option (gmap addr JsObject) :=
  match f with
  | [] => Some h
  | o :: rest =>
      fields ← decodeFields h o;
      patchAll (<[i := fields]> h) (S i) rest
  end.

(** Modelled from the spec: [parse] of the [flatted] package, which is not
    part of the sources; the contract [decode] of section 4.1. [None] is
    the corrupt payload. The root is slot 0. *)
Definition parse (f : flatted) : option Graph :=
  match f with
  | [] => None
  | _ => h ← patchAll (shells (length f)) 0 f; Some (mkGraph h 0)
  end.

(** Objects reachable from the root through references. *)
Inductive reachable (g : Graph) : addr → Prop :=
| reach_root : reachable g (root g)
| reach_field a k b :
    reachable g a → (k, JRef b) ∈ fieldsOf (heap g) a → reachable g b.

(** In a JavaScript heap a reference always denotes an object. *)
Definition closed (g : Graph) : Prop :=
  ∀ a, reachable g a → is_Some (heap g !! a).

Definition mapRef (φ : addr → addr) (v : JsValue) : JsValue :=
  match v with
  | JPrim p => JPrim p
  | JRef a => JRef (φ a)
  end.

Definition mapObject (φ : addr → addr) (o : JsObject) : JsObject :=
  prod_map id (mapRef φ) <$> o.

(** [g'] is [g] up to the renaming [φ] of object identities: same root,
    same properties in the same order, [φ] one-to-one from the objects of
    [g] onto the objects of [g']. *)
Record sameGraph (φ : addr → addr) (g g' : Graph) : Prop := {
  same_root : φ (root g) = root g';
  same_fields : ∀ a, reachable g a →
    heap g' !! φ a = Some (mapObject φ (fieldsOf (heap g) a));
  same_identity : ∀ a b, reachable g a → reachable g b → φ a = φ b → a = b;
  same_objects : ∀ a', is_Some (heap g' !! a') → ∃ a, reachable g a ∧ φ a = a'
}.

(** A sufficient, decidable condition: the root and every reference in
    the heap denote an object of the heap. *)
Definition refOk (h : gmap addr JsObject) (v : JsValue) : Prop :=
  match v with
  | JPrim _ => True
  | JRef b => is_Some (h !! b)
  end.

#[export] Instance refOk_dec h v : Decision (refOk h v).
Proof. destruct v; apply _. Defined.

Definition wellFormed (g : Graph) : Prop :=
  is_Some (heap g !! root g)
  ∧ map_Forall (λ _ o, Forall (λ kv, refOk (heap g) kv.2) o) (heap g).

#[export] Instance wellFormed_dec g : Decision (wellFormed g).
Proof. unfold wellFormed. apply _. Defined.

(** What the encoder promises about one value and one object. *)
Definition encodedValue (order : list addr) (v : JsValue) (fv : FValue) : Prop :=
  match v, fv with
  | JPrim p, FPrim q => p = q
  | JRef a, FSlot i => order !! i = Some a
  | _, _ => False
  end.

Definition encodedObject (order : list addr) (o : JsObject) (fo : FObject) : Prop :=
  Forall2 (λ kv kfv, kv.1 = kfv.1 ∧ encodedValue order kv.2 kfv.2) o fo.

Record encoded (g : Graph) (order : list addr) (i : nat) (out : flatted) : Prop := {
  enc_nodup : NoDup order;
  enc_root : order !! 0 = Some (root g);
  enc_reach : ∀ a, a ∈ order → reachable g a;
  enc_len : length out = i;
  enc_le : i ≤ length order;
  enc_done : ∀ k a, k < i → order !! k = Some a →
    ∃ fo, out !! k = Some fo ∧ encodedObject order (fieldsOf (heap g) a) fo
}.

Definition slotOf (order : list addr) (a : addr) : addr :=
  default 0 (indexOf a order).

End Flatted.

Import Flatted.

(** ** Stored records *)

Module Entities.

(** Modelled from the spec: [ExecutionStatus] and [WorkflowExecuteMode]
    are declared outside the sources at hand; these are the values the
    data model of section 3 lists. *)
Inductive ExecutionStatus :=
| new | running | success | error | canceled | crashed | waiting.

Inductive WorkflowExecuteMode :=
| manual | trigger | webhook | retry | internal.

#[export] Instance ExecutionStatus_eq_dec : EqDecision ExecutionStatus.
Proof. solve_decision. Defined.

(** The snapshot of the workflow definition kept with a run. *)
Record IWorkflowBase := mkWorkflow {
  wf_id : option string;
  wf_name : string
}.

(** The columns of [ExecutionEntity] other than [id]: what remains of an
    execution object once [id], [data] and [workflowData] are taken out.
    Dates are milliseconds since the epoch. *)
Record ExecutionColumns := mkColumns {
  finished : bool;
  mode : WorkflowExecuteMode;
  retryOf : option string;
  retrySuccessId : option string;
  status : ExecutionStatus;
  startedAt : Z;
  stoppedAt : option Z;
  workflowId : option string;
  waitTill : option Z
}.

Record ExecutionEntity := mkExecution {
  id : string;
  columns : ExecutionColumns
}.

(** A row of the execution-data table, without its key [executionId]. *)
Record ExecutionData := mkExecutionData {
  data : flatted;
  workflowData : IWorkflowBase
}.

Record ExecutionMetadata := mkMetadata {
  md_executionId : string;
  md_key : string;
  md_value : string
}.

(** [IExecutionDb]: the argument of [createNewExecution]. *)
Record IExecutionDb := mkExecutionDb {
  new_id : option string;
  new_data : Graph;
  new_workflowData : IWorkflowBase;
  new_columns : ExecutionColumns
}.

(** [IExecutionFlattedDb] and [IExecutionResponse]: an execution with its
    run data, encoded or decoded. *)
Record IExecutionFlattedDb := mkFlattedDb {
  flat_id : string;
  flat_data : flatted;
  flat_workflowData : IWorkflowBase;
  flat_columns : ExecutionColumns
}.

Record IExecutionResponse := mkResponse {
  res_id : string;
  res_data : Graph;
  res_workflowData : IWorkflowBase;
  res_columns : ExecutionColumns
}.

(** [Partial<IExecutionResponse>]: every property may be missing. *)
Record PartialColumns := mkPartialColumns {
  p_finished : option bool;
  p_mode : option WorkflowExecuteMode;
  p_retryOf : option (option string);
  p_retrySuccessId : option (option string);
  p_status : option ExecutionStatus;
  p_startedAt : option Z;
  p_stoppedAt : option (option Z);
  p_workflowId : option (option string);
  p_waitTill : option (option Z)
}.

Record PartialExecution := mkPartial {
  p_id : option string;
  p_data : option Graph;
  p_workflowData : option IWorkflowBase;
  p_columns : PartialColumns
}.

(** [Object.keys(executionInformation).length > 0] *)
Definition hasKeys (p : PartialColumns) : bool :=
  bool_decide (is_Some (p_finished p)) || bool_decide (is_Some (p_mode p))
  || bool_decide (is_Some (p_retryOf p)) || bool_decide (is_Some (p_retrySuccessId p))
  || bool_decide (is_Some (p_status p)) || bool_decide (is_Some (p_startedAt p))
  || bool_decide (is_Some (p_stoppedAt p)) || bool_decide (is_Some (p_workflowId p))
  || bool_decide (is_Some (p_waitTill p)).

(** [UPDATE ... SET] of the supplied columns. *)
Definition setColumns (p : PartialColumns) (c : ExecutionColumns) : ExecutionColumns :=
  {| finished := default (finished c) (p_finished p);
     mode := default (mode c) (p_mode p);
     retryOf := default (retryOf c) (p_retryOf p);
     retrySuccessId := default (retrySuccessId c) (p_retrySuccessId p);
     status := default (status c) (p_status p);
     startedAt := default (startedAt c) (p_startedAt p);
     stoppedAt := default (stoppedAt c) (p_stoppedAt p);
     workflowId := default (workflowId c) (p_workflowId p);
     waitTill := default (waitTill c) (p_waitTill p) |}.

Definition allColumns (c : ExecutionColumns) : PartialColumns :=
  {| p_finished := Some (finished c);
     p_mode := Some (mode c);
     p_retryOf := Some (retryOf c);
     p_retrySuccessId := Some (retrySuccessId c);
     p_status := Some (status c);
     p_startedAt := Some (startedAt c);
     p_stoppedAt := Some (stoppedAt c);
     p_workflowId := Some (workflowId c);
     p_waitTill := Some (waitTill c) |}.

(** The three tables; the first two are keyed by the execution id.
    [nextId] is the counter of generated ids. *)
Record Database := mkDatabase {
  executions : gmap string ExecutionColumns;
  executionData : gmap string ExecutionData;
  executionMetadata : list ExecutionMetadata;
  nextId : nat
}.

End Entities.

Import Entities.

(** ** The process and its environment *)

Module Runtime.

(** What the code can throw. *)
Inductive exn :=
| TypeError            (* a property read on [undefined] or [null] *)
| SyntaxError          (* [parse] on a payload it cannot decode *)
| QueryFailedError     (* the database rejected a write *)
| TypeORMError         (* the query builder rejected what it was given *)
| BinaryDataError      (* the binary-data manager rejected a deletion *)
| DeleteConditionsMissing
    (* Error: either deleteBefore or ids must be present in the request body *)
| ExecutionNotFound (executionId : string).
    (* Error: the execution ID could not be found *)

Inductive result (A : Type) :=
| Ok (a : A)
| Throw (e : exn).
Arguments Ok {A} a.
Arguments Throw {A} e.

(** A timer armed with [setTimeout]: it fires [delay] milliseconds after
    it was armed and then calls [startExecution resumes]. *)
Record Timer := mkTimer { delay : Z; resumes : string }.

(** An entry of [WaitTracker.waitingExecutions]. *)
Record WaitingExecution := mkWaiting { we_executionId : string; we_timer : nat }.

(** The database, the state of the [WaitTracker] instance, the timers of
    the event loop, and the environment: [faults] tells, for each write to
    the database or call of the binary-data manager still to come, whether
    it is rejected; [binaryDeleted] logs the executions whose binary
    payloads were deleted. *)
Record World := mkWorld {
  db : Database;
  faults : list bool;
  clock : Z;
  timers : gmap nat Timer;
  nextTimer : nat;
  waitingExecutions : gmap string WaitingExecution;
  binaryDeleted : list string;
  advancedExecutionFilters : bool
}.

Definition withDb (d : Database) (w : World) : World :=
  mkWorld d (faults w) (clock w) (timers w) (nextTimer w)
          (waitingExecutions w) (binaryDeleted w) (advancedExecutionFilters w).

Definition withFaults (f : list bool) (w : World) : World :=
  mkWorld (db w) f (clock w) (timers w) (nextTimer w)
          (waitingExecutions w) (binaryDeleted w) (advancedExecutionFilters w).

Definition withTimers (t : gmap nat Timer) (n : nat) (w : World) : World :=
  mkWorld (db w) (faults w) (clock w) t n
          (waitingExecutions w) (binaryDeleted w) (advancedExecutionFilters w).

Definition withWaiting (m : gmap string WaitingExecution) (w : World) : World :=
  mkWorld (db w) (faults w) (clock w) (timers w) (nextTimer w)
          m (binaryDeleted w) (advancedExecutionFilters w).

Definition withBinaryDeleted (l : list string) (w : World) : World :=
  mkWorld (db w) (faults w) (clock w) (timers w) (nextTimer w)
          (waitingExecutions w) l (advancedExecutionFilters w).

(** Computations: they read and change the world and may throw. *)
Definition M (A : Type) : Type := World → result A * World.

Definition ret {A} (a : A) : M A := λ w, (Ok a, w).

Definition throw {A} (e : exn) : M A := λ w, (Throw e, w).

Definition bind {A B} (m : M A) (k : A → M B) : M B :=
  λ w, match m w with
       | (Ok a, w') => k a w'
       | (Throw e, w') => (Throw e, w')
       end.

Definition gets {A} (f : World → A) : M A := λ w, (Ok (f w), w).

Definition modify (f : World → World) : M unit := λ w, (Ok tt, f w).

(** A call that the environment may reject with [e]. Only writes to the
    database and calls of the binary-data manager are fallible; reads are
    taken to succeed. *)
Definition fallible (e : exn) : M unit :=
  λ w, match faults w with
       | [] => (Ok tt, w)
       | true :: rest => (Throw e, withFaults rest w)
       | false :: rest => (Ok tt, withFaults rest w)
       end.

(** Reading through a reference that may be [undefined] or [null]. *)
Definition deref {A} (o : option A) : M A :=
  match o with
  | Some a => ret a
  | None => throw TypeError
  end.

(** [array.map(f)]: the first exception ends the iteration. *)
Fixpoint forEach {A B} (f : A → M B) (l : list A) : M (list B) :=
  match l with
  | [] => ret []
  | x :: l' => bind (f x) (λ y, bind (forEach f l') (λ ys, ret (y :: ys)))
  end.

(** [Date.now()] *)
Definition Date_now : M Z := gets clock.

(** [setTimeout]: Node.js sets a delay below 1 or above 2147483647 to 1. *)
Definition TIMEOUT_MAX : Z := 2147483647.

Definition timeoutDelay (ms : Z) : Z :=
  if bool_decide (ms < 1 ∨ TIMEOUT_MAX < ms)%Z then 1%Z else ms.

Definition setTimeout (executionId : string) (ms : Z) : M nat :=
  λ w, (Ok (nextTimer w),
        withTimers (<[nextTimer w := mkTimer (timeoutDelay ms) executionId]> (timers w))
                   (S (nextTimer w)) w).

Definition clearTimeout (timer : nat) : M unit :=
  modify (λ w, withTimers (delete timer (timers w)) (nextTimer w) w).

(** Modelled from the spec: [BinaryDataManager] is not part of the sources
    at hand. By section 6, [deleteBinaryDataByExecutionId] deletes the
    binary payloads of one execution and may fail. *)
Definition deleteBinaryDataByExecutionId (executionId : string) : M unit :=
  bind (fallible BinaryDataError)
       (λ _, modify (λ w, withBinaryDeleted (binaryDeleted w ++ [executionId]) w)).

End Runtime.

Import Runtime.

Notation "'let*' x ':=' m 'in' k" := (bind m (λ x, k))
(at level 10, x pattern, m at level 100, k at level 200).

(** ** The object-relational layer, as the repository uses it *)

Module Typeorm.

(** [FindOptionsWhere<ExecutionEntity>]: [id] is compared for equality,
    [waitTill] with [LessThanOrEqual], [status] with [Not]. *)
Record FindOptionsWhere := mkWhere {
  where_id : option string;
  where_waitTill : option Z;
  where_status : option ExecutionStatus
}.

(** [FindManyOptions<ExecutionEntity>], as far as the sources use it.
    [select] lists the properties to load; the empty list stands for no
    [select], which loads every column. *)
Record FindManyOptions := mkFind {
  select : list string;
  whereClause : FindOptionsWhere;
  orderByWaitTill : bool;
  relations : list string
}.

(** [FindOneOptions<ExecutionEntity>] as [findSingleExecution] builds it:
    a [where] and the relations, no [select]. *)
Record FindOneOptions := mkFindOne {
  one_where : FindOptionsWhere;
  one_relations : list string
}.

(** An entity with every column, as a find without [select] returns it:
    the relation [executionData] is set only when it was asked for and the
    row exists. *)
Record LoadedExecution := mkLoaded {
  entity : ExecutionEntity;
  rel_executionData : option ExecutionData
}.

(** An entity as a find with a [select] returns it: the properties that
    were not selected are missing; a loaded relation comes with all of its
    columns. *)
Record SelectedExecution := mkSelected {
  sel_id : option string;
  sel_columns : PartialColumns;
  sel_executionData : option ExecutionData
}.

Definition pick {A} (select : list string) (name : string) (a : A) : option A :=
  if bool_decide (select = []) || bool_decide (name ∈ select) then Some a else None.

Definition selectColumns (select : list string) (c : ExecutionColumns) : PartialColumns :=
  {| p_finished := pick select "finished" (finished c);
     p_mode := pick select "mode" (mode c);
     p_retryOf := pick select "retryOf" (retryOf c);
     p_retrySuccessId := pick select "retrySuccessId" (retrySuccessId c);
     p_status := pick select "status" (status c);
     p_startedAt := pick select "startedAt" (startedAt c);
     p_stoppedAt := pick select "stoppedAt" (stoppedAt c);
     p_workflowId := pick select "workflowId" (workflowId c);
     p_waitTill := pick select "waitTill" (waitTill c) |}.

Definition project (select : list string) (e : LoadedExecution) : SelectedExecution :=
  mkSelected (pick select "id" (id (entity e)))
             (selectColumns select (columns (entity e)))
             (rel_executionData e).

(** A comparison with a [NULL] column is not true. *)
Definition matchesWhere (c : FindOptionsWhere) (e : ExecutionEntity) : bool :=
  match where_id c with
  | Some i => bool_decide (id e = i)
  | None => true
  end
  && match where_waitTill c with
     | Some bound =>
         match waitTill (columns e) with
         | Some t => bool_decide (t ≤ bound)%Z
         | None => false
         end
     | None => true
     end
  && match where_status c with
     | Some s => bool_decide (status (columns e) ≠ s)
     | None => true
     end.

Definition waitTillAsc (a b : ExecutionEntity) : Prop :=
  match waitTill (columns a), waitTill (columns b) with
  | None, _ => True
  | Some _, None => False
  | Some x, Some y => (x ≤ y)%Z
  end.

#[export] Instance waitTillAsc_dec a b : Decision (waitTillAsc a b).
Proof.
  unfold waitTillAsc.
  destruct (waitTill (columns a)), (waitTill (columns b)); apply _.
Defined.

Definition rows (d : Database) : list ExecutionEntity :=
  (λ kv, mkExecution kv.1 kv.2) <$> map_to_list (executions d).

Definition load (d : Database) (rels : list string) (e : ExecutionEntity)
    : LoadedExecution :=
  mkLoaded e (if bool_decide ("executionData" ∈ rels)
              then executionData d !! id e else None).

(** The rows a query matches, in the order the database returns them:
    sorted by [waitTill] for [order: { waitTill: 'ASC' }]. Without an
    order, and among rows the order does not tell apart, the database is
    free in its choice; the model takes the order of the ids, and no
    statement relies on that choice. *)
Definition findRows (q : FindManyOptions) (d : Database) : list ExecutionEntity :=
  let matching := filter (λ e, matchesWhere (whereClause q) e) (rows d) in
  if orderByWaitTill q then merge_sort waitTillAsc matching else matching.

Definition find (q : FindManyOptions) : M (list SelectedExecution) :=
  gets (λ w, (λ e, project (select q) (load (db w) (relations q) e))
               <$> findRows q (db w)).

Definition findOne (q : FindOneOptions) : M (option LoadedExecution) :=
  gets (λ w, head (load (db w) (one_relations q)
                     <$> findRows (mkFind [] (one_where q) false (one_relations q))
                           (db w))).

(** The ids the database generates are decimal numbers counted up from
    [nextId]; it never hands out an id that is in use. *)
Fixpoint unusedFrom (fuel n : nat) (m : gmap string ExecutionColumns) : nat :=
  match fuel with
  | O => n
  | S fuel' =>
      if bool_decide (is_Some (m !! pretty n)) then unusedFrom fuel' (S n) m else n
  end.

Definition generatedKey (d : Database) : nat :=
  unusedFrom (size (executions d)) (nextId d) (executions d).

(** [save] on the execution table: under a given id an insert, or an
    update of the row that has the id; without one an insert under a
    generated id. *)
Definition saveExecution (i : option string) (c : ExecutionColumns)
    : M ExecutionEntity :=
  let* _ := fallible QueryFailedError in
  let* d := gets db in
  match i with
  | Some k =>
      let* _ := modify (withDb (mkDatabase (<[k := c]> (executions d))
                  (executionData d) (executionMetadata d) (nextId d))) in
      ret (mkExecution k c)
  | None =>
      let k := pretty (generatedKey d) in
      let* _ := modify (withDb (mkDatabase (<[k := c]> (executions d))
                  (executionData d) (executionMetadata d) (S (generatedKey d)))) in
      ret (mkExecution k c)
  end.

(** [save] on the execution-data table. *)
Definition saveExecutionData (execution : ExecutionEntity) (row : ExecutionData)
    : M unit :=
  let* _ := fallible QueryFailedError in
  let* d := gets db in
  modify (withDb (mkDatabase (executions d)
            (<[id execution := row]> (executionData d))
            (executionMetadata d) (nextId d))).

(** [update(ExecutionEntity, { id }, columns)]: changes the row if there
    is one. *)
Definition updateExecution (i : string) (p : PartialColumns) : M unit :=
  let* _ := fallible QueryFailedError in
  let* d := gets db in
  modify (withDb (mkDatabase (alter (setColumns p) i (executions d))
            (executionData d) (executionMetadata d) (nextId d))).

(** [update(ExecutionData, { executionId }, row)] *)
Definition updateExecutionData (i : string)
    (newWorkflowData : option IWorkflowBase) (newData : option flatted) : M unit :=
  let* _ := fallible QueryFailedError in
  let* d := gets db in
  modify (withDb (mkDatabase (executions d)
            (alter (λ row, mkExecutionData (default (data row) newData)
                             (default (workflowData row) newWorkflowData))
                   i (executionData d))
            (executionMetadata d) (nextId d))).

(** Modelled from the spec: the entity declarations are not part of the
    sources at hand. By the data model, deleting an execution record
    deletes its data record and its metadata entries with it. *)
Definition deleteExecutionRow (i : string) : M unit :=
  let* _ := fallible QueryFailedError in
  let* d := gets db in
  modify (withDb (mkDatabase (delete i (executions d))
            (delete i (executionData d))
            (filter (λ md, md_executionId md ≠ i) (executionMetadata d))
            (nextId d))).

(** [manager.transaction]: when the body throws, the writes it made are
    rolled back and the exception is passed on. *)
Definition transaction {A} (body : M A) : M A :=
  λ w, match body w with
       | (Ok a, w') => (Ok a, w')
       | (Throw e, w') => (Throw e, withDb (db w) w')
       end.

(** A query builder on the execution table: the conditions added with
    [andWhere], whether the metadata table is joined, and the parameters
    [:key] and [:value], which every metadata condition shares. *)
Inductive Condition :=
| WorkflowIdIn (ids : list string)
| IdIn (ids : list string)
| StatusIn (l : list ExecutionStatus)
| FinishedIs (b : bool)
| MetadataKeyValue
| StartedAtMoreThanOrEqual (d : Z)
| StartedAtLessThanOrEqual (d : Z)
| WorkflowIdIs (w : string).

Record SelectQueryBuilder := mkQuery {
  conditions : list Condition;
  joinMetadata : bool;
  parameters : option (string * string)
}.

Definition andWhere (c : Condition) (qb : SelectQueryBuilder) : SelectQueryBuilder :=
  mkQuery (conditions qb ++ [c]) (joinMetadata qb) (parameters qb).

Definition holds (qb : SelectQueryBuilder)
    (e : ExecutionEntity) (md : option ExecutionMetadata) (c : Condition) : bool :=
  match c with
  | WorkflowIdIn ids =>
      match workflowId (columns e) with
      | Some w => bool_decide (w ∈ ids)
      | None => false
      end
  | IdIn ids => bool_decide (id e ∈ ids)
  | StatusIn l => bool_decide (status (columns e) ∈ l)
  | FinishedIs b => bool_decide (finished (columns e) = b)
  | MetadataKeyValue =>
      match md, parameters qb with
      | Some row, Some (k, v) => bool_decide (md_key row = k ∧ md_value row = v)
      | _, _ => false
      end
  | StartedAtMoreThanOrEqual t => bool_decide (t ≤ startedAt (columns e))%Z
  | StartedAtLessThanOrEqual t => bool_decide (startedAt (columns e) ≤ t)%Z
  | WorkflowIdIs w => bool_decide (workflowId (columns e) = Some w)
  end.

(** The rows an execution contributes to the (left) join. *)
Definition joined (d : Database) (qb : SelectQueryBuilder) (e : ExecutionEntity)
    : list (option ExecutionMetadata) :=
  if joinMetadata qb then
    match filter (λ md, md_executionId md = id e) (executionMetadata d) with
    | [] => [None]
    | mds => Some <$> mds
    end
  else [None].

Definition getMany (qb : SelectQueryBuilder) : M (list ExecutionEntity) :=
  gets (λ w,
    filter (λ e, existsb (λ md, forallb (holds qb e md) (conditions qb))
                         (joined (db w) qb e))
           (rows (db w))).

End Typeorm.

Import Typeorm.

(** ** [ExecutionRepository] *)

Module ExecutionRepository.

(** [IGetExecutionsQueryFilter] *)
Record IGetExecutionsQueryFilter := mkFilter {
  f_status : option (list ExecutionStatus);
  f_finished : option bool;
  f_metadata : option (list (string * string));
  f_startedAfter : option Z;
  f_startedBefore : option Z;
  f_workflowId : option string
}.

Definition parseFiltersToQueryBuilder (advanced : bool)
    (qb : SelectQueryBuilder) (filters : option IGetExecutionsQueryFilter)
    : SelectQueryBuilder :=
  let qb1 :=
    match filters ≫= f_status with
    | Some l => andWhere (StatusIn l) qb
    | None => qb
    end in
  let qb2 :=
    match filters ≫= f_finished with
    | Some true => andWhere (FinishedIs true) qb1
    | _ => qb1
    end in
  let qb3 :=
    match filters ≫= f_metadata with
    | Some mds =>
        if advanced then
          foldl (λ q md, mkQuery (conditions q ++ [MetadataKeyValue]) true (Some md))
                (mkQuery (conditions qb2) true (parameters qb2)) mds
        else qb2
    | None => qb2
    end in
  let qb4 :=
    match filters ≫= f_startedAfter with
    | Some t => andWhere (StartedAtMoreThanOrEqual t) qb3
    | None => qb3
    end in
  let qb5 :=
    match filters ≫= f_startedBefore with
    | Some t => andWhere (StartedAtLessThanOrEqual t) qb4
    | None => qb4
    end in
  match filters ≫= f_workflowId with
  | Some w => if bool_decide (w = EmptyString) then qb5 else andWhere (WorkflowIdIs w) qb5
  | None => qb5
  end.

(** The options of [findSingleExecution] and [findMultipleExecutions]; a
    missing flag is [false], a missing [where] is [None]. *)
Record FindExecutionOptions := mkOptions {
  includeData : bool;
  includeWorkflowData : bool;
  unflattenData : bool;
  extraWhere : option FindOptionsWhere
}.

Definition noOptions : FindExecutionOptions := mkOptions false false false None.

(** [parse(execution.executionData.data) as IRunExecutionData] *)
Definition parseData (f : flatted) : M Graph :=
  match parse f with
  | Some g => ret g
  | None => throw SyntaxError
  end.

(** The object [findSingleExecution] builds from the entity found:
    [{ ...rest, data, workflowData }]. The relation is read whether or not
    it was loaded. *)
Definition toResult (options : FindExecutionOptions) (execution : LoadedExecution)
    : M (IExecutionFlattedDb + IExecutionResponse) :=
  if includeData options && unflattenData options then
    let* executionData := deref (rel_executionData execution) in
    let* decoded := parseData (data executionData) in
    ret (inr (mkResponse (id (entity execution)) decoded
                (workflowData executionData) (columns (entity execution))))
  else
    let* executionData := deref (rel_executionData execution) in
    ret (inl (mkFlattedDb (id (entity execution)) (data executionData)
                (workflowData executionData) (columns (entity execution)))).

(** The objects [findMultipleExecutions] returns, cast to
    [IExecutionFlattedDb] or [IExecutionResponse] whatever was selected:
    [rest] has only the properties the entity came with. *)
Record FoundExecution (D : Type) := mkFound {
  found_id : option string;
  found_columns : PartialColumns;
  found_data : D;
  found_workflowData : IWorkflowBase
}.
Arguments mkFound {D} _ _ _ _.
Arguments found_id {D} _.
Arguments found_columns {D} _.
Arguments found_data {D} _.
Arguments found_workflowData {D} _.

(** The callbacks of the two [executions.map] of [findMultipleExecutions]. *)
Definition toFound (options : FindExecutionOptions) (execution : SelectedExecution)
    : M (FoundExecution flatted + FoundExecution Graph) :=
  if includeData options && unflattenData options then
    let* executionData := deref (sel_executionData execution) in
    let* decoded := parseData (data executionData) in
    ret (inr (mkFound (sel_id execution) (sel_columns execution) decoded
                (workflowData executionData)))
  else
    let* executionData := deref (sel_executionData execution) in
    ret (inl (mkFound (sel_id execution) (sel_columns execution)
                (data executionData) (workflowData executionData))).

(** [queryParams.relations.push('executionData')]: the query object of
    the caller is changed. *)
Definition pushRelation (queryParams : FindManyOptions)
    (options : FindExecutionOptions) : FindManyOptions :=
  if includeData options || includeWorkflowData options
  then mkFind (select queryParams) (whereClause queryParams)
              (orderByWaitTill queryParams)
              (relations queryParams ++ ["executionData"])
  else queryParams.

(** Besides its outcome and the world, the call yields the query object
    as it leaves it. *)
Definition findMultipleExecutions (queryParams : FindManyOptions)
    (options : FindExecutionOptions)
    : World → result (list (FoundExecution flatted + FoundExecution Graph))
              * FindManyOptions * World :=
  λ w,
    let queryParams' := pushRelation queryParams options in
    let '(r, w') :=
      (let* executions := find queryParams' in
       forEach (toFound options) executions) w in
    (r, queryParams', w').

(** A call by a caller that does not use the query object again. *)
Definition droppingQuery {A} (call : World → result A * FindManyOptions * World)
    : M A :=
  λ w, let '(r, _, w') := call w in (r, w').

Definition findSingleExecution (i : string) (options : FindExecutionOptions)
    : M (option (IExecutionFlattedDb + IExecutionResponse)) :=
  let extra := default (mkWhere None None None) (extraWhere options) in
  let whereClause :=
    mkFindOne (mkWhere (Some (default i (where_id extra)))
                       (where_waitTill extra) (where_status extra))
              (if includeData options || includeWorkflowData options
               then ["executionData"] else []) in
  let* execution := findOne whereClause in
  match execution with
  | None => ret None
  | Some execution =>
      let* r := toResult options execution in ret (Some r)
  end.

Definition createNewExecution (execution : IExecutionDb) : M ExecutionEntity :=
  let* newExecution := saveExecution (new_id execution) (new_columns execution) in
  let* _ := saveExecutionData newExecution
              (mkExecutionData (stringify (new_data execution))
                               (new_workflowData execution)) in
  ret newExecution.

Definition updateExistingExecution (executionId : string)
    (execution : PartialExecution) : M unit :=
  transaction (
    let* _ := if hasKeys (p_columns execution)
              then updateExecution executionId (p_columns execution)
              else ret tt in
    if bool_decide (is_Some (p_data execution))
       || bool_decide (is_Some (p_workflowData execution))
    then updateExecutionData executionId (p_workflowData execution)
           (stringify <$> p_data execution)
    else ret tt).

Definition deleteExecution (executionId : string) : M unit :=
  let* _ := deleteBinaryDataByExecutionId executionId in
  deleteExecutionRow executionId.

Record DeleteConditions := mkDeleteConditions {
  deleteBefore : option Z;
  ids : option (list string)
}.

(** With [deleteBefore] the source calls
    [andWhere('execution.startedAt', LessThanOrEqual(...))]: the operator
    stands where the parameters of the condition belong, and the query
    builder rejects it before any query is sent; the filters, parsed after
    that call, are never reached. With [ids] alone the query is built and
    run, and everything after the query is commented out in the source. *)
Definition deleteExecutions (filters : option IGetExecutionsQueryFilter)
    (accessibleWorkflowIds : list string) (deleteConditions : DeleteConditions)
    : M unit :=
  match deleteBefore deleteConditions, ids deleteConditions with
  | None, None => throw DeleteConditionsMissing
  | Some _, _ => throw TypeORMError
  | None, Some l =>
      let query := andWhere (IdIn l)
                     (andWhere (WorkflowIdIn accessibleWorkflowIds)
                               (mkQuery [] false None)) in
      let* executions := getMany query in
      ret tt
  end.

End ExecutionRepository.

Import ExecutionRepository.

(** ** [WaitTracker] *)

Module WaitTracker.

(** The main timer polls every 60 seconds; each poll looks 70 seconds
    ahead. *)
Definition sweepInterval : Z := 60000.
Definition lookahead : Z := 70000.

Definition findQuery (now : Z) : FindManyOptions :=
  mkFind ["id"; "waitTill"]
         (mkWhere None (Some (now + lookahead)%Z) (Some crashed))
         true [].

Definition resultColumns (r : IExecutionFlattedDb + IExecutionResponse)
    : ExecutionColumns :=
  match r with inl f => flat_columns f | inr e => res_columns e end.

(** The body of the loop of [getWaitingExecutions]. *)
Definition armTimer (executionId : string) (till : option Z) : M unit :=
  let* registry := gets waitingExecutions in
  match registry !! executionId with
  | None =>
      let* t := deref till in
      let* now := Date_now in
      let triggerTime := (t - now)%Z in
      let* timer := setTimeout executionId triggerTime in
      modify (λ w, withWaiting
                (<[executionId := mkWaiting executionId timer]> (waitingExecutions w)) w)
  | Some _ => ret tt
  end.

Fixpoint armTimers (executions : list (string * option Z)) : M unit :=
  match executions with
  | [] => ret tt
  | (executionId, till) :: rest =>
      let* _ := armTimer executionId till in armTimers rest
  end.

(** [execution.id] and [execution.waitTill] of a result: a property that
    was not selected is [undefined], which as a key of the registry is the
    string [undefined], and as a date fails the call of [getTime]. *)
Definition foundId {D} (e : FoundExecution D) : string :=
  default "undefined" (found_id e).

Definition foundWaitTill {D} (e : FoundExecution D) : option Z :=
  mjoin (p_waitTill (found_columns e)).

Definition getWaitingExecutions : M unit :=
  let* now := Date_now in
  let* executions :=
    droppingQuery (findMultipleExecutions (findQuery now) noOptions) in
  if bool_decide (length executions = 0) then ret tt
  else armTimers ((λ e, match e with
                        | inl f => (foundId f, foundWaitTill f)
                        | inr r => (foundId r, foundWaitTill r)
                        end) <$> executions).

Record IExecutionsStopData := mkStopData {
  stop_mode : WorkflowExecuteMode;
  stop_startedAt : Z;
  stop_stoppedAt : option Z;
  stop_finished : bool;
  stop_status : ExecutionStatus
}.

Fixpoint getProperty (k : string) (o : JsObject) : option JsValue :=
  match o with
  | [] => None
  | (k', v) :: rest => if decide (k' = k) then Some v else getProperty k rest
  end.

Fixpoint setProperty (k : string) (v : JsValue) (o : JsObject) : JsObject :=
  match o with
  | [] => [(k, v)]
  | (k', v') :: rest =>
      if decide (k' = k) then (k, v) :: rest else (k', v') :: setProperty k v rest
  end.

Definition canceledMessage : string := "Workflow-Execution has been canceled!".

(** [WorkflowOperationError] is declared in the package n8n-workflow,
    outside the sources at hand. Of an instance the spread [...error]
    copies the own enumerable properties, [name] and [timestamp], the time
    of its construction; [message] and [stack] are not enumerable, which
    is why the source copies them by hand. The text of [stack] is written
    by the engine: its first line is kept, the frames are left out. *)
Definition errorName : string := "WorkflowOperationError".

Definition stackTrace : string :=
  "WorkflowOperationError: Workflow-Execution has been canceled!".

Definition canceledErrorObject (timestamp : Z) : JsObject :=
  [ ("name", JPrim (PStr errorName));
    ("timestamp", JPrim (PNum timestamp));
    ("message", JPrim (PStr canceledMessage));
    ("stack", JPrim (PStr stackTrace)) ].

(** [const error = new WorkflowOperationError(...)] and
    [execution.data.resultData.error = { ...error, message, stack }]:
    a new object is stored under [error] of the object [resultData] of the
    root. *)
Definition attachError (g : Graph) : M Graph :=
  let* timestamp := Date_now in
  let* top := deref (heap g !! root g) in
  match getProperty "resultData" top with
  | Some (JRef r) =>
      let* resultData := deref (heap g !! r) in
      let e := fresh (dom (heap g)) in
      ret (mkGraph
             (<[r := setProperty "error" (JRef e) resultData]>
                (<[e := canceledErrorObject timestamp]> (heap g)))
             (root g))
  | _ => throw TypeError
  end.

(** Modelled from the spec: [Db.collections.Execution.update] and
    [ResponseHelper.flattenExecutionData], which [stopExecution] calls to
    store the execution, are not part of the sources at hand. By section
    4.3 the canceled execution is persisted through the store's update,
    which encodes the run data again. *)
Definition persistExecution (executionId : string) (execution : IExecutionResponse)
    : M unit :=
  updateExistingExecution executionId
    (mkPartial (Some (res_id execution)) (Some (res_data execution))
               (Some (res_workflowData execution))
               (allColumns (res_columns execution))).

Definition stopExecution (executionId : string) : M IExecutionsStopData :=
  let* registry := gets waitingExecutions in
  let* _ :=
    match registry !! executionId with
    | Some entry =>
        let* _ := clearTimeout (we_timer entry) in
        modify (λ w, withWaiting (delete executionId (waitingExecutions w)) w)
    | None => ret tt
    end in
  let* found := findSingleExecution executionId (mkOptions true true true None) in
  match found with
  | None => throw (ExecutionNotFound executionId)
  | Some execution =>
      match waitTill (resultColumns execution) with
      | None => throw (ExecutionNotFound executionId)
      | Some _ =>
          match execution with
          | inl _ => throw TypeError
          | inr execution =>
              let* data' := attachError (res_data execution) in
              let* now := Date_now in
              let c := res_columns execution in
              let stopped :=
                mkResponse (res_id execution) data' (res_workflowData execution)
                  (mkColumns (finished c) (mode c) (retryOf c) (retrySuccessId c)
                             canceled (startedAt c) (Some now) (workflowId c) None) in
              let* _ := persistExecution executionId stopped in
              ret (mkStopData (mode c) (startedAt c) (Some now) (finished c) canceled)
          end
      end
  end.

End WaitTracker.

Import WaitTracker.

(** ** Invariants of the store and of the tracker *)

Module Invariants.

(** The foreign key of the data table: a data record belongs to an
    execution record. *)
Definition owned (d : Database) : Prop :=
  ∀ i, is_Some (executionData d !! i) → is_Some (executions d !! i).

(** The 1:1 rule of the data model for execution [i]: if its record
    exists, so does its data record, and the payload decodes. *)
Definition decodable (d : Database) (i : string) : Prop :=
  is_Some (executions d !! i) →
  ∃ row g, executionData d !! i = Some row ∧ parse (data row) = Some g.

(** The registry of the tracker and the armed timers agree: every timer
    resumes the execution under whose id it is registered, and every
    registry entry holds an armed timer. *)
Record consistent (w : World) : Prop := {
  timer_registered : ∀ h t, timers w !! h = Some t →
    waitingExecutions w !! resumes t = Some (mkWaiting (resumes t) h);
  entry_armed : ∀ i e, waitingExecutions w !! i = Some e →
    we_executionId e = i ∧ ∃ t, timers w !! we_timer e = Some t ∧ resumes t = i;
  timer_below : ∀ h, is_Some (timers w !! h) → h < nextTimer w
}.

(** The id under which [createNewExecution] stores an execution: its own
    if it has one, else the next generated id. *)
Definition generatedId (x : IExecutionDb) (w : World) : string :=
  default (pretty (generatedKey (db w))) (new_id x).

(** The world once [stopExecution] has cleared the timer of an execution
    and dropped it from the registry. *)
Definition disarmed (i : string) (w : World) : World :=
match waitingExecutions w !! i with
| Some entry =>
    withWaiting (delete i (waitingExecutions w))
      (withTimers (delete (we_timer entry) (timers w)) (nextTimer w) w)
| None => w
end.

(** The world once the loop of [getWaitingExecutions] has armed a timer
    for an execution due at [t]. *)
Definition armedWorld (i : string) (t : Z) (w : World) : World :=
  withWaiting (<[i := mkWaiting i (nextTimer w)]> (waitingExecutions w))
    (withTimers (<[nextTimer w := mkTimer (timeoutDelay (t - clock w)) i]> (timers w))
                (S (nextTimer w)) w).

(** References of a decoded object stay below the number of slots. *)
Definition refBelow (n : nat) (v : JsValue) : Prop :=
  match v with JPrim _ => True | JRef b => b < n end.

(** Run data whose root has an object under [resultData]. *)
Definition hasResultData (g : Graph) : Prop :=
  ∃ top r, heap g !! root g = Some top ∧ getProperty "resultData" top = Some (JRef r).

(** The cancellation error can be read at [resultData.error]: an object
    whose [message] is the cancellation message. *)
Definition canceledError (g : Graph) : Prop :=
  ∃ top r rd e err,
    heap g !! root g = Some top
    ∧ getProperty "resultData" top = Some (JRef r)
    ∧ heap g !! r = Some rd
    ∧ getProperty "error" rd = Some (JRef e)
    ∧ heap g !! e = Some err
    ∧ getProperty "message" err = Some (JPrim (PStr canceledMessage)).

(** The run data [g] with one object more, [err], and the property
    [error] of the object [r], whose properties were [rd], set to it;
    every other object and property is as in [g]. *)
Definition withError (g : Graph) (err : JsObject) (r : addr) (rd : JsObject) : Graph :=
  mkGraph
    (<[r := setProperty "error" (JRef (fresh (dom (heap g)))) rd]>
       (<[fresh (dom (heap g)) := err]> (heap g)))
    (root g).

(** Entities in ascending order of [waitTill], as far as it is set. *)
Definition ascendingWaitTill (l : list ExecutionEntity) : Prop :=
  ∀ i j a b x y, i < j → l !! i = Some a → l !! j = Some b →
    waitTill (columns a) = Some x → waitTill (columns b) = Some y → (x ≤ y)%Z.

End Invariants.

Import Invariants.

(** ** Sample data *)

Module Samples.

(** [A.next = B; B.next = A], and an error object that both reference. *)
Definition cyclic : Graph :=
  mkGraph (list_to_map
    [ (10, [("next", JRef 20); ("err", JRef 30)]);
      (20, [("next", JRef 10); ("err", JRef 30)]);
      (30, [("message", JPrim (PStr "boom"))]) ]) 10.

(** Run data with a [resultData] object and a reference back to the root. *)
Definition runData : Graph :=
  mkGraph (list_to_map
    [ (0, [("resultData", JRef 1); ("startData", JPrim PNull)]);
      (1, [("runData", JRef 2); ("lastNodeExecuted", JPrim (PStr "Wait"))]);
      (2, [("loop", JRef 0)]) ]) 0.

Definition someWorkflow : IWorkflowBase := mkWorkflow (Some "wf1") "Workflow".

Definition columnsWith (s : ExecutionStatus) (till : option Z) : ExecutionColumns :=
  mkColumns false manual None None s 100 None (Some "wf1") till.

Definition emptyDb : Database := mkDatabase ∅ ∅ [] 1.

(** A store with the execution [1]: its record, its data record and one
    metadata entry. *)
Definition storeWith (c : ExecutionColumns) : Database :=
  mkDatabase {[ "1" := c ]}
             {[ "1" := mkExecutionData (stringify runData) someWorkflow ]}
             [mkMetadata "1" "customer" "42"] 2.

(** A process at time 1000 with no timers armed. *)
Definition worldOf (d : Database) (rejections : list bool) : World :=
  mkWorld d rejections 1000 ∅ 0 ∅ [] false.

Definition newExecution : IExecutionDb :=
  mkExecutionDb None runData someWorkflow (columnsWith running None).

(** Execution [1] waiting until time 5000, in a process at time 1000. *)
Definition waitingWorld : World :=
  worldOf (storeWith (columnsWith waiting (Some 5000%Z))) [].

(** Execution [1] finished, no [waitTill]. *)
Definition finishedWorld : World :=
  worldOf (storeWith (columnsWith success None)) [].

(** Execution [1] running, with a [waitTill] left over. *)
Definition runningWorld : World :=
  worldOf (storeWith (columnsWith running (Some 5000%Z))) [].

(** [{ status: 'canceled', ... }], every column supplied. *)
Definition cancelUpdate : PartialExecution :=
  mkPartial None None None (allColumns (columnsWith canceled None)).

End Samples.

Import Samples.

(** ** [ExecutionRepository.searchExecutions] *)

Module Search.

(** [IExecutionsSummary]: the selected columns and the name of the
    workflow. *)
Record IExecutionsSummary := mkSummary {
  sum_id : string;
  sum_columns : ExecutionColumns;
  sum_workflowName : string
}.

Record AdditionalFilters := mkAdditional {
  lastId : option string;
  firstId : option string
}.

Section Tables.

(** The workflow table, as the name of each workflow by id, and the order
    of the id column are declared outside the sources at hand; both are
    parameters. *)
Variable workflows : gmap string string.
Variable idLess : string → string → bool.

(** [.innerJoin('execution.workflow', 'workflow')] *)
Definition workflowOf (e : ExecutionEntity) : option string :=
  wf ← workflowId (columns e); workflows !! wf.

(** The conditions [searchExecutions] adds on the execution id: the
    excluded ids when there are any, [execution.id < :lastId] and
    [execution.id > :firstId] when the bounds are given (an empty string
    counts as not given). *)
Definition idConditions (excludedExecutionIds : list string)
    (additionalFilters : option AdditionalFilters) (e : ExecutionEntity) : bool :=
  (if bool_decide (0 < length excludedExecutionIds)
   then bool_decide (id e ∉ excludedExecutionIds) else true)
  && match additionalFilters ≫= lastId with
     | Some l => if bool_decide (l = EmptyString) then true else idLess (id e) l
     | None => true
     end
  && match additionalFilters ≫= firstId with
     | Some f => if bool_decide (f = EmptyString) then true else idLess f (id e)
     | None => true
     end.

(** The rows of the query: one per execution and joined metadata row that
    meet every condition, with the name of the joined workflow. *)
Definition searchRows (qb : SelectQueryBuilder) (onId : ExecutionEntity → bool)
    (d : Database) : list (ExecutionEntity * string) :=
  e ← rows d;
  match workflowOf e with
  | Some name =>
      if onId e
      then (λ _, (e, name))
             <$> filter (λ md, forallb (holds qb e md) (conditions qb)) (joined d qb e)
      else []
  | None => []
  end.

(** [.orderBy('execution.startedAt', 'DESC')] *)
Definition startedAtDesc (a b : ExecutionEntity * string) : Prop :=
  (startedAt (columns b.1) ≤ startedAt (columns a.1))%Z.

#[export] Instance startedAtDesc_dec a b : Decision (startedAtDesc a b).
Proof. unfold startedAtDesc. apply _. Defined.

(** [.limit(limit)]: the query builder emits no [LIMIT] for 0. *)
Definition limited {A} (limit : nat) (l : list A) : list A :=
  match limit with
  | O => l
  | S _ => take limit l
  end.

(** The rows that are left are grouped into entities, one per id, in the
    order of their first row. *)
Fixpoint distinctById (seen : list string) (l : list (ExecutionEntity * string))
    : list (ExecutionEntity * string) :=
  match l with
  | [] => []
  | x :: l' =>
      if bool_decide (id x.1 ∈ seen) then distinctById seen l'
      else x :: distinctById (id x.1 :: seen) l'
  end.

Definition searchQuery (advanced : bool) (filters : option IGetExecutionsQueryFilter)
    (accessibleWorkflowIds : list string) : SelectQueryBuilder :=
  parseFiltersToQueryBuilder advanced
    (andWhere (WorkflowIdIn accessibleWorkflowIds) (mkQuery [] false None)) filters.

Definition searchExecutions (filters : option IGetExecutionsQueryFilter)
    (limit : nat) (excludedExecutionIds accessibleWorkflowIds : list string)
    (additionalFilters : option AdditionalFilters) : M (list IExecutionsSummary) :=
  if bool_decide (length accessibleWorkflowIds = 0) then ret []
  else
    let* advanced := gets advancedExecutionFilters in
    let query := searchQuery advanced filters accessibleWorkflowIds in
    let* executions :=
      gets (λ w, distinctById []
                   (limited limit
                      (merge_sort startedAtDesc
                         (searchRows query
                            (idConditions excludedExecutionIds additionalFilters)
                            (db w))))) in
    ret ((λ x, mkSummary (id x.1) (columns x.1) x.2) <$> executions).

End Tables.

End Search.

Import Search.

(** ** [WaitTracker.startExecution] *)

Module Resume.

(** [IWorkflowExecutionDataProcess], as far as [startExecution] fills
    it. *)
Record IWorkflowExecutionDataProcess := mkProcess {
  executionMode : WorkflowExecuteMode;
  process_executionData : flatted + Graph;
  process_workflowData : IWorkflowBase;
  userId : string
}.

(** What the [catch] of [startExecution] hands to the error reporter and
    the logger: one of the three errors the function throws itself, or the
    exception of a call it made. *)
Inductive Problem :=
| DoesNotExist (executionId : string)
| DidSucceed
| OnlySavedWorkflows
| Rejected (e : exn).

Definition resultWorkflowData (r : IExecutionFlattedDb + IExecutionResponse)
    : IWorkflowBase :=
  match r with inl f => flat_workflowData f | inr e => res_workflowData e end.

Definition resultData (r : IExecutionFlattedDb + IExecutionResponse)
    : flatted + Graph :=
  match r with inl f => inl (flat_data f) | inr e => inr (res_data e) end.

Section Collaborators.

(** [getWorkflowOwner] and [WorkflowRunner.run] are declared outside the
    sources at hand: parameters. The first yields the id of the owner, the
    second the id of the execution it started. *)
Variable getWorkflowOwner : string → M string.
Variable run : IWorkflowExecutionDataProcess → string → M string.

(** The value is what was reported; [None] when the execution was handed
    to the runner and the runner returned. *)
Definition startExecution (executionId : string) : M (option Problem) :=
  λ w0,
    let w := withWaiting (delete executionId (waitingExecutions w0)) w0 in
    match findSingleExecution executionId (mkOptions true true true None) w with
    | (Throw e, w1) => (Ok (Some (Rejected e)), w1)
    | (Ok None, w1) => (Ok (Some (DoesNotExist executionId)), w1)
    | (Ok (Some fullExecutionData), w1) =>
        if finished (resultColumns fullExecutionData)
        then (Ok (Some DidSucceed), w1)
        else
          match wf_id (resultWorkflowData fullExecutionData) with
          | None => (Ok (Some OnlySavedWorkflows), w1)
          | Some workflowId =>
              if bool_decide (workflowId = EmptyString)
              then (Ok (Some OnlySavedWorkflows), w1)
              else
                match getWorkflowOwner workflowId w1 with
                | (Throw e, w2) => (Ok (Some (Rejected e)), w2)
                | (Ok user, w2) =>
                    match run (mkProcess (mode (resultColumns fullExecutionData))
                                 (resultData fullExecutionData)
                                 (resultWorkflowData fullExecutionData) user)
                              executionId w2 with
                    | (Throw e, w3) => (Ok (Some (Rejected e)), w3)
                    | (Ok _, w3) => (Ok None, w3)
                    end
                end
          end
    end.

End Collaborators.

End Resume.

Import Resume.

(** ** The store of the external secrets *)

Module ExternalSecretsStore.

#[export] Instance JsPrim_eq_dec : EqDecision JsPrim.
Proof. solve_decision. Defined.

(** An [ExternalSecretsProvider], or a part of one: its properties. The
    interface is declared outside the sources at hand; the store reads the
    property [id] and spreads the rest. *)
Abbreviation Provider := (gmap string JsPrim).

Record State := mkState {
  providers : list Provider;
  secrets : gmap string (list string)
}.

Definition mask : string := "*********".

(** [acc[key] = value] on an object that began as [{}]. The objects are
    modelled by their own properties. The key [__proto__] is the accessor
    inherited from [Object.prototype]: assigning to it sets the prototype
    of the object, or does nothing, and creates no own property. *)
Definition assign {V} (key : string) (value : V) (acc : gmap string V)
    : gmap string V :=
  if bool_decide (key = "__proto__") then acc else <[key := value]> acc.

(** The inner [reduce]: every secret name of a provider is given the
    mask. *)
Definition maskSecrets (names : list string) : gmap string string :=
  foldl (λ secretAcc secret, assign secret mask secretAcc) ∅ names.

(** The outer [reduce] over [Object.keys]; a property the lookup does not
    find is stored as [undefined], here [None]. *)
Definition secretsAsObject (st : State) : gmap string (option (gmap string string)) :=
  foldl (λ providerAcc provider,
           assign provider (maskSecrets <$> (secrets st !! provider)) providerAcc)
        ∅ (map_to_list (secrets st)).*1.

(** [settingsStore.isEnterpriseFeatureEnabled(...) || true] *)
Definition isEnterpriseExternalSecretsEnabled (isEnterpriseFeatureEnabled : bool) : bool :=
  isEnterpriseFeatureEnabled || true.

(** [state.providers.findIndex((p) => p.id === id)]; [-1] when no provider
    has the id. *)
Definition findIndex (id : string) (l : list Provider) : Z :=
  match list_find (λ p, p !! "id" = Some (PStr id)) l with
  | Some (i, _) => Z.of_nat i
  | None => (-1)%Z
  end.

(** [Array.prototype.slice]: a negative index counts from the end, and
    both ends are clamped to the array. *)
Definition sliceIndex (len : nat) (k : Z) : nat :=
  if bool_decide (k < 0)%Z then Z.to_nat (Z.max 0 (Z.of_nat len + k))
  else Z.to_nat (Z.min k (Z.of_nat len)).

Definition slice {A} (l : list A) (first : Z) (last : option Z) : list A :=
  let s := sliceIndex (length l) first in
  let e := match last with
           | Some k => sliceIndex (length l) k
           | None => length l
           end in
  take (e - s) (drop s l).

(** [array[k]]: [undefined] outside the array. *)
Definition at_ {A} (l : list A) (k : Z) : option A :=
  if bool_decide (k < 0)%Z then None else l !! Z.to_nat k.

(** [{ ...a, ...b }]: the properties of [b] win; spreading [undefined]
    adds nothing. *)
Definition spread (a : option Provider) (b : Provider) : Provider :=
  b ∪ default ∅ a.

Section Api.

(** The answers of the server to the requests of one action; [None] and
    [false] stand for a rejected request. *)
Variable getExternalSecretsProvider : string → option Provider.
Variable getExternalSecretsProviders : option (list Provider).
Variable getExternalSecrets : option (gmap string (list string)).
Variable putProvider : string → Provider → bool.

(** Each action yields its value, [None] when the promise is rejected, and
    the state it leaves. *)
Definition fetchAllSecrets (st : State) : option unit * State :=
  match getExternalSecrets with
  | Some s => (Some tt, mkState (providers st) s)
  | None => (None, st)
  end.

Definition getProviders (st : State) : option unit * State :=
  match getExternalSecretsProviders with
  | Some l => (Some tt, mkState l (secrets st))
  | None => (None, st)
  end.

Definition getProvider (id : string) (st : State) : option Provider * State :=
  match getExternalSecretsProvider id with
  | None => (None, st)
  | Some provider =>
      let existingProviderIndex := findIndex id (providers st) in
      if bool_decide (existingProviderIndex ≠ (-1)%Z)
      then (Some provider,
            mkState (<[Z.to_nat existingProviderIndex := provider]> (providers st))
                    (secrets st))
      else (Some provider, mkState (providers st ++ [provider]) (secrets st))
  end.

(** The state is replaced before the request is sent. *)
Definition updateProvider (id : string) (data : Provider) (st : State)
    : option unit * State :=
  let providerIndex := findIndex id (providers st) in
  let st' :=
    mkState (slice (providers st) 0 (Some providerIndex)
             ++ [spread (at_ (providers st) providerIndex) data]
             ++ slice (providers st) (providerIndex + 1) None)
            (secrets st) in
  if putProvider id data then (Some tt, st') else (None, st').

(** The secrets fetched at the end are not stored. *)
Definition updateProviderConnected (id : string) (value : bool) (st : State)
    : option unit * State :=
  match updateProvider id {[ "connected" := PBool value ]} st with
  | (Some _, st') =>
      match getExternalSecrets with
      | Some _ => (Some tt, st')
      | None => (None, st')
      end
  | (None, st') => (None, st')
  end.

End Api.

End ExternalSecretsStore.

Import ExternalSecretsStore.

(** ** Outcomes, for the statements about the functions above *)

Module Outcomes.

(** The where clause [findSingleExecution] builds: the id given, unless the
    extra conditions name one. *)
Definition singleWhere (i : string) (o : FindExecutionOptions) : FindOptionsWhere :=
  let extra := default (mkWhere None None None) (extraWhere o) in
  mkWhere (Some (default i (where_id extra))) (where_waitTill extra) (where_status extra).

Definition singleKey (i : string) (o : FindExecutionOptions) : string :=
  default i (extraWhere o ≫= where_id).

(** What [findMultipleExecutions] builds for one execution when the run
    data is asked for and decoded: the selected properties, the decoded
    payload and the workflow snapshot. *)
Definition decoded (select : list string) (d : Database) (e : ExecutionEntity)
    : option (FoundExecution Graph) :=
  row ← executionData d !! id e;
  g ← parse (data row);
  Some (mkFound (pick select "id" (id e)) (selectColumns select (columns e))
                g (workflowData row)).

(** The rows [updateExistingExecution] leaves when it succeeds. *)
Definition updatedExecutions (i : string) (p : PartialExecution) (d : Database)
    : gmap string ExecutionColumns :=
  if hasKeys (p_columns p)
  then alter (setColumns (p_columns p)) i (executions d)
  else executions d.

Definition updatedData (i : string) (p : PartialExecution) (d : Database)
    : gmap string ExecutionData :=
  if bool_decide (is_Some (p_data p)) || bool_decide (is_Some (p_workflowData p))
  then alter (λ row, mkExecutionData (default (data row) (stringify <$> p_data p))
                       (default (workflowData row) (p_workflowData p)))
             i (executionData d)
  else executionData d.

(** The simple filters, as conditions on one execution. *)
Definition filterHolds (filters : option IGetExecutionsQueryFilter)
    (c : ExecutionColumns) : Prop :=
  (∀ l, (filters ≫= f_status) = Some l → status c ∈ l)
  ∧ ((filters ≫= f_finished) = Some true → finished c = true)
  ∧ (∀ t, (filters ≫= f_startedAfter) = Some t → (t ≤ startedAt c)%Z)
  ∧ (∀ t, (filters ≫= f_startedBefore) = Some t → (startedAt c ≤ t)%Z)
  ∧ (∀ wf, (filters ≫= f_workflowId) = Some wf → wf ≠ EmptyString →
       workflowId c = Some wf).

(** The conditions [parseFiltersToQueryBuilder] appends. *)
Definition filterConditions (advanced : bool)
    (filters : option IGetExecutionsQueryFilter) : list Condition :=
  match filters ≫= f_status with Some l => [StatusIn l] | None => [] end
  ++ match filters ≫= f_finished with Some true => [FinishedIs true] | _ => [] end
  ++ match filters ≫= f_metadata with
     | Some mds => if advanced then replicate (length mds) MetadataKeyValue else []
     | None => []
     end
  ++ match filters ≫= f_startedAfter with
     | Some t => [StartedAtMoreThanOrEqual t] | None => [] end
  ++ match filters ≫= f_startedBefore with
     | Some t => [StartedAtLessThanOrEqual t] | None => [] end
  ++ match filters ≫= f_workflowId with
     | Some wf => if bool_decide (wf = EmptyString) then [] else [WorkflowIdIs wf]
     | None => []
     end.

(** The metadata pairs of a filter that take part in the query. *)
Definition metadataPairs (advanced : bool)
    (filters : option IGetExecutionsQueryFilter) : option (list (string * string)) :=
  if advanced then filters ≫= f_metadata else None.

(** The bounds [searchExecutions] puts on the id of an execution. *)
Definition withinBounds (idLess : string → string → bool)
    (additional : option AdditionalFilters) (i : string) : Prop :=
  (∀ l, (additional ≫= lastId) = Some l → l ≠ EmptyString → idLess i l = true)
  ∧ (∀ f, (additional ≫= firstId) = Some f → f ≠ EmptyString → idLess f i = true).

(** The list [searchExecutions] maps to summaries. *)
Definition searchPage (workflows : gmap string string) (idLess : string → string → bool)
    (filters : option IGetExecutionsQueryFilter) (limit : nat)
    (excluded accessible : list string) (additional : option AdditionalFilters)
    (w : World) : list (ExecutionEntity * string) :=
  distinctById []
    (limited limit
       (merge_sort startedAtDesc
          (searchRows workflows
             (searchQuery (advancedExecutionFilters w) filters accessible)
             (idConditions idLess excluded additional) (db w)))).

(** The world once [startExecution] has dropped an execution from the
    registry. *)
Definition untracked (i : string) (w : World) : World :=
  withWaiting (delete i (waitingExecutions w)) w.

(** Two worlds with the same timers and the same registry. *)
Definition sameTracker (w w' : World) : Prop :=
  timers w' = timers w
  ∧ nextTimer w' = nextTimer w
  ∧ waitingExecutions w' = waitingExecutions w.

End Outcomes.

Import Outcomes.

(** ** More sample data *)

Module MoreSamples.

(** [{ data, status: 'canceled', ... }]: the run data and every column. *)
Definition bothUpdate : PartialExecution :=
  mkPartial None (Some cyclic) None (allColumns (columnsWith canceled None)).

(** Execution [1] without its data record. *)
Definition orphanWorld : World :=
  worldOf (mkDatabase {[ "1" := columnsWith waiting (Some 5000%Z) ]} ∅ [] 2) [].

(** Execution [1] with a payload that refers to a slot it does not have. *)
Definition corruptWorld : World :=
  worldOf (mkDatabase {[ "1" := columnsWith waiting (Some 5000%Z) ]}
             {[ "1" := mkExecutionData [[("next", FSlot 7)]] someWorkflow ]} [] 2) [].

(** The store of [waitingWorld] in a process where the advanced filters
    are enabled. *)
Definition advancedWorld : World :=
  mkWorld (storeWith (columnsWith waiting (Some 5000%Z))) [] 1000 ∅ 0 ∅ [] true.

Definition workflowNames : gmap string string := {[ "wf1" := "Workflow" ]}.

Definition customerFilter : IGetExecutionsQueryFilter :=
  mkFilter None None (Some [("plan", "free"); ("customer", "42")]) None None None.

Definition waitingFilter : IGetExecutionsQueryFilter :=
  mkFilter (Some [waiting]) None None (Some 50%Z) None (Some "wf1").

(** Collaborators that accept everything. *)
Definition ownerOf : string → M string := λ _, ret "owner".

Definition runner : IWorkflowExecutionDataProcess → string → M string :=
  λ _ executionId, ret executionId.

Definition vault : Provider :=
  {[ "id" := PStr "vault"; "connected" := PBool false ]}.

Definition infisical : Provider :=
  {[ "id" := PStr "infisical"; "connected" := PBool true ]}.

Definition twoProviders : State :=
  mkState [vault; infisical] {[ "vault" := ["token"; "password"] ]}.

End MoreSamples.

Import MoreSamples.

Section FlattedFacts.

Lemma indexOf_Some a l i : indexOf a l = Some i → l !! i = Some a.
Proof.
  revert i; induction l as [|b l IH]; intros i; simpl; [done|].
  case_decide as Hab; [intros [= <-]; by subst|].
  destruct (indexOf a l) as [j|]; simpl; [|done].
  intros [= <-]. by apply IH.
Qed.

Lemma indexOf_None a l : indexOf a l = None → a ∉ l.
Proof.
  induction l as [|b l IH]; simpl; [intros _; apply not_elem_of_nil|].
  case_decide as Hab; [done|].
  destruct (indexOf a l); simpl; [done|].
  intros _ [?| ?]%elem_of_cons; [done|]. by apply IH.
Qed.

Lemma indexOf_NoDup a l i : NoDup l → l !! i = Some a → indexOf a l = Some i.
Proof.
  intros Hnd Hi.
  destruct (indexOf a l) as [j|] eqn:Hj.
  - f_equal. apply indexOf_Some in Hj.
    by eapply NoDup_lookup.
  - apply indexOf_None in Hj. destruct Hj.
    by eapply list_elem_of_lookup_2.
Qed.

Lemma encodedValue_mono order ext v fv :
  encodedValue order v fv → encodedValue (order ++ ext) v fv.
Proof.
  destruct v, fv; simpl; try done.
  intros H. by apply lookup_app_l_Some.
Qed.

Lemma encodedObject_mono order ext o fo :
  encodedObject order o fo → encodedObject (order ++ ext) o fo.
Proof.
  intros H. eapply Forall2_impl; [exact H|].
  intros ?? [? ?]; split; [done|]. by apply encodedValue_mono.
Qed.

Lemma encodeValue_spec order v order' fv :
  encodeValue order v = (order', fv) →
  ∃ ext, order' = order ++ ext ∧ encodedValue order' v fv ∧
         (NoDup order → NoDup order') ∧ (∀ b, b ∈ ext → v = JRef b).
Proof.
  destruct v as [p|a]; simpl.
  - intros [= <- <-]. exists []. rewrite app_nil_r.
    repeat split; try done. intros b Hb. by apply elem_of_nil in Hb.
  - destruct (indexOf a order) as [i|] eqn:Hi; intros [= <- <-].
    + exists []. rewrite app_nil_r. repeat split; try done.
      * by apply indexOf_Some.
      * intros b Hb. by apply elem_of_nil in Hb.
    + exists [a]. repeat split.
      * simpl. rewrite lookup_app_r; [|done].
        by rewrite Nat.sub_diag.
      * intros Hnd. apply NoDup_app. repeat split; [done| |apply NoDup_singleton].
        intros x Hx ->%list_elem_of_singleton.
        by apply indexOf_None in Hi.
      * by intros b ->%list_elem_of_singleton.
Qed.

Lemma encodeFields_spec fs : ∀ order order' out,
  encodeFields order fs = (order', out) →
  ∃ ext, order' = order ++ ext ∧ encodedObject order' fs out ∧
         (NoDup order → NoDup order') ∧
         (∀ b, b ∈ ext → ∃ k, (k, JRef b) ∈ fs).
Proof.
  induction fs as [|[k v] fs IH]; intros order order' out; simpl.
  - intros [= <- <-]. exists []. rewrite app_nil_r.
    repeat split; try done; [constructor|].
    intros b Hb. by apply elem_of_nil in Hb.
  - destruct (encodeValue order v) as [order1 fv] eqn:Hv.
    destruct (encodeFields order1 fs) as [order2 out2] eqn:Hfs.
    intros [= <- <-].
    apply encodeValue_spec in Hv as (ext1 & -> & Hev & Hnd1 & Hext1).
    apply IH in Hfs as (ext2 & -> & Heo & Hnd2 & Hext2).
    exists (ext1 ++ ext2). rewrite app_assoc. repeat split.
    + constructor; [|done]. split; [done|]. by apply encodedValue_mono.
    + auto.
    + intros b [Hb|Hb]%elem_of_app.
      * exists k. rewrite (Hext1 b Hb). apply elem_of_cons; by left.
      * destruct (Hext2 b Hb) as [k' Hk']. exists k'.
        apply elem_of_cons; by right.
Qed.

Lemma NoDup_heap_length (h : gmap addr JsObject) (l : list addr) :
  NoDup l → (∀ a, a ∈ l → is_Some (h !! a)) → length l ≤ size h.
Proof.
  intros Hnd Hin. rewrite <- (size_dom h).
  apply (submseteq_length l (elements (dom h))).
  apply NoDup_submseteq; [done|].
  intros a Ha. apply elem_of_elements, elem_of_dom. by apply Hin.
Qed.

Lemma encoded_start g : encoded g [root g] 0 [].
Proof.
  split; try done.
  - apply NoDup_singleton.
  - intros a ->%list_elem_of_singleton. constructor.
  - simpl. lia.
  - intros k a Hk. lia.
Qed.

Lemma encoded_step g order i out a order' o :
  encoded g order i out →
  order !! i = Some a →
  encodeFields order (fieldsOf (heap g) a) = (order', o) →
  encoded g order' (S i) (out ++ [o]).
Proof.
  intros [Hnd Hroot Hreach Hlen Hle Hdone] Ha Henc.
  apply encodeFields_spec in Henc as (ext & -> & Ho & Hnd' & Hext).
  split.
  - auto.
  - by apply lookup_app_l_Some.
  - intros b [Hb|Hb]%elem_of_app; [by apply Hreach|].
    destruct (Hext b Hb) as [k Hk].
    eapply reach_field; [|exact Hk].
    apply Hreach. by eapply list_elem_of_lookup_2.
  - rewrite length_app. simpl. lia.
  - apply lookup_lt_Some in Ha. rewrite length_app. lia.
  - intros k b Hk Hb.
    destruct (decide (k = i)) as [->|Hne].
    + assert (b = a) as ->.
      { apply (lookup_app_l_Some _ ext) in Ha. congruence. }
      exists o. split; [|done].
      rewrite lookup_app_r; [|lia]. by rewrite Hlen, Nat.sub_diag.
    + assert (k < i) as Hlt by lia.
      assert (order !! k = Some b) as Hb'.
      { rewrite lookup_app_l in Hb; [done|lia]. }
      destruct (Hdone k b Hlt Hb') as (fo & Hfo & Heo).
      exists fo. split; [by apply lookup_app_l_Some|].
      by apply encodedObject_mono.
Qed.

Lemma encodeLoop_encoded g fuel : ∀ order i out,
  closed g →
  encoded g order i out →
  size (heap g) ≤ i + fuel →
  ∃ order', encoded g order' (length order') (encodeLoop fuel (heap g) order i out).
Proof.
  induction fuel as [|fuel IH]; intros order i out Hcl Henc Hfuel; simpl.
  - assert (length order ≤ size (heap g)) as Hsz.
    { apply NoDup_heap_length; [apply Henc|].
      intros a Ha. apply Hcl. by apply Henc. }
    pose proof (enc_le _ _ _ _ Henc) as Hle.
    assert (i = length order) as -> by lia.
    by exists order.
  - destruct (order !! i) as [a|] eqn:Ha.
    + destruct (encodeFields order (fieldsOf (heap g) a)) as [order' o] eqn:Hf.
      apply (IH order' (S i)); [done| |lia].
      by eapply encoded_step.
    + apply lookup_ge_None in Ha.
      pose proof (enc_le _ _ _ _ Henc) as Hle.
      assert (i = length order) as -> by lia.
      by exists order.
Qed.

Lemma stringify_encoded g :
  closed g → ∃ order, encoded g order (length order) (stringify g).
Proof.
  intros Hcl. unfold stringify.
  apply encodeLoop_encoded; [done|apply encoded_start|lia].
Qed.

(** Once every slot is written, the slots are exactly the reachable
    objects. *)
Lemma encoded_complete g order out a :
  encoded g order (length order) out → reachable g a → a ∈ order.
Proof.
  intros Henc Hr. induction Hr as [|a k b Hr IH Hk].
  - eapply list_elem_of_lookup_2. apply Henc.
  - apply list_elem_of_lookup in IH as [i Hi].
    destruct (enc_done _ _ _ _ Henc i a) as (fo & _ & Heo);
      [by eapply lookup_lt_Some|done|].
    unfold encodedObject in Heo.
    apply list_elem_of_lookup in Hk as [n Hn].
    destruct (Forall2_lookup_l _ _ _ _ _ Heo Hn) as ([k' fv] & _ & _ & Hv).
    simpl in Hv. destruct fv; [done|].
    by eapply list_elem_of_lookup_2.
Qed.

Lemma slotOf_lookup order i a :
  NoDup order → order !! i = Some a → slotOf order a = i.
Proof.
  intros Hnd Hi. unfold slotOf. by rewrite (indexOf_NoDup a order i).
Qed.

Lemma decodeValue_encoded order h v fv :
  NoDup order →
  (∀ j, is_Some (h !! j) ↔ j < length order) →
  encodedValue order v fv →
  decodeValue h fv = Some (mapRef (slotOf order) v).
Proof.
  intros Hnd Hdom. destruct v as [p|a], fv as [q|j]; simpl; try done.
  - by intros ->.
  - intros Hj.
    assert (is_Some (h !! j)) as [o Ho].
    { apply Hdom. by eapply lookup_lt_Some. }
    rewrite Ho. by rewrite (slotOf_lookup order j a).
Qed.

Lemma decodeFields_encoded order h o fo :
  NoDup order →
  (∀ j, is_Some (h !! j) ↔ j < length order) →
  encodedObject order o fo →
  decodeFields h fo = Some (mapObject (slotOf order) o).
Proof.
  intros Hnd Hdom Henc. unfold decodeFields, mapObject.
  induction Henc as [|[k v] [k' fv] o fo [Hk Hv] _ IH]; [done|].
  simpl in *. subst k'.
  rewrite (decodeValue_encoded order h v fv) by done.
  simpl. by rewrite IH.
Qed.

Lemma shells_lookup n j : is_Some (shells n !! j) ↔ j < n.
Proof.
  unfold shells. rewrite lookup_map_seq_0. split.
  - intros [x Hx]. by apply lookup_replicate in Hx as [_ ?].
  - intros Hj. exists []. by apply lookup_replicate.
Qed.

Lemma patchAll_spec n (f : flatted) : ∀ (h : gmap addr JsObject) i (objs : list JsObject),
  (∀ j, is_Some (h !! j) ↔ j < n) →
  i + length f ≤ n →
  Forall2 (λ fo o, ∀ h' : gmap addr JsObject,
             (∀ j, is_Some (h' !! j) ↔ j < n) → decodeFields h' fo = Some o) f objs →
  ∃ h', patchAll h i f = Some h' ∧
        (∀ j, is_Some (h' !! j) ↔ j < n) ∧
        (∀ k o, objs !! k = Some o → h' !! (i + k) = Some o) ∧
        (∀ j, j < i → h' !! j = h !! j).
Proof.
  induction f as [|fo f IH]; intros h i objs Hdom Hlen Hall.
  - apply Forall2_nil_inv_l in Hall as ->. exists h.
    repeat split; try done; apply Hdom.
  - apply Forall2_cons_inv_l in Hall as (o & objs' & Ho & Hall & ->).
    simpl in *. rewrite (Ho h Hdom). simpl.
    assert (∀ j, is_Some (<[i:=o]> h !! j) ↔ j < n) as Hdom'.
    { intros j. destruct (decide (i = j)) as [<-|Hne].
      - rewrite lookup_insert_eq. split; [lia|eauto].
      - by rewrite lookup_insert_ne. }
    destruct (IH (<[i:=o]> h) (S i) objs' Hdom' ltac:(lia) Hall)
      as (h' & Hp & Hdom'' & Hobjs & Hkeep).
    exists h'. repeat split; [done|apply Hdom''|apply Hdom''| |].
    + intros [|k] o' Hk; simpl in Hk.
      * injection Hk as <-. rewrite Nat.add_0_r.
        rewrite Hkeep by lia. apply lookup_insert_eq.
      * replace (i + S k) with (S i + k) by lia. by apply Hobjs.
    + intros j Hj. rewrite Hkeep by lia. apply lookup_insert_ne. lia.
Qed.

Lemma parse_encoded g order out :
  encoded g order (length order) out →
  ∃ g', parse out = Some g' ∧ sameGraph (slotOf order) g g'.
Proof.
  intros Henc.
  pose proof (enc_nodup _ _ _ _ Henc) as Hnd.
  pose proof (enc_len _ _ _ _ Henc) as Hlen.
  pose proof (enc_root _ _ _ _ Henc) as Hroot.
  set (objs := (λ a, mapObject (slotOf order) (fieldsOf (heap g) a)) <$> order).
  destruct (patchAll_spec (length order) out (shells (length out)) 0 objs)
    as (h' & Hp & Hdom & Hobjs & _).
  { intros j. rewrite Hlen. apply shells_lookup. }
  { lia. }
  { apply Forall2_same_length_lookup_2.
    - unfold objs. by rewrite length_fmap.
    - intros k fo o Hfo Ho h Hh. unfold objs in Ho.
      apply list_lookup_fmap_Some in Ho as (a & -> & Ha).
      destruct (enc_done _ _ _ _ Henc k a) as (fo' & Hfo' & Heo);
        [by eapply lookup_lt_Some|done|].
      assert (fo' = fo) as -> by congruence.
      by apply decodeFields_encoded. }
  exists (mkGraph h' 0). split.
  - unfold parse. destruct out as [|fo out]; [|by rewrite Hp].
    apply lookup_lt_Some in Hroot. simpl in Hlen. lia.
  - split; simpl.
    + by apply slotOf_lookup.
    + intros a Ha.
      apply (encoded_complete _ _ _ _ Henc), list_elem_of_lookup in Ha as [k Hk].
      rewrite (slotOf_lookup order k a) by done.
      apply (Hobjs k). unfold objs. by rewrite list_lookup_fmap, Hk.
    + intros a b Ha Hb Hab.
      apply (encoded_complete _ _ _ _ Henc), list_elem_of_lookup in Ha as [ka Hka].
      apply (encoded_complete _ _ _ _ Henc), list_elem_of_lookup in Hb as [kb Hkb].
      rewrite (slotOf_lookup order ka a), (slotOf_lookup order kb b) in Hab by done.
      congruence.
    + intros a' Ha'. apply Hdom, lookup_lt_is_Some in Ha' as [a Ha].
      exists a. split; [|by apply slotOf_lookup].
      apply Henc. by eapply list_elem_of_lookup_2.
Qed.

Lemma wellFormed_reachable g a :
  wellFormed g → reachable g a → is_Some (heap g !! a).
Proof.
  intros [Hroot Hall] Hr. induction Hr as [|a k b Hr IH Hk]; [done|].
  destruct IH as [o Ho]. unfold fieldsOf in Hk. rewrite Ho in Hk. simpl in Hk.
  specialize (Hall a o Ho). rewrite Forall_forall in Hall.
  apply (Hall _ Hk).
Qed.

Lemma wellFormed_closed g : wellFormed g → closed g.
Proof. intros Hwf a Ha. by apply wellFormed_reachable. Qed.

(** C9: encoding any run-data graph and decoding the result succeeds and
    yields the same graph up to a renaming of object identities that is
    one-to-one on the objects of the graph: references to one object stay
    references to one object, distinct objects stay distinct, cycles
    included, and the decoded heap holds nothing else. *)
Theorem stringify_parse_roundtrip g :
  closed g →
  ∃ g' φ, parse (stringify g) = Some g' ∧ sameGraph φ g g'.
Proof.
  intros Hcl.
  destruct (stringify_encoded g Hcl) as [order Henc].
  destruct (parse_encoded g order _ Henc) as (g' & Hp & Hsame).
  by exists g', (slotOf order).
Qed.

Lemma stringify_parse_roundtrip_witness :
  closed cyclic ∧ ∃ g' φ, parse (stringify cyclic) = Some g' ∧ sameGraph φ cyclic g'.
Proof.
  assert (closed cyclic) as Hcl.
  { apply wellFormed_closed. apply (bool_decide_unpack (wellFormed cyclic)).
    vm_compute. exact I. }
  split; [exact Hcl|]. apply (stringify_parse_roundtrip cyclic Hcl).
Defined.

(** The cycle and the shared object of the sample, after the round trip:
    slots 0 and 1 point at each other and both point at slot 2. *)
Lemma cyclic_roundtrip :
  parse (stringify cyclic)
  = Some (mkGraph (list_to_map
       [ (0, [("next", JRef 1); ("err", JRef 2)]);
         (1, [("next", JRef 0); ("err", JRef 2)]);
         (2, [("message", JPrim (PStr "boom"))]) ]) 0).
Proof. vm_compute. reflexivity. Qed.

(** Whatever [parse] returns is well formed. *)
Lemma decodeFields_refBelow n (h : gmap addr JsObject) fo o :
  (∀ j, is_Some (h !! j) ↔ j < n) →
  decodeFields h fo = Some o → Forall (λ kv, refBelow n kv.2) o.
Proof.
  intros Hdom Hdec. unfold decodeFields in Hdec.
  apply mapM_Some_1 in Hdec.
  induction Hdec as [|[k fv] [k' v] fo o Hv _ IH]; [constructor|].
  constructor; [|done]. simpl in *.
  destruct fv as [p|j]; simpl in Hv.
  - by injection Hv as _ <-.
  - destruct (h !! j) as [x|] eqn:Hj; [|done].
    injection Hv as _ <-. simpl. apply Hdom. by eexists.
Qed.

Lemma patchAll_refBelow n (f : flatted) : ∀ (h : gmap addr JsObject) i h',
  (∀ j, is_Some (h !! j) ↔ j < n) →
  i + length f ≤ n →
  map_Forall (λ _ o, Forall (λ kv, refBelow n kv.2) o) h →
  patchAll h i f = Some h' →
  (∀ j, is_Some (h' !! j) ↔ j < n)
  ∧ map_Forall (λ _ o, Forall (λ kv, refBelow n kv.2) o) h'.
Proof.
  induction f as [|fo f IH]; intros h i h' Hdom Hlen Hall Hp; simpl in *.
  - by injection Hp as <-.
  - destruct (decodeFields h fo) as [o|] eqn:Ho; [|done]. simpl in Hp.
    apply (IH (<[i:=o]> h) (S i) h'); [|lia| |done].
    + intros j. destruct (decide (i = j)) as [<-|Hne].
      * rewrite lookup_insert_eq. split; [lia|eauto].
      * by rewrite lookup_insert_ne.
    + apply map_Forall_insert_2; [|done]. by eapply decodeFields_refBelow.
Qed.

Lemma parse_wellFormed f g : parse f = Some g → wellFormed g.
Proof.
  unfold parse. destruct f as [|fo f]; [done|].
  destruct (patchAll _ _ _) as [h|] eqn:Hp; [|done].
  intros [= <-]; simpl.
  apply (patchAll_refBelow (length (fo :: f))) in Hp as [Hdom Hall].
  - split; simpl.
    + apply Hdom. simpl. lia.
    + intros a o Ho. specialize (Hall a o Ho). simpl in Hall.
      eapply Forall_impl; [exact Hall|].
      intros [k [p|b]]; simpl; [done|]. intros Hb. by apply Hdom.
  - apply shells_lookup.
  - simpl. lia.
  - intros a o Ho. unfold shells in Ho. rewrite lookup_map_seq_0 in Ho.
    apply lookup_replicate in Ho as [-> _]. constructor.
Qed.

End FlattedFacts.

(** ** Facts about the monad and the object-relational layer *)

Section RuntimeFacts.

Lemma bind_ok {A B} (m : M A) (k : A → M B) w a w' :
  m w = (Ok a, w') → bind m k w = k a w'.
Proof. unfold bind. by intros ->. Qed.

Lemma bind_throw {A B} (m : M A) (k : A → M B) w e w' :
  m w = (Throw e, w') → bind m k w = (Throw e, w').
Proof. unfold bind. by intros ->. Qed.

Lemma withDb_id w : withDb (db w) w = w.
Proof. by destruct w. Qed.

Lemma withFaults_id w : withFaults (faults w) w = w.
Proof. by destruct w. Qed.

(** A call the environment does not reject. *)
Lemma fallible_ok e w :
  head (faults w) ≠ Some true →
  fallible e w = (Ok tt, withFaults (tail (faults w)) w).
Proof.
  unfold fallible. destruct (faults w) as [|[|] rest] eqn:Hf; simpl; try done.
  intros _. by rewrite <- Hf, withFaults_id.
Qed.

Lemma fallible_rejected e w rest :
  faults w = true :: rest → fallible e w = (Throw e, withFaults rest w).
Proof. unfold fallible. by intros ->. Qed.

Lemma NoDup_rows d : NoDup (rows d).
Proof.
  unfold rows. apply NoDup_fmap_2_strong; [|apply NoDup_map_to_list].
  intros [k1 c1] [k2 c2] _ _; simpl. by intros [= -> ->].
Qed.

Lemma elem_of_rows d e :
  e ∈ rows d ↔ executions d !! id e = Some (columns e).
Proof.
  unfold rows. rewrite list_elem_of_fmap. split.
  - intros ([k c] & -> & Hkc). simpl. by apply elem_of_map_to_list.
  - intros He. exists (id e, columns e). split; [by destruct e|].
    by apply elem_of_map_to_list.
Qed.

Lemma NoDup_only {A} (l : list A) x :
  NoDup l → (∀ y, y ∈ l ↔ y = x) → l = [x].
Proof.
  intros Hnd Hl. destruct l as [|a l].
  - assert (x ∈ @nil A) as Hx by by apply Hl. by apply elem_of_nil in Hx.
  - assert (a = x) as ->. { apply Hl. by left. }
    destruct l as [|b l]; [done|].
    assert (b = x) as ->. { apply Hl. right. by left. }
    apply NoDup_cons in Hnd as [Hnd _]. destruct Hnd. by left.
Qed.

(** Looking an execution up by its id alone. *)
Lemma findRows_by_id sel rels d i :
  findRows (mkFind sel (mkWhere (Some i) None None) false rels) d
  = match executions d !! i with
    | Some c => [mkExecution i c]
    | None => []
    end.
Proof.
  unfold findRows; simpl.
  destruct (executions d !! i) as [c|] eqn:Hi.
  - apply NoDup_only; [apply NoDup_filter, NoDup_rows|].
    intros e. rewrite list_elem_of_filter, elem_of_rows.
    unfold matchesWhere; simpl. rewrite !andb_true_r, bool_decide_spec.
    split.
    + intros [<- He]. destruct e as [k c']; simpl in *. congruence.
    + intros ->. by simpl.
  - apply elem_of_nil_inv. intros e.
    rewrite list_elem_of_filter, elem_of_rows.
    unfold matchesWhere; simpl. rewrite !andb_true_r, bool_decide_spec.
    intros [<- He]. congruence.
Qed.

End RuntimeFacts.

(** ** [findSingleExecution] *)

Section FindSingle.

Lemma findOne_by_id rels w i :
  findOne (mkFindOne (mkWhere (Some i) None None) rels) w
  = (Ok ((λ c, load (db w) rels (mkExecution i c)) <$> executions (db w) !! i), w).
Proof.
  unfold findOne, gets. simpl. rewrite findRows_by_id.
  by destruct (executions (db w) !! i).
Qed.

Lemma findSingleExecution_unknown i o w :
  extraWhere o = None →
  executions (db w) !! i = None →
  findSingleExecution i o w = (Ok None, w).
Proof.
  intros Ho Hi. unfold findSingleExecution. rewrite Ho. simpl.
  erewrite bind_ok; [|apply findOne_by_id]. by rewrite Hi.
Qed.

Lemma findSingleExecution_found i o w c :
  extraWhere o = None →
  executions (db w) !! i = Some c →
  findSingleExecution i o w
  = bind (toResult o
            (load (db w)
               (if includeData o || includeWorkflowData o
                then ["executionData"] else [])
               (mkExecution i c)))
         (λ r, ret (Some r)) w.
Proof.
  intros Ho Hi. unfold findSingleExecution. rewrite Ho. simpl.
  erewrite bind_ok; [|apply findOne_by_id]. by rewrite Hi.
Qed.

(** With the data asked for and decoded. *)
Lemma findSingleExecution_full i w c row g :
  executions (db w) !! i = Some c →
  executionData (db w) !! i = Some row →
  parse (data row) = Some g →
  findSingleExecution i (mkOptions true true true None) w
  = (Ok (Some (inr (mkResponse i g (workflowData row) c))), w).
Proof.
  intros Hi Hrow Hg. rewrite (findSingleExecution_found i _ w c) by done.
  unfold toResult, load, bind, deref, parseData, ret; simpl.
  by rewrite Hrow, Hg.
Qed.

(** An unknown id yields [undefined] (not found), whatever is asked for. *)
Lemma getExecution_unknown_id i w includeD includeW unflatten :
  executions (db w) !! i = None →
  findSingleExecution i (mkOptions includeD includeW unflatten None) w = (Ok None, w).
Proof. intros Hi. by apply findSingleExecution_unknown. Qed.

(** C6: for a stored execution, [findSingleExecution] called without
    [includeData] and [includeWorkflowData] does not return the record: it
    reads [execution.executionData.data] although the relation was not
    loaded, and throws a [TypeError]. *)
Theorem getExecution_without_data_throws i w c :
  executions (db w) !! i = Some c →
  findSingleExecution i noOptions w = (Throw TypeError, w).
Proof.
  intros Hi. by rewrite (findSingleExecution_found i _ w c).
Qed.

Lemma getExecution_without_data_throws_witness :
  executions (db (worldOf (storeWith (columnsWith waiting (Some 5000%Z))) [])) !! "1"
    = Some (columnsWith waiting (Some 5000%Z))
  ∧ findSingleExecution "1" noOptions
      (worldOf (storeWith (columnsWith waiting (Some 5000%Z))) [])
    = (Throw TypeError, worldOf (storeWith (columnsWith waiting (Some 5000%Z))) []).
Proof.
  split; [reflexivity|].
  apply (getExecution_without_data_throws _ _ (columnsWith waiting (Some 5000%Z))).
  reflexivity.
Defined.

End FindSingle.

(** ** [updateExistingExecution] *)

Section Update.

Lemma withDb_same w f d :
  d = db w → withDb d (withFaults f w) = withFaults f w.
Proof. intros ->. by destruct w. Qed.

Lemma mkDatabase_eta d :
  mkDatabase (executions d) (executionData d) (executionMetadata d) (nextId d) = d.
Proof. by destruct d. Qed.

(** What a fallible call does to the world. *)
Lemma fallible_eq e w :
  fallible e w
  = (if bool_decide (head (faults w) = Some true) then Throw e else Ok tt,
     withFaults (tail (faults w)) w).
Proof.
  unfold fallible. destruct (faults w) as [|[|] rest] eqn:Hf; simpl; try done.
  by rewrite <- Hf, withFaults_id.
Qed.

Lemma updateExecution_absent i p w :
  executions (db w) !! i = None →
  updateExecution i p w = fallible QueryFailedError w.
Proof.
  intros Hi. unfold updateExecution, bind. rewrite fallible_eq.
  case_bool_decide; [done|].
  unfold gets, modify; simpl.
  rewrite alter_id by (intros c Hc; congruence).
  by rewrite mkDatabase_eta, withDb_same.
Qed.

Lemma updateExecutionData_absent i wd dt w :
  executionData (db w) !! i = None →
  updateExecutionData i wd dt w = fallible QueryFailedError w.
Proof.
  intros Hi. unfold updateExecutionData, bind. rewrite fallible_eq.
  case_bool_decide; [done|].
  unfold gets, modify; simpl.
  rewrite alter_id by (intros c Hc; congruence).
  by rewrite mkDatabase_eta, withDb_same.
Qed.

Lemma withFaults_withFaults f f' w :
  withFaults f (withFaults f' w) = withFaults f w.
Proof. done. Qed.

Lemma owned_absent d i :
  owned d → executions d !! i = None → executionData d !! i = None.
Proof.
  intros Ho Hi. apply eq_None_not_Some. intros Hd.
  apply Ho in Hd as [c Hc]. congruence.
Qed.

(** C7 (as amended): updating an id that is not in the store changes no
    record and does not report the missing id: the call succeeds, unless
    the database rejects one of its statements. *)
Theorem updateExecution_unknown_id i p w :
  executions (db w) !! i = None →
  owned (db w) →
  ∃ r f, updateExistingExecution i p w = (r, withFaults f w)
         ∧ (r = Ok tt ∨ r = Throw QueryFailedError)
         ∧ (Forall (λ b, b = false) (faults w) → r = Ok tt).
Proof.
  intros Hi Ho. pose proof (owned_absent _ _ Ho Hi) as Hd.
  assert (∀ l : list bool, Forall (λ b, b = false) l → head l ≠ Some true) as Hhead.
  { intros l Hl Hh%head_Some_elem_of.
    rewrite Forall_forall in Hl. by apply Hl in Hh. }
  assert (∀ l : list bool, Forall (λ b, b = false) l → Forall (λ b, b = false) (tail l))
    as Htail.
  { intros [|b l] Hl; [done|]. by apply Forall_cons in Hl as [_ ?]. }
  unfold updateExistingExecution, transaction, bind.
  destruct (hasKeys (p_columns p)).
  - rewrite (updateExecution_absent i _ w Hi), fallible_eq.
    case_bool_decide as H1.
    { eexists _, _. split; [by rewrite withDb_same|].
      split; [by right|]. intros Hf. by apply Hhead in Hf. }
    destruct (bool_decide (is_Some (p_data p)) || bool_decide (is_Some (p_workflowData p))).
    + rewrite updateExecutionData_absent by done. rewrite fallible_eq.
      simpl. rewrite withFaults_withFaults.
      case_bool_decide as H2.
      * eexists _, _. split; [by rewrite withDb_same|].
        split; [by right|]. intros Hf. by apply Htail, Hhead in Hf.
      * eexists _, _. split; [done|]. split; [by left|done].
    + unfold ret. eexists _, _. split; [done|]. split; [by left|done].
  - unfold ret at 1.
    destruct (bool_decide (is_Some (p_data p)) || bool_decide (is_Some (p_workflowData p))).
    + rewrite updateExecutionData_absent by done. rewrite fallible_eq.
      case_bool_decide as H2.
      * eexists _, _. split; [by rewrite withDb_same|].
        split; [by right|]. intros Hf. by apply Hhead in Hf.
      * eexists _, _. split; [done|]. split; [by left|done].
    + unfold ret. exists (Ok tt), (faults w).
      split; [by rewrite withFaults_id|]. split; [by left|done].
Qed.

Lemma owned_storeWith c : owned (storeWith c).
Proof.
  intros i [row Hrow]. simpl in *.
  apply lookup_singleton_Some in Hrow as [<- _].
  rewrite lookup_singleton_eq. by eexists.
Qed.

Lemma updateExecution_unknown_id_witness :
  executions (db (worldOf (storeWith (columnsWith waiting (Some 5000%Z))) [])) !! "404" = None
  ∧ owned (db (worldOf (storeWith (columnsWith waiting (Some 5000%Z))) []))
  ∧ ∃ r f,
      updateExistingExecution "404" cancelUpdate
        (worldOf (storeWith (columnsWith waiting (Some 5000%Z))) [])
      = (r, withFaults f (worldOf (storeWith (columnsWith waiting (Some 5000%Z))) []))
      ∧ (r = Ok tt ∨ r = Throw QueryFailedError)
      ∧ (Forall (λ b, b = false)
           (faults (worldOf (storeWith (columnsWith waiting (Some 5000%Z))) []))
         → r = Ok tt).
Proof.
  split; [reflexivity|]. split; [apply owned_storeWith|].
  apply updateExecution_unknown_id; [reflexivity|apply owned_storeWith].
Defined.

(** C7 as stated fails: the update of an id that is not in the store
    succeeds; no not-found error is raised. *)
Lemma updateExecution_unknown_id_succeeds :
  executions (db (worldOf (storeWith (columnsWith waiting (Some 5000%Z))) [])) !! "404" = None
  ∧ updateExistingExecution "404" cancelUpdate
      (worldOf (storeWith (columnsWith waiting (Some 5000%Z))) [])
    = (Ok tt, worldOf (storeWith (columnsWith waiting (Some 5000%Z))) []).
Proof. split; vm_compute; reflexivity. Qed.

End Update.

(** ** [createNewExecution] *)

Section Create.

Lemma unusedFrom_spec fuel : ∀ n m,
  n ≤ unusedFrom fuel n m
  ∧ (∀ j, n ≤ j < unusedFrom fuel n m → is_Some (m !! pretty j))
  ∧ (m !! pretty (unusedFrom fuel n m) = None ∨ unusedFrom fuel n m = n + fuel).
Proof.
  induction fuel as [|fuel IH]; intros n m; simpl.
  - split_and!; [lia|intros j ?; lia|right; lia].
  - case_bool_decide as Hn.
    + destruct (IH (S n) m) as (Hle & Hused & Hend). split_and!; [lia| |].
      * intros j Hj. destruct (decide (j = n)) as [->|Hne]; [done|].
        apply Hused. lia.
      * destruct Hend as [?|Hend]; [by left|right; lia].
    + split_and!; [lia|intros j ?; lia|left].
      by apply eq_None_not_Some.
Qed.

(** A generated id is not in use: a generated id never overwrites a stored
    execution. *)
Lemma generatedKey_unused d : executions d !! pretty (generatedKey d) = None.
Proof.
  unfold generatedKey.
  destruct (unusedFrom_spec (size (executions d)) (nextId d) (executions d))
    as (Hle & Hused & [Hnone|Hend]); [done|].
  apply eq_None_not_Some. intros Hk.
  set (l := pretty <$> seq (nextId d) (S (size (executions d)))).
  assert (NoDup l) as Hnd by (apply (NoDup_fmap_2 _), NoDup_seq).
  assert (list_to_set (C := gset string) l ⊆ dom (executions d)) as Hsub.
  { intros k Hin. apply elem_of_list_to_set, list_elem_of_fmap in Hin as (j & -> & Hj).
    apply elem_of_seq in Hj. apply elem_of_dom.
    destruct (decide (j = nextId d + size (executions d))) as [->|Hne].
    - by rewrite <- Hend.
    - apply Hused. lia. }
  apply subseteq_size in Hsub.
  rewrite size_list_to_set, size_dom in Hsub by done.
  unfold l in Hsub. rewrite length_fmap, length_seq in Hsub. lia.
Qed.

Lemma generatedId_unused x w :
  new_id x = None → executions (db w) !! generatedId x w = None.
Proof. unfold generatedId. intros ->. apply generatedKey_unused. Qed.

Lemma saveExecution_eq i c w :
  saveExecution i c w
  = if bool_decide (head (faults w) = Some true)
    then (Throw QueryFailedError, withFaults (tail (faults w)) w)
    else (Ok (mkExecution (default (pretty (generatedKey (db w))) i) c),
          withDb (mkDatabase
                    (<[default (pretty (generatedKey (db w))) i := c]> (executions (db w)))
                    (executionData (db w)) (executionMetadata (db w))
                    (if i is Some _ then nextId (db w) else S (generatedKey (db w))))
                 (withFaults (tail (faults w)) w)).
Proof.
  unfold saveExecution, bind. rewrite fallible_eq.
  case_bool_decide; [done|]. by destruct i.
Qed.

Lemma saveExecutionData_eq e row w :
  saveExecutionData e row w
  = if bool_decide (head (faults w) = Some true)
    then (Throw QueryFailedError, withFaults (tail (faults w)) w)
    else (Ok tt,
          withDb (mkDatabase (executions (db w))
                    (<[id e := row]> (executionData (db w)))
                    (executionMetadata (db w)) (nextId (db w)))
                 (withFaults (tail (faults w)) w)).
Proof.
  unfold saveExecutionData, bind. rewrite fallible_eq.
  by case_bool_decide.
Qed.

(** Both inserts accepted: the record and its data record exist. *)
Lemma createNewExecution_ok x w :
  faults w !! 0 ≠ Some true →
  faults w !! 1 ≠ Some true →
  ∃ w', createNewExecution x w = (Ok (mkExecution (generatedId x w) (new_columns x)), w')
        ∧ executions (db w') !! generatedId x w = Some (new_columns x)
        ∧ executionData (db w') !! generatedId x w
          = Some (mkExecutionData (stringify (new_data x)) (new_workflowData x)).
Proof.
  intros H0 H1. unfold createNewExecution, bind.
  rewrite saveExecution_eq.
  rewrite bool_decide_false by (by destruct (faults w)).
  rewrite saveExecutionData_eq. simpl.
  rewrite bool_decide_false by (by destruct (faults w) as [|? [|? ?]]).
  eexists. split; [done|]. simpl. unfold generatedId.
  by rewrite !lookup_insert_eq.
Qed.

(** First insert rejected: nothing is written. *)
Lemma createNewExecution_first_rejected x w rest :
  faults w = true :: rest →
  createNewExecution x w = (Throw QueryFailedError, withFaults rest w).
Proof.
  intros Hf. unfold createNewExecution, bind.
  rewrite saveExecution_eq, Hf. by simpl.
Qed.

(** Second insert rejected: the record stays, without a data record. *)
Lemma createNewExecution_second_rejected x w rest :
  faults w = false :: true :: rest →
  ∃ w', createNewExecution x w = (Throw QueryFailedError, w')
        ∧ executions (db w') !! generatedId x w = Some (new_columns x)
        ∧ executionData (db w') = executionData (db w).
Proof.
  intros Hf. unfold createNewExecution, bind.
  rewrite saveExecution_eq, Hf.
  rewrite bool_decide_false by done.
  rewrite saveExecutionData_eq. simpl.
  eexists. split; [done|]. simpl. unfold generatedId.
  by rewrite lookup_insert_eq.
Qed.

(** C2: [createNewExecution] is not atomic. When the database accepts the
    insert of the execution record and rejects the insert of the data
    record, the call fails and leaves the execution record [1] behind
    without a data record. *)
Theorem createExecution_leaves_record_without_data :
  ∃ w', createNewExecution newExecution (worldOf emptyDb [false; true])
        = (Throw QueryFailedError, w')
        ∧ executions (db w') !! "1" = Some (columnsWith running None)
        ∧ executionData (db w') !! "1" = None.
Proof.
  destruct (createNewExecution_second_rejected newExecution
              (worldOf emptyDb [false; true]) []) as (w' & Hc & He & Hd); [done|].
  exists w'. split; [done|]. split; [exact He|]. by rewrite Hd.
Qed.

End Create.

(** ** [deleteExecution] and [deleteExecutions] *)

Section Delete.

Lemma deleteBinaryData_eq i w :
  deleteBinaryDataByExecutionId i w
  = if bool_decide (head (faults w) = Some true)
    then (Throw BinaryDataError, withFaults (tail (faults w)) w)
    else (Ok tt, withBinaryDeleted (binaryDeleted w ++ [i])
                   (withFaults (tail (faults w)) w)).
Proof.
  unfold deleteBinaryDataByExecutionId, bind. rewrite fallible_eq.
  by case_bool_decide.
Qed.

(** The cleanup is requested first; when it and the deletion are accepted,
    the record, its data record and its metadata entries are gone. *)
Lemma deleteExecution_ok i w :
  faults w !! 0 ≠ Some true →
  faults w !! 1 ≠ Some true →
  ∃ w', deleteExecution i w = (Ok tt, w')
        ∧ binaryDeleted w' = binaryDeleted w ++ [i]
        ∧ executions (db w') = delete i (executions (db w))
        ∧ executionData (db w') = delete i (executionData (db w))
        ∧ executionMetadata (db w')
          = filter (λ md, md_executionId md ≠ i) (executionMetadata (db w)).
Proof.
  intros H0 H1. unfold deleteExecution, bind.
  rewrite deleteBinaryData_eq.
  rewrite bool_decide_false by (by destruct (faults w)).
  unfold deleteExecutionRow, bind. rewrite fallible_eq. simpl.
  rewrite bool_decide_false by (by destruct (faults w) as [|? [|? ?]]).
  by eexists.
Qed.

(** A rejected cleanup ends the call: the exception is passed on and the
    rows are not deleted. *)
Lemma deleteExecution_cleanup_rejected i w rest :
  faults w = true :: rest →
  deleteExecution i w = (Throw BinaryDataError, withFaults rest w).
Proof.
  intros Hf. unfold deleteExecution, bind.
  rewrite deleteBinaryData_eq, Hf. by simpl.
Qed.

(** C8: when the binary cleanup for execution [1] fails, [deleteExecution]
    throws and the record, the data record and the metadata entry of [1]
    stay in the store. *)
Theorem deleteExecution_cleanup_failure_keeps_rows :
  deleteExecution "1" (worldOf (storeWith (columnsWith success None)) [true])
  = (Throw BinaryDataError, worldOf (storeWith (columnsWith success None)) [])
  ∧ is_Some (executions (storeWith (columnsWith success None)) !! "1").
Proof.
  split; [by apply deleteExecution_cleanup_rejected|].
  by eexists.
Qed.

(** [deleteExecutions] never changes the world. *)
Lemma deleteExecutions_world filters accessible conds w :
  (deleteExecutions filters accessible conds w).2 = w.
Proof.
  unfold deleteExecutions.
  by destruct (deleteBefore conds), (ids conds).
Qed.

Lemma deleteExecutions_missing_conditions filters accessible w :
  deleteExecutions filters accessible (mkDeleteConditions None None) w
  = (Throw DeleteConditionsMissing, w).
Proof. done. Qed.

(** With [deleteBefore] the query builder rejects the condition on
    [startedAt]: the call throws before any query, whatever the filters
    and the ids. *)
Lemma deleteExecutions_by_date_rejected filters accessible t l w :
  deleteExecutions filters accessible (mkDeleteConditions (Some t) l) w
  = (Throw TypeORMError, w).
Proof. done. Qed.

(** C1: [deleteExecutions] with [ids = [1]], the workflow of execution [1]
    being accessible, returns without deleting anything: the record, the
    data record and the metadata entry of [1] are still stored and no
    binary cleanup was requested. *)
Theorem deleteExecutions_by_id_deletes_nothing :
  deleteExecutions None ["wf1"] (mkDeleteConditions None (Some ["1"]))
    (worldOf (storeWith (columnsWith success None)) [])
  = (Ok tt, worldOf (storeWith (columnsWith success None)) [])
  ∧ is_Some (executions (storeWith (columnsWith success None)) !! "1")
  ∧ is_Some (executionData (storeWith (columnsWith success None)) !! "1")
  ∧ executionMetadata (storeWith (columnsWith success None)) ≠ []
  ∧ binaryDeleted (worldOf (storeWith (columnsWith success None)) []) = [].
Proof.
  split; [done|]. repeat split; try done; by eexists.
Qed.

End Delete.

(** ** [stopExecution] *)

Section Stop.

Lemma disarmed_db i w : db (disarmed i w) = db w.
Proof. unfold disarmed. by destruct (waitingExecutions w !! i). Qed.

Lemma stopExecution_unfold i w :
  stopExecution i w =
  bind (findSingleExecution i (mkOptions true true true None))
   (λ found,
    match found with
    | None => throw (ExecutionNotFound i)
    | Some execution =>
        match waitTill (resultColumns execution) with
        | None => throw (ExecutionNotFound i)
        | Some _ =>
            match execution with
            | inl _ => throw TypeError
            | inr execution =>
                let* data' := attachError (res_data execution) in
                let* now := Date_now in
                let c := res_columns execution in
                let stopped :=
                  mkResponse (res_id execution) data' (res_workflowData execution)
                    (mkColumns (finished c) (mode c) (retryOf c) (retrySuccessId c)
                               canceled (startedAt c) (Some now) (workflowId c) None) in
                let* _ := persistExecution i stopped in
                ret (mkStopData (mode c) (startedAt c) (Some now) (finished c) canceled)
            end
        end
    end) (disarmed i w).
Proof.
  unfold stopExecution, disarmed. unfold bind at 1. unfold gets at 1. unfold bind at 1.
  destruct (waitingExecutions w !! i) as [entry|]; reflexivity.
Qed.

(** C4 (as amended): when the record of an execution is absent or has no
    [waitTill], [stopExecution] throws and the store is left as it was: no
    status, [waitTill], [stoppedAt] or data is written. The error is the
    not-found error exactly when the execution, if it exists, has its data
    record and the payload decodes (the 1:1 rule of the data model);
    otherwise the error of the read is thrown. *)
Theorem stopExecution_without_waitTill i w :
  executions (db w) !! i ≫= waitTill = None →
  ∃ e w', stopExecution i w = (Throw e, w')
          ∧ db w' = db w
          ∧ (e = ExecutionNotFound i ↔ decodable (db w) i).
Proof.
  intros Hnone. rewrite stopExecution_unfold.
  pose proof (disarmed_db i w) as Hdb.
  destruct (executions (db w) !! i) as [c|] eqn:Hi; simpl in Hnone.
  - unfold bind. rewrite (findSingleExecution_found i _ _ c) by (done || by rewrite Hdb).
    unfold toResult, load, bind, deref, parseData; simpl. rewrite Hdb.
    destruct (executionData (db w) !! i) as [row|] eqn:Hrow.
    + simpl. destruct (parse (data row)) as [g|] eqn:Hg; simpl.
      * rewrite Hnone. eexists _, _. split; [done|]. split; [done|].
        split; [|done]. intros _ _. by exists row, g.
      * eexists _, _. split; [done|]. split; [done|]. split; [done|].
        intros Hdec. destruct Hdec as (row' & g' & Hrow' & Hg'); [by eexists|].
        congruence.
    + eexists _, _. split; [done|]. split; [done|]. split; [done|].
      intros Hdec. destruct Hdec as (row' & g' & Hrow' & Hg'); [by eexists|].
      congruence.
  - unfold bind. rewrite findSingleExecution_unknown by (done || by rewrite Hdb).
    eexists _, _. split; [done|]. split; [done|]. split; [|done].
    intros _ [c Hc]. congruence.
Qed.

Lemma getProperty_elem k o v : getProperty k o = Some v → (k, v) ∈ o.
Proof.
  induction o as [|[k' v'] o IH]; simpl; [done|].
  case_decide as Hk.
  - intros [= ->]. subst. by left.
  - intros H. right. by apply IH.
Qed.

Lemma getProperty_setProperty_eq k v o : getProperty k (setProperty k v o) = Some v.
Proof.
  induction o as [|[k' v'] o IH]; simpl.
  - by rewrite decide_True.
  - case_decide as Hk; simpl; [by rewrite decide_True|].
    by rewrite decide_False.
Qed.

Lemma getProperty_setProperty_ne k k' v o :
  k ≠ k' → getProperty k' (setProperty k v o) = getProperty k' o.
Proof.
  intros Hne. induction o as [|[k'' v''] o IH]; simpl.
  - by rewrite decide_False.
  - case_decide as Hk; simpl.
    + subst. by rewrite !decide_False.
    + case_decide; [done|]. apply IH.
Qed.

Lemma elem_of_setProperty k v o kv :
  kv ∈ setProperty k v o → kv = (k, v) ∨ kv ∈ o.
Proof.
  induction o as [|[k' v'] o IH]; simpl.
  - intros ->%list_elem_of_singleton. by left.
  - case_decide as Hk.
    + intros [->|H]%elem_of_cons; [by left|]. right. by right.
    + intros [->|H]%elem_of_cons; [right; by left|].
      destruct (IH H) as [->|H']; [by left|]. right. by right.
Qed.

Lemma getProperty_mapObject φ k o :
  getProperty k (mapObject φ o) = mapRef φ <$> getProperty k o.
Proof.
  unfold mapObject. induction o as [|[k' v'] o IH]; simpl; [done|].
  by case_decide.
Qed.

Lemma attachError_ok g top r rd w :
  heap g !! root g = Some top →
  getProperty "resultData" top = Some (JRef r) →
  heap g !! r = Some rd →
  attachError g w = (Ok (withError g (canceledErrorObject (clock w)) r rd), w).
Proof.
  intros Htop Hr Hrd. unfold attachError, bind, deref, Date_now, gets.
  rewrite Htop; simpl. rewrite Hr. by rewrite Hrd.
Qed.

Lemma fresh_heap (h : gmap addr JsObject) : h !! fresh (dom h) = None.
Proof. apply not_elem_of_dom, is_fresh. Qed.

Lemma withError_canceled g err top r rd :
  heap g !! root g = Some top →
  getProperty "resultData" top = Some (JRef r) →
  heap g !! r = Some rd →
  getProperty "message" err = Some (JPrim (PStr canceledMessage)) →
  canceledError (withError g err r rd).
Proof.
  intros Htop Hr Hrd Hmsg. pose proof (fresh_heap (heap g)) as Hfresh.
  set (e := fresh (dom (heap g))) in *.
  assert (e ≠ r) as Her by congruence.
  assert (e ≠ root g) as Heroot by congruence.
  unfold canceledError, withError. fold e. simpl.
  destruct (decide (r = root g)) as [Heq|Hne].
  - exists (setProperty "error" (JRef e) rd), r, (setProperty "error" (JRef e) rd), e, err.
    rewrite <- Heq. rewrite lookup_insert_eq.
    rewrite getProperty_setProperty_ne by done.
    rewrite getProperty_setProperty_eq.
    rewrite lookup_insert_ne, lookup_insert_eq by done.
    assert (rd = top) as -> by congruence.
    by repeat split.
  - exists top, r, (setProperty "error" (JRef e) rd), e, err.
    rewrite !lookup_insert_eq.
    rewrite (lookup_insert_ne _ r (root g)) by done.
    rewrite (lookup_insert_ne _ e (root g)) by done.
    rewrite (lookup_insert_ne _ r e) by done.
    rewrite lookup_insert_eq, getProperty_setProperty_eq.
    by repeat split.
Qed.

Lemma withError_wellFormed g err r rd :
  wellFormed g → heap g !! r = Some rd →
  Forall (λ kv, refOk (heap g) kv.2) err →
  wellFormed (withError g err r rd).
Proof.
  intros [Hroot Hall] Hrd Herr. set (e := fresh (dom (heap g))).
  assert (∀ v, refOk (heap g) v → refOk (heap (withError g err r rd)) v) as Hmono.
  { intros [p|b]; simpl; [done|]. intros Hb.
    apply lookup_insert_is_Some'. right. apply lookup_insert_is_Some'. by right. }
  split.
  - apply (Hmono (JRef (root g))), Hroot.
  - unfold withError at 2; simpl. fold e.
    apply map_Forall_insert_2; [|apply map_Forall_insert_2].
    + apply Forall_forall. intros kv [->|Hkv]%elem_of_setProperty.
      * simpl. apply lookup_insert_is_Some'. right. rewrite lookup_insert_eq. by eexists.
      * apply Hmono. specialize (Hall r rd Hrd). rewrite Forall_forall in Hall.
        by apply Hall.
    + eapply Forall_impl; [exact Herr|]. intros kv. apply Hmono.
    + eapply map_Forall_impl; [exact Hall|]. intros a o Ho. simpl in Ho.
      eapply Forall_impl; [exact Ho|]. intros kv. apply Hmono.
Qed.

Lemma canceledError_same φ g g' :
  sameGraph φ g g' → canceledError g → canceledError g'.
Proof.
  intros Hs (top & r & rd & e & err & Htop & Hr & Hrd & He & Herr & Hmsg).
  assert (reachable g (root g)) as Rroot by constructor.
  assert (reachable g r) as Rr.
  { eapply reach_field; [exact Rroot|]. unfold fieldsOf. rewrite Htop.
    by apply getProperty_elem. }
  assert (reachable g e) as Re.
  { eapply reach_field; [exact Rr|]. unfold fieldsOf. rewrite Hrd.
    by apply getProperty_elem. }
  exists (mapObject φ top), (φ r), (mapObject φ rd), (φ e), (mapObject φ err).
  rewrite <- (same_root _ _ _ Hs).
  rewrite !(same_fields _ _ _ Hs) by done.
  unfold fieldsOf. rewrite Htop, Hrd, Herr. simpl.
  rewrite !getProperty_mapObject, Hr, He, Hmsg. by repeat split.
Qed.

Lemma alter_Some {A} (f : A → A) (m : gmap string A) i x :
  m !! i = Some x → alter f i m = <[i := f x]> m.
Proof.
  intros Hi. apply map_eq. intros j.
  destruct (decide (i = j)) as [<-|Hne].
  - by rewrite lookup_alter_eq, lookup_insert_eq, Hi.
  - by rewrite lookup_alter_ne, lookup_insert_ne.
Qed.

Lemma setColumns_allColumns c' c : setColumns (allColumns c') c = c'.
Proof. by destruct c'. Qed.

Lemma updateExistingExecution_all i w c row pid g wd c' :
  executions (db w) !! i = Some c →
  executionData (db w) !! i = Some row →
  faults w !! 0 ≠ Some true →
  faults w !! 1 ≠ Some true →
  updateExistingExecution i (mkPartial pid (Some g) (Some wd) (allColumns c')) w
  = (Ok tt,
     withDb (mkDatabase (<[i := c']> (executions (db w)))
               (<[i := mkExecutionData (stringify g) wd]> (executionData (db w)))
               (executionMetadata (db w)) (nextId (db w)))
            (withFaults (tail (tail (faults w))) w)).
Proof.
  intros Hc Hrow H0 H1.
  unfold updateExistingExecution, transaction, bind; simpl.
  unfold updateExecution, bind. rewrite fallible_eq.
  rewrite bool_decide_false by (by destruct (faults w)).
  unfold gets, modify; simpl.
  unfold updateExecutionData, bind. rewrite fallible_eq. simpl.
  rewrite bool_decide_false by (by destruct (faults w) as [|? [|? ?]]).
  simpl. rewrite (alter_Some _ _ _ _ Hc), (alter_Some _ _ _ _ Hrow).
  by rewrite setColumns_allColumns.
Qed.

Lemma disarmed_faults i w : faults (disarmed i w) = faults w.
Proof. unfold disarmed. by destruct (waitingExecutions w !! i). Qed.

Lemma disarmed_clock i w : clock (disarmed i w) = clock w.
Proof. unfold disarmed. by destruct (waitingExecutions w !! i). Qed.

Lemma disarmed_waiting i w : waitingExecutions (disarmed i w) !! i = None.
Proof.
  unfold disarmed. destruct (waitingExecutions w !! i) eqn:Hi; [|done].
  simpl. apply lookup_delete_eq.
Qed.

(** C5: for an execution with a [waitTill], whose run data has a
    [resultData] object, and with the database accepting the two writes,
    [stopExecution] succeeds: the record gets [status = canceled],
    [waitTill = null] and [stoppedAt = now]; the stored run data, decoded
    again, is the run data that was stored before with one object more,
    the cancellation error with its message, set as [error] of the object
    [resultData], every other object and property being kept, up to the
    renaming of object identities; the update goes through
    [updateExistingExecution] and touches no other execution; the summary
    returned is [mode], [startedAt], [stoppedAt], [finished], [status]. *)
Theorem stopExecution_cancels i w c t row g :
  executions (db w) !! i = Some c →
  waitTill c = Some t →
  executionData (db w) !! i = Some row →
  parse (data row) = Some g →
  hasResultData g →
  faults w !! 0 ≠ Some true →
  faults w !! 1 ≠ Some true →
  ∃ w' row' g' φ top r rd err,
    stopExecution i w
    = (Ok (mkStopData (mode c) (startedAt c) (Some (clock w)) (finished c) canceled), w')
    ∧ executions (db w') !! i
      = Some (mkColumns (finished c) (mode c) (retryOf c) (retrySuccessId c)
                canceled (startedAt c) (Some (clock w)) (workflowId c) None)
    ∧ executionData (db w') !! i = Some row'
    ∧ workflowData row' = workflowData row
    ∧ parse (data row') = Some g'
    ∧ heap g !! root g = Some top
    ∧ getProperty "resultData" top = Some (JRef r)
    ∧ heap g !! r = Some rd
    ∧ getProperty "message" err = Some (JPrim (PStr canceledMessage))
    ∧ is_Some (getProperty "stack" err)
    ∧ sameGraph φ (withError g err r rd) g'
    ∧ canceledError g'
    ∧ waitingExecutions w' !! i = None
    ∧ (∀ j, j ≠ i → executions (db w') !! j = executions (db w) !! j
                   ∧ executionData (db w') !! j = executionData (db w) !! j).
Proof.
  intros Hc Ht Hrow Hg (top & r & Htop & Hr) H0 H1.
  pose proof (parse_wellFormed _ _ Hg) as Hwf.
  assert (is_Some (heap g !! r)) as [rd Hrd].
  { destruct Hwf as [_ Hall]. specialize (Hall _ _ Htop).
    rewrite Forall_forall in Hall. apply (Hall _ (getProperty_elem _ _ _ Hr)). }
  set (err := canceledErrorObject (clock w)).
  assert (wellFormed (withError g err r rd)) as Hwf'.
  { apply withError_wellFormed; [done|done|]. by repeat constructor. }
  destruct (stringify_encoded (withError g err r rd) (wellFormed_closed _ Hwf'))
    as [order Henc].
  destruct (parse_encoded _ order _ Henc) as (g' & Hparse & Hsame).
  rewrite stopExecution_unfold.
  pose proof (disarmed_db i w) as Hdb.
  erewrite bind_ok; [|apply (findSingleExecution_full i _ c row g); by rewrite ?Hdb].
  simpl. rewrite Ht.
  erewrite bind_ok; [|by apply (attachError_ok g top r rd)].
  erewrite bind_ok; [|reflexivity].
  simpl. unfold persistExecution; simpl.
  erewrite bind_ok;
    [|apply (updateExistingExecution_all i _ c row); by rewrite ?Hdb, ?disarmed_faults].
  unfold ret. rewrite disarmed_clock. fold err.
  eexists _, _, g', (slotOf order), top, r, rd, err. split; [reflexivity|]. simpl.
  rewrite !lookup_insert_eq. split_and!; try done.
  - by eapply canceledError_same, withError_canceled.
  - apply disarmed_waiting.
  - intros j Hj. rewrite !lookup_insert_ne by done. by rewrite Hdb.
Qed.

Lemma updateExistingExecution_all_rejected i w pid g wd c' :
  faults w !! 0 = Some true ∨ faults w !! 1 = Some true →
  ∃ w', updateExistingExecution i (mkPartial pid (Some g) (Some wd) (allColumns c')) w
        = (Throw QueryFailedError, w').
Proof.
  intros Hf.
  unfold updateExistingExecution, transaction, bind; simpl.
  unfold updateExecution, bind. rewrite fallible_eq.
  case_bool_decide as H0; [by eexists|].
  unfold gets, modify; simpl.
  unfold updateExecutionData, bind. rewrite fallible_eq. simpl.
  case_bool_decide as H1; [by eexists|].
  destruct (faults w) as [|[|] [|[|] ?]]; simpl in *; destruct Hf as [?|?]; done.
Qed.

(** The conditions of the theorem above are the only way to succeed. *)
Lemma stopExecution_success i w r w' :
  stopExecution i w = (Ok r, w') →
  ∃ c t row g,
    executions (db w) !! i = Some c
    ∧ waitTill c = Some t
    ∧ executionData (db w) !! i = Some row
    ∧ parse (data row) = Some g
    ∧ hasResultData g
    ∧ faults w !! 0 ≠ Some true
    ∧ faults w !! 1 ≠ Some true.
Proof.
  rewrite stopExecution_unfold.
  pose proof (disarmed_db i w) as Hdb.
  destruct (executions (db w) !! i) as [c|] eqn:Hi.
  2: { unfold bind. rewrite findSingleExecution_unknown by (done || by rewrite Hdb). done. }
  unfold bind at 1.
  rewrite (findSingleExecution_found i _ _ c) by (done || by rewrite Hdb).
  unfold toResult, load, bind at 1 2 3, deref, parseData; simpl. rewrite Hdb.
  destruct (executionData (db w) !! i) as [row|] eqn:Hrow; [|done]. simpl.
  destruct (parse (data row)) as [g|] eqn:Hg; [|done]. simpl.
  destruct (waitTill c) as [t|] eqn:Ht; [|done].
  unfold bind at 1. unfold attachError, bind at 1, Date_now, gets, bind at 1, deref.
  destruct (heap g !! root g) as [top|] eqn:Htop; [|done]. simpl.
  destruct (getProperty "resultData" top) as [[p|a]|] eqn:Hr; [done| |done].
  unfold bind at 1.
  destruct (heap g !! a) as [rd|] eqn:Hrd; [|done]. simpl.
  unfold bind at 1, Date_now, gets. unfold bind at 1. unfold persistExecution; simpl.
  intros Hrun.
  exists c, t, row, g. split_and!; try done.
  - by exists top, a.
  - intros Hf.
    edestruct (updateExistingExecution_all_rejected i (disarmed i w)) as [w2 Hw2];
      [left; by rewrite disarmed_faults|].
    rewrite Hw2 in Hrun. done.
  - intros Hf.
    edestruct (updateExistingExecution_all_rejected i (disarmed i w)) as [w2 Hw2];
      [right; by rewrite disarmed_faults|].
    rewrite Hw2 in Hrun. done.
Qed.

Lemma stopExecution_without_waitTill_witness :
  executions (db finishedWorld) !! "1" ≫= waitTill = None
  ∧ ∃ e w', stopExecution "1" finishedWorld = (Throw e, w')
            ∧ db w' = db finishedWorld
            ∧ (e = ExecutionNotFound "1" ↔ decodable (db finishedWorld) "1").
Proof.
  split; [reflexivity|].
  apply (stopExecution_without_waitTill "1" finishedWorld). reflexivity.
Defined.

(** C4 as stated fails. [createNewExecution], its second insert rejected,
    leaves execution [1] stored without a data record and with no
    [waitTill]; [stopExecution] on it throws a [TypeError], not the
    not-found error. *)
Lemma stopExecution_without_data_record :
  ∃ w', createNewExecution newExecution (worldOf emptyDb [false; true])
        = (Throw QueryFailedError, w')
    ∧ is_Some (executions (db w') !! "1")
    ∧ executions (db w') !! "1" ≫= waitTill = None
    ∧ stopExecution "1" w' = (Throw TypeError, w')
    ∧ TypeError ≠ ExecutionNotFound "1".
Proof.
  eexists. split; [vm_compute; reflexivity|].
  split; [by eexists|]. split; [reflexivity|]. split; [|done].
  vm_compute. reflexivity.
Qed.

(** The same on the sample: execution [1] is finished, the call reports
    that it could not be found and changes nothing. *)
Lemma stopExecution_finished :
  stopExecution "1" finishedWorld = (Throw (ExecutionNotFound "1"), finishedWorld).
Proof. vm_compute. reflexivity. Qed.

Lemma parse_stringify_runData : parse (stringify runData) = Some runData.
Proof. vm_compute. reflexivity. Qed.

Lemma stopExecution_cancels_witness :
  executions (db waitingWorld) !! "1" = Some (columnsWith waiting (Some 5000%Z))
  ∧ waitTill (columnsWith waiting (Some 5000%Z)) = Some 5000%Z
  ∧ executionData (db waitingWorld) !! "1"
    = Some (mkExecutionData (stringify runData) someWorkflow)
  ∧ parse (data (mkExecutionData (stringify runData) someWorkflow)) = Some runData
  ∧ hasResultData runData
  ∧ faults waitingWorld !! 0 ≠ Some true
  ∧ faults waitingWorld !! 1 ≠ Some true
  ∧ ∃ w' row' g' φ top r rd err,
      stopExecution "1" waitingWorld
      = (Ok (mkStopData manual 100 (Some 1000%Z) false canceled), w')
      ∧ executions (db w') !! "1"
        = Some (mkColumns false manual None None canceled 100 (Some 1000%Z)
                  (Some "wf1") None)
      ∧ executionData (db w') !! "1" = Some row'
      ∧ workflowData row' = someWorkflow
      ∧ parse (data row') = Some g'
      ∧ heap runData !! root runData = Some top
      ∧ getProperty "resultData" top = Some (JRef r)
      ∧ heap runData !! r = Some rd
      ∧ getProperty "message" err = Some (JPrim (PStr canceledMessage))
      ∧ is_Some (getProperty "stack" err)
      ∧ sameGraph φ (withError runData err r rd) g'
      ∧ canceledError g'
      ∧ waitingExecutions w' !! "1" = None
      ∧ (∀ j, j ≠ "1" →
           executions (db w') !! j = executions (db waitingWorld) !! j
           ∧ executionData (db w') !! j = executionData (db waitingWorld) !! j).
Proof.
  assert (hasResultData runData) as Hrd.
  { exists [("resultData", JRef 1); ("startData", JPrim PNull)], 1. by split. }
  split_and!; [reflexivity|reflexivity|reflexivity|
               exact parse_stringify_runData|exact Hrd|done|done|].
  apply (stopExecution_cancels "1" waitingWorld (columnsWith waiting (Some 5000%Z))
           5000%Z (mkExecutionData (stringify runData) someWorkflow) runData);
    [reflexivity|reflexivity|reflexivity|exact parse_stringify_runData|exact Hrd
    |done|done].
Defined.

(** The sample after the cancellation, as stored: the run data of
    execution [1] with the error object in a slot of its own. *)
Lemma stopExecution_cancels_sample :
  ∃ w' row', stopExecution "1" waitingWorld
             = (Ok (mkStopData manual 100 (Some 1000%Z) false canceled), w')
    ∧ executionData (db w') !! "1" = Some row'
    ∧ parse (data row')
      = Some (mkGraph (list_to_map
          [ (0, [("resultData", JRef 1); ("startData", JPrim PNull)]);
            (1, [("runData", JRef 2); ("lastNodeExecuted", JPrim (PStr "Wait"));
                 ("error", JRef 3)]);
            (2, [("loop", JRef 0)]);
            (3, canceledErrorObject 1000) ]) 0).
Proof.
  eexists _, _. split; [vm_compute; reflexivity|].
  split; [vm_compute; reflexivity|]. vm_compute. reflexivity.
Qed.

(** X8: a stored execution can be read back with its run data: what
    [createNewExecution] encoded, [findSingleExecution] decodes to the same
    graph up to the renaming of object identities. *)
Lemma createNewExecution_then_find x w :
  closed (new_data x) →
  faults w !! 0 ≠ Some true →
  faults w !! 1 ≠ Some true →
  ∃ w' g' φ,
    createNewExecution x w
    = (Ok (mkExecution (generatedId x w) (new_columns x)), w')
    ∧ findSingleExecution (generatedId x w) (mkOptions true true true None) w'
      = (Ok (Some (inr (mkResponse (generatedId x w) g' (new_workflowData x)
                          (new_columns x)))), w')
    ∧ sameGraph φ (new_data x) g'.
Proof.
  intros Hcl H0 H1.
  destruct (createNewExecution_ok x w H0 H1) as (w' & Hrun & He & Hd).
  destruct (stringify_encoded _ Hcl) as [order Henc].
  destruct (parse_encoded _ order _ Henc) as (g' & Hp & Hs).
  exists w', g', (slotOf order). split; [done|]. split; [|done].
  by rewrite (findSingleExecution_full _ _ _ _ g' He Hd Hp).
Qed.

End Stop.

(** ** The sweep of the wait tracker *)

Section Sweep.

Lemma sweep_query_exact d now e :
  e ∈ findRows (findQuery now) d
  ↔ executions d !! id e = Some (columns e)
    ∧ (∃ t, waitTill (columns e) = Some t ∧ (t ≤ now + lookahead)%Z)
    ∧ status (columns e) ≠ crashed.
Proof.
  unfold findRows, findQuery; simpl.
  rewrite merge_sort_Permutation, list_elem_of_filter, elem_of_rows.
  unfold matchesWhere; simpl.
  rewrite andb_True, bool_decide_spec.
  destruct (waitTill (columns e)) as [t|].
  - rewrite bool_decide_spec. split.
    + intros [[Ht Hs] He]. repeat split; eauto.
    + intros (He & (t' & [= <-] & Ht) & Hs). by repeat split.
  - split; [by intros [[[] _] _]|]. by intros (_ & (t & [=] & _) & _).
Qed.

Lemma findRows_perm q d :
  findRows q d ≡ₚ filter (λ e, matchesWhere (whereClause q) e) (rows d).
Proof.
  unfold findRows. destruct (orderByWaitTill q); [|done].
  apply merge_sort_Permutation.
Qed.

Lemma NoDup_findRows_ids q d : NoDup (id <$> findRows q d).
Proof.
  rewrite findRows_perm.
  apply NoDup_fmap_2_strong; [|apply NoDup_filter, NoDup_rows].
  intros [i1 c1] [i2 c2] [_ H1]%list_elem_of_filter [_ H2]%list_elem_of_filter.
  apply elem_of_rows in H1, H2. simpl in *. intros <-. congruence.
Qed.


Lemma timeoutDelay_max ms : (ms ≤ TIMEOUT_MAX)%Z → timeoutDelay ms = Z.max 1 ms.
Proof. unfold timeoutDelay, TIMEOUT_MAX. intros H. case_bool_decide; lia. Qed.

Lemma armTimer_registered i till w e :
  waitingExecutions w !! i = Some e → armTimer i till w = (Ok tt, w).
Proof. intros He. unfold armTimer, bind, gets. by rewrite He. Qed.

Lemma armTimer_new i t w :
  waitingExecutions w !! i = None →
  armTimer i (Some t) w = (Ok tt, armedWorld i t w).
Proof. intros He. unfold armTimer, bind, gets. by rewrite He. Qed.

Lemma armedWorld_consistent i t w :
  consistent w → waitingExecutions w !! i = None → consistent (armedWorld i t w).
Proof.
  intros [Hreg Harmed Hbelow] Hi.
  assert (timers w !! nextTimer w = None) as Hnext.
  { apply eq_None_not_Some. intros H%Hbelow. lia. }
  split; simpl.
  - intros h tm Hh. destruct (decide (nextTimer w = h)) as [<-|Hne].
    + rewrite lookup_insert_eq in Hh. injection Hh as <-. simpl.
      by rewrite lookup_insert_eq.
    + rewrite lookup_insert_ne in Hh by done.
      pose proof (Hreg h tm Hh) as Hr.
      rewrite lookup_insert_ne; [done|]. intros ->. congruence.
  - intros j e Hj. destruct (decide (i = j)) as [<-|Hne].
    + rewrite lookup_insert_eq in Hj. injection Hj as <-. simpl.
      split; [done|]. eexists. by rewrite lookup_insert_eq.
    + rewrite lookup_insert_ne in Hj by done.
      destruct (Harmed j e Hj) as (Hid & tm & Htm & Hres).
      split; [done|]. exists tm. split; [|done].
      rewrite lookup_insert_ne; [done|]. intros Heq. rewrite <- Heq in Htm. congruence.
  - intros h. destruct (decide (nextTimer w = h)) as [<-|Hne]; [lia|].
    rewrite lookup_insert_ne by done. intros H%Hbelow. lia.
Qed.

Lemma armTimers_registered l : ∀ w,
  (∀ i, i ∈ l.*1 → is_Some (waitingExecutions w !! i)) →
  armTimers l w = (Ok tt, w).
Proof.
  induction l as [|[i till] l IH]; intros w Hall; simpl; [done|].
  destruct (Hall i) as [e He]; [by left|].
  erewrite bind_ok; [|by eapply armTimer_registered].
  apply IH. intros j Hj. apply Hall. by right.
Qed.

Lemma armTimers_spec l : ∀ w,
  consistent w →
  Forall (λ x, is_Some x.2) l →
  ∃ w', armTimers l w = (Ok tt, w')
    ∧ consistent w'
    ∧ db w' = db w ∧ clock w' = clock w
    ∧ (∀ i e, waitingExecutions w !! i = Some e → waitingExecutions w' !! i = Some e)
    ∧ (∀ h tm, timers w !! h = Some tm → timers w' !! h = Some tm)
    ∧ (∀ i, is_Some (waitingExecutions w' !! i)
            ↔ is_Some (waitingExecutions w !! i) ∨ i ∈ l.*1)
    ∧ (∀ i t, NoDup l.*1 → (i, Some t) ∈ l → waitingExecutions w !! i = None →
         ∃ h, waitingExecutions w' !! i = Some (mkWaiting i h)
              ∧ timers w' !! h = Some (mkTimer (timeoutDelay (t - clock w)) i)).
Proof.
  induction l as [|[i till] l IH]; intros w Hcons Hall; simpl.
  - exists w. split_and!; try done.
    + intros i. split; [by left|]. intros [?|H]; [done|]. by apply elem_of_nil in H.
    + intros i t _ H. by apply elem_of_nil in H.
  - apply Forall_cons in Hall as [[t Ht] Hall]. simpl in Ht. subst till.
    destruct (waitingExecutions w !! i) as [e|] eqn:Hi.
    + erewrite bind_ok; [|by eapply armTimer_registered].
      destruct (IH w Hcons Hall)
        as (w' & Hrun & Hc' & Hdb & Hclock & Hkeep & Hkeept & Hdom & Hnew).
      exists w'. split_and!; try done.
      * intros j. split.
        -- intros Hj. apply Hdom in Hj as [Hj|Hj]; [by left|]. right. by right.
        -- intros [Hj|[->|Hj]%elem_of_cons]; apply Hdom;
             [by left|left; by eexists|by right].
      * intros j t' Hnd [[= -> ->]|Hj]%elem_of_cons Hjn; [congruence|].
        apply Hnew; [|done|done]. by apply NoDup_cons in Hnd as [_ ?].
    + erewrite bind_ok; [|by eapply armTimer_new].
      destruct (IH (armedWorld i t w))
        as (w' & Hrun & Hc' & Hdb & Hclock & Hkeep & Hkeept & Hdom & Hnew);
        [by apply armedWorld_consistent|done|].
      assert (timers w !! nextTimer w = None) as Hnext.
      { apply eq_None_not_Some. intros H%(timer_below _ Hcons). lia. }
      exists w'. split_and!; try done.
      * intros j e Hj. apply Hkeep. simpl. rewrite lookup_insert_ne; [done|]. congruence.
      * intros h tm Hh. apply Hkeept. simpl. rewrite lookup_insert_ne; [done|]. congruence.
      * intros j. split.
        -- intros Hj. apply Hdom in Hj as [Hj|Hj]; [|right; by right].
           simpl in Hj.
           apply lookup_insert_is_Some in Hj as [<-|[_ Hj]]; [right; by left|by left].
        -- intros [Hj|[->|Hj]%elem_of_cons]; apply Hdom.
           ++ left. simpl. apply lookup_insert_is_Some'. by right.
           ++ left. simpl. rewrite lookup_insert_eq. by eexists.
           ++ by right.
      * intros j t' Hnd [[= -> ->]|Hj]%elem_of_cons Hjn.
        -- exists (nextTimer w). split.
           ++ apply Hkeep. simpl. by rewrite lookup_insert_eq.
           ++ apply Hkeept. simpl. by rewrite lookup_insert_eq.
        -- apply NoDup_cons in Hnd as [Hni Hnd].
           assert (j ≠ i) as Hne.
           { intros ->. apply Hni. apply list_elem_of_fmap. by exists (i, Some t'). }
           destruct (Hnew j t' Hnd Hj) as (h & Hh & Htm).
           { simpl. by rewrite lookup_insert_ne. }
           exists h. split; [done|]. by rewrite Htm.
Qed.

Lemma consistent_unique w h1 h2 t1 t2 :
  consistent w →
  timers w !! h1 = Some t1 → timers w !! h2 = Some t2 →
  resumes t1 = resumes t2 → h1 = h2.
Proof.
  intros Hc H1 H2 Heq.
  apply (timer_registered _ Hc) in H1, H2. rewrite Heq in H1. congruence.
Qed.

Lemma consistent_start d f now n b :
  consistent (mkWorld d f now ∅ n ∅ [] b).
Proof.
  split; simpl.
  - intros h t H. by rewrite lookup_empty in H.
  - intros i e H. by rewrite lookup_empty in H.
  - intros h [t H]. by rewrite lookup_empty in H.
Qed.

Lemma forEach_toFound_unloaded l w :
  l ≠ [] →
  Forall (λ e, sel_executionData e = None) l →
  forEach (toFound noOptions) l w = (Throw TypeError, w).
Proof.
  destruct l as [|e l]; [done|]. intros _ [He _]%Forall_cons. simpl.
  unfold bind, toFound; simpl. by rewrite He.
Qed.

(** [findMultipleExecutions] without options, on a query that does not ask
    for the relation itself, throws as soon as something is found. *)
Lemma findMultipleExecutions_without_data_throws q w :
  "executionData" ∉ relations q →
  findRows q (db w) ≠ [] →
  findMultipleExecutions q noOptions w = (Throw TypeError, q, w).
Proof.
  intros Hrel Hfound. unfold findMultipleExecutions, pushRelation; simpl.
  unfold bind, find, gets.
  rewrite forEach_toFound_unloaded; [done| |].
  - intros Hnil. by apply fmap_nil_inv in Hnil.
  - apply Forall_fmap, Forall_forall. intros e _. simpl.
    by rewrite bool_decide_false.
Qed.

Lemma getWaitingExecutions_throws w :
  findRows (findQuery (clock w)) (db w) ≠ [] →
  getWaitingExecutions w = (Throw TypeError, w).
Proof.
  intros Hdue. unfold getWaitingExecutions, bind at 1, Date_now, gets.
  erewrite bind_throw; [reflexivity|].
  unfold droppingQuery.
  rewrite findMultipleExecutions_without_data_throws; [done| |done].
  simpl. apply not_elem_of_nil.
Qed.

Lemma getWaitingExecutions_idle w :
  findRows (findQuery (clock w)) (db w) = [] →
  getWaitingExecutions w = (Ok tt, w).
Proof.
  intros Hdue. unfold getWaitingExecutions, bind at 1, Date_now, gets.
  erewrite (bind_ok _ _ _ [] w); [done|].
  unfold droppingQuery, findMultipleExecutions, pushRelation; simpl.
  unfold bind, find, gets. by rewrite Hdue.
Qed.

(** C3: the sweep does not arm the timers the claim promises. For a
    stored execution that is [waiting] and due within the lookahead,
    whether or not the registry has it, [getWaitingExecutions] throws a
    [TypeError]: it calls [findMultipleExecutions] without options, so the
    relation [executionData] is not loaded, and the result is built from
    [execution.executionData.data]. The loop that arms the timers is not
    reached; timers and registry are as before the sweep. *)
Theorem sweep_arms_no_timer w i c t :
  executions (db w) !! i = Some c →
  status c = waiting →
  waitTill c = Some t →
  (t ≤ clock w + lookahead)%Z →
  getWaitingExecutions w = (Throw TypeError, w)
  ∧ timers (getWaitingExecutions w).2 = timers w
  ∧ waitingExecutions (getWaitingExecutions w).2 = waitingExecutions w.
Proof.
  intros Hc Hs Ht Hdue.
  assert (getWaitingExecutions w = (Throw TypeError, w)) as Hrun.
  { apply getWaitingExecutions_throws.
    assert (mkExecution i c ∈ findRows (findQuery (clock w)) (db w)) as Hin.
    { apply sweep_query_exact. simpl. split_and!; [done|by exists t|].
      by rewrite Hs. }
    intros Hnil. rewrite Hnil in Hin. by apply elem_of_nil in Hin. }
  by rewrite Hrun.
Qed.

Lemma sweep_arms_no_timer_witness :
  executions (db waitingWorld) !! "1" = Some (columnsWith waiting (Some 5000%Z))
  ∧ waitingExecutions waitingWorld !! "1" = None
  ∧ getWaitingExecutions waitingWorld = (Throw TypeError, waitingWorld)
  ∧ timers (getWaitingExecutions waitingWorld).2 = timers waitingWorld
  ∧ waitingExecutions (getWaitingExecutions waitingWorld).2
    = waitingExecutions waitingWorld.
Proof.
  split; [reflexivity|]. split; [reflexivity|].
  apply (sweep_arms_no_timer waitingWorld "1" (columnsWith waiting (Some 5000%Z)) 5000);
    [reflexivity|reflexivity|reflexivity|by vm_compute].
Defined.

(** The query of the sweep does not test [status == waiting] either:
    execution [1], whose status is [running] and whose [waitTill] is set,
    is selected. *)
Lemma sweep_selects_non_waiting :
  findRows (findQuery 1000) (db runningWorld)
  = [mkExecution "1" (columnsWith running (Some 5000%Z))]
  ∧ status (columnsWith running (Some 5000%Z)) ≠ waiting.
Proof. split; [vm_compute; reflexivity|done]. Qed.

(** The loop by itself, given the id and the [waitTill] of execution [1]:
    one timer of 4000 ms. *)
Lemma sweep_loop_arms_sample :
  armTimers [("1", Some 5000%Z)] waitingWorld
  = (Ok tt, armedWorld "1" 5000 waitingWorld)
  ∧ timers (armedWorld "1" 5000 waitingWorld) !! 0 = Some (mkTimer 4000 "1").
Proof. split; vm_compute; reflexivity. Qed.

(** The sweep as a whole on the sample: [findMultipleExecutions], called
    without options, throws on the one execution found, and no timer is
    armed. *)
Lemma sweep_throws_on_due_execution :
  getWaitingExecutions waitingWorld = (Throw TypeError, waitingWorld).
Proof. by apply getWaitingExecutions_throws. Qed.

End Sweep.

(** ** Reading executions *)

Section FindMore.

Lemma toResult_world o e w : (toResult o e w).2 = w.
Proof.
  unfold toResult, bind, deref, parseData, ret, throw.
  destruct (includeData o && unflattenData o), (rel_executionData e) as [row|];
    simpl; try done.
  by destruct (parse (data row)).
Qed.

Lemma forEach_world {A B} (f : A → M B) l :
  (∀ x w, (f x w).2 = w) → ∀ w, (forEach f l w).2 = w.
Proof.
  intros Hf. induction l as [|x l IH]; intros w; simpl; [done|].
  unfold bind. specialize (Hf x w). destruct (f x w) as [[y|e] w1]; simpl in *; subst; [|done].
  specialize (IH w). destruct (forEach f l w) as [[ys|e] w2]; simpl in *; by subst.
Qed.

Lemma findRows_keyed sel rels wh k d :
  where_id wh = Some k →
  findRows (mkFind sel wh false rels) d
  = match executions d !! k with
    | Some c => if matchesWhere wh (mkExecution k c) then [mkExecution k c] else []
    | None => []
    end.
Proof.
  intros Hk. unfold findRows; simpl.
  assert (∀ e, matchesWhere wh e → id e = k) as Hid.
  { intros e. unfold matchesWhere. rewrite Hk.
    rewrite !andb_True, bool_decide_spec. by intros [[? _] _]. }
  destruct (executions d !! k) as [c|] eqn:Hc.
  - destruct (matchesWhere wh (mkExecution k c)) eqn:Hm.
    + apply NoDup_only; [apply NoDup_filter, NoDup_rows|].
      intros e. rewrite list_elem_of_filter, elem_of_rows. split.
      * intros [He Hs]. specialize (Hid e He). destruct e as [k' c']; simpl in *.
        subst. congruence.
      * intros ->. split; [by rewrite Hm|done].
    + apply elem_of_nil_inv. intros e.
      rewrite list_elem_of_filter, elem_of_rows. intros [He Hs].
      specialize (Hid e He). destruct e as [k' c']; simpl in *. subst.
      assert (c' = c) as -> by congruence. by rewrite Hm in He.
  - apply elem_of_nil_inv. intros e.
    rewrite list_elem_of_filter, elem_of_rows. intros [He Hs].
    specialize (Hid e He). subst. congruence.
Qed.

(** [findSingleExecution], by the row its key names. *)
Lemma findSingleExecution_eq i o w :
  findSingleExecution i o w
  = match executions (db w) !! singleKey i o with
    | Some c =>
        if matchesWhere (singleWhere i o) (mkExecution (singleKey i o) c)
        then bind (toResult o
                     (load (db w)
                        (if includeData o || includeWorkflowData o
                         then ["executionData"] else [])
                        (mkExecution (singleKey i o) c)))
                  (λ r, ret (Some r)) w
        else (Ok None, w)
    | None => (Ok None, w)
    end.
Proof.
  unfold findSingleExecution, findOne.
  unfold bind at 1, gets. simpl.
  rewrite (findRows_keyed _ _ _ (singleKey i o)).
  2: { unfold singleKey. by destruct (extraWhere o) as [[[k|] ? ?]|]. }
  fold (singleWhere i o).
  destruct (executions (db w) !! singleKey i o) as [c|]; [|done].
  by destruct (matchesWhere (singleWhere i o) (mkExecution (singleKey i o) c)).
Qed.

Lemma findSingleExecution_world i o w : (findSingleExecution i o w).2 = w.
Proof.
  rewrite findSingleExecution_eq.
  destruct (executions (db w) !! singleKey i o) as [c|]; [|done].
  destruct (matchesWhere _ _); [|done].
  unfold bind.
  pose proof (toResult_world o
    (load (db w) (if includeData o || includeWorkflowData o then ["executionData"] else [])
       (mkExecution (singleKey i o) c)) w) as H.
  destruct (toResult _ _ _) as [[r|e] w1]; simpl in *; by subst.
Qed.

(** Without a [select] every column is loaded. *)
Lemma selectColumns_all c : selectColumns [] c = allColumns c.
Proof. done. Qed.

Lemma toFound_world o e w : (toFound o e w).2 = w.
Proof.
  unfold toFound, bind, deref, parseData, ret, throw.
  destruct (includeData o && unflattenData o), (sel_executionData e) as [row|];
    simpl; try done.
  by destruct (parse (data row)).
Qed.

(** [findMultipleExecutions], by the rows its query matches. *)
Lemma findMultipleExecutions_eq q o w :
  findMultipleExecutions q o w
  = ((forEach (toFound o)
        ((λ e, project (select q) (load (db w) (relations (pushRelation q o)) e))
           <$> findRows q (db w)) w).1,
     pushRelation q o, w).
Proof.
  unfold findMultipleExecutions, bind, find, gets.
  assert (select (pushRelation q o) = select q) as ->
    by (unfold pushRelation; by destruct (_ || _)).
  assert (findRows (pushRelation q o) (db w) = findRows q (db w)) as ->
    by (unfold pushRelation; by destruct (_ || _)).
  pose proof (forEach_world (toFound o)
    ((λ e, project (select q) (load (db w) (relations (pushRelation q o)) e))
       <$> findRows q (db w)) (toFound_world o) w) as H.
  destruct (forEach _ _ w) as [r w']. simpl in *. by subst.
Qed.

(** X1: reading never writes the store or the tracker, and the one thing
    [findMultipleExecutions] writes is its own argument. Whatever the
    options and the outcome (a result, nothing found, an exception),
    [findSingleExecution] and [findMultipleExecutions] leave the store,
    the timers, the registry and the rest of the world as they were.
    [findMultipleExecutions] changes the query object it is given: with
    [includeData] or [includeWorkflowData] set it appends [executionData]
    to the relations of the object, also when it throws, so that an object
    passed to two calls names the relation twice; without the flags, and
    in its other properties, the object stays as it was. *)
Theorem find_never_writes :
  (∀ i o w, (findSingleExecution i o w).2 = w)
  ∧ (∀ q o w, ∃ r q',
       findMultipleExecutions q o w = (r, q', w)
       ∧ select q' = select q
       ∧ whereClause q' = whereClause q
       ∧ orderByWaitTill q' = orderByWaitTill q
       ∧ relations q'
         = relations q ++ (if includeData o || includeWorkflowData o
                           then ["executionData"] else [])
       ∧ (includeData o || includeWorkflowData o = true →
          ∃ r2 q2, findMultipleExecutions q' o w = (r2, q2, w)
                   ∧ relations q2
                     = relations q ++ ["executionData"; "executionData"])).
Proof.
  split; [apply findSingleExecution_world|].
  intros q o w. eexists _, _. split; [apply findMultipleExecutions_eq|].
  unfold pushRelation. destruct (includeData o || includeWorkflowData o) eqn:Hinc.
  - split_and!; try done. intros _. eexists _, _.
    split; [apply findMultipleExecutions_eq|].
    unfold pushRelation. rewrite Hinc. simpl. by rewrite <- app_assoc.
  - split_and!; try done. by rewrite app_nil_r.
Qed.

Lemma singleKey_plain i o : extraWhere o = None → singleKey i o = i.
Proof. unfold singleKey. by intros ->. Qed.

Lemma singleWhere_plain i o e :
  extraWhere o = None → matchesWhere (singleWhere i o) e = bool_decide (id e = i).
Proof.
  unfold singleWhere. intros ->. unfold matchesWhere; simpl. by rewrite !andb_true_r.
Qed.

(** X2: with one of the include flags set and the decoding not asked for
    (no [includeData], or no [unflattenData]), [findSingleExecution]
    returns the execution with the stored payload as it is, still encoded,
    and the workflow snapshot. *)
Theorem findSingle_flattened i o w c row :
  extraWhere o = None →
  executions (db w) !! i = Some c →
  executionData (db w) !! i = Some row →
  includeData o || includeWorkflowData o = true →
  includeData o && unflattenData o = false →
  findSingleExecution i o w
  = (Ok (Some (inl (mkFlattedDb i (data row) (workflowData row) c))), w).
Proof.
  intros Ho Hc Hrow Hinc Hflat. rewrite findSingleExecution_eq.
  rewrite (singleKey_plain i o Ho), Hc, singleWhere_plain by done. simpl.
  rewrite bool_decide_true by done.
  unfold toResult, load, bind, deref, ret. rewrite Hinc, Hflat. simpl.
  by rewrite Hrow.
Qed.

Lemma findSingle_flattened_witness :
  findSingleExecution "1" (mkOptions false true true None) waitingWorld
  = (Ok (Some (inl (mkFlattedDb "1" (stringify runData) someWorkflow
                      (columnsWith waiting (Some 5000%Z))))), waitingWorld).
Proof.
  apply (findSingle_flattened "1" (mkOptions false true true None) waitingWorld
           (columnsWith waiting (Some 5000%Z))
           (mkExecutionData (stringify runData) someWorkflow)); reflexivity.
Defined.

(** X3: the [where] option of [findSingleExecution] is spread over the id:
    an id in it replaces the id argument, and an execution that does not
    meet its [waitTill] bound, or has the status it excludes, is reported
    as not found. *)
Theorem findSingle_where i o w wh :
  extraWhere o = Some wh →
  (∀ k, where_id wh = Some k → findSingleExecution i o w = findSingleExecution k o w)
  ∧ (∀ c, where_id wh = None →
       executions (db w) !! i = Some c →
       (∃ bound, where_waitTill wh = Some bound
                 ∧ ∀ t, waitTill c = Some t → (bound < t)%Z)
       ∨ where_status wh = Some (status c) →
       findSingleExecution i o w = (Ok None, w)).
Proof.
  intros Ho. split.
  - intros k Hk. rewrite !findSingleExecution_eq.
    assert (singleKey i o = singleKey k o) as ->.
    { unfold singleKey. by rewrite Ho; simpl; rewrite Hk. }
    assert (singleWhere i o = singleWhere k o) as ->.
    { unfold singleWhere. by rewrite Ho; simpl; rewrite Hk. }
    done.
  - intros c Hid Hc Hunmet. rewrite findSingleExecution_eq.
    assert (singleKey i o = i) as ->.
    { unfold singleKey. by rewrite Ho; simpl; rewrite Hid. }
    rewrite Hc.
    assert (matchesWhere (singleWhere i o) (mkExecution i c) = false) as ->; [|done].
    unfold singleWhere, matchesWhere. rewrite Ho; simpl.
    destruct Hunmet as [(bound & Hb & Hlate)|Hs].
    + rewrite Hb. destruct (waitTill c) as [t|] eqn:Ht.
      * rewrite (bool_decide_false (t ≤ bound)%Z) by (specialize (Hlate t eq_refl); lia).
        by rewrite andb_false_r.
      * by rewrite andb_false_r.
    + rewrite Hs. rewrite (bool_decide_false (status c ≠ status c)) by (by intros []).
      by rewrite andb_false_r.
Qed.

Lemma findSingle_where_witness :
  findSingleExecution "2"
    (mkOptions true true true (Some (mkWhere (Some "1") None None))) waitingWorld
  = findSingleExecution "1"
      (mkOptions true true true (Some (mkWhere (Some "1") None None))) waitingWorld
  ∧ findSingleExecution "1"
      (mkOptions true true true (Some (mkWhere None None (Some waiting)))) waitingWorld
    = (Ok None, waitingWorld).
Proof.
  split.
  - exact (proj1 (findSingle_where "2"
             (mkOptions true true true (Some (mkWhere (Some "1") None None)))
             waitingWorld (mkWhere (Some "1") None None) eq_refl) "1" eq_refl).
  - exact (proj2 (findSingle_where "1"
             (mkOptions true true true (Some (mkWhere None None (Some waiting))))
             waitingWorld (mkWhere None None (Some waiting)) eq_refl)
             (columnsWith waiting (Some 5000%Z)) eq_refl eq_refl (or_intror eq_refl)).
Defined.

(** X4: an execution whose data record is missing cannot be read: for
    every choice of the flags [findSingleExecution] throws a [TypeError],
    and nothing is changed. *)
Theorem findSingle_missing_data i o w c :
  extraWhere o = None →
  executions (db w) !! i = Some c →
  executionData (db w) !! i = None →
  findSingleExecution i o w = (Throw TypeError, w).
Proof.
  intros Ho Hc Hrow. rewrite findSingleExecution_eq.
  rewrite (singleKey_plain i o Ho), Hc, singleWhere_plain by done. simpl.
  rewrite bool_decide_true by done.
  unfold toResult, load, bind, deref, throw.
  assert ((if bool_decide ("executionData" ∈
                 (if includeData o || includeWorkflowData o
                  then ["executionData"] else []))
           then executionData (db w) !! i else None) = None) as Hrel.
  { case_bool_decide; [exact Hrow|done]. }
  simpl. rewrite Hrel. by destruct (includeData o && unflattenData o).
Qed.

Lemma findSingle_missing_data_witness :
  findSingleExecution "1" (mkOptions true true true None) orphanWorld
  = (Throw TypeError, orphanWorld).
Proof.
  apply (findSingle_missing_data "1" (mkOptions true true true None) orphanWorld
           (columnsWith waiting (Some 5000%Z))); reflexivity.
Defined.

(** X5: a payload that does not decode is not repaired or skipped: with
    [includeData] and [unflattenData] set, [findSingleExecution] throws the
    [SyntaxError] of the codec and changes nothing. *)
Theorem findSingle_corrupt i o w c row :
  extraWhere o = None →
  executions (db w) !! i = Some c →
  executionData (db w) !! i = Some row →
  includeData o = true → unflattenData o = true →
  parse (data row) = None →
  findSingleExecution i o w = (Throw SyntaxError, w).
Proof.
  intros Ho Hc Hrow Hinc Hun Hp. rewrite findSingleExecution_eq.
  rewrite (singleKey_plain i o Ho), Hc, singleWhere_plain by done. simpl.
  rewrite bool_decide_true by done.
  unfold toResult, load, bind, deref, parseData, throw. rewrite Hinc, Hun. simpl.
  rewrite Hrow. simpl. by rewrite Hp.
Qed.

Lemma findSingle_corrupt_witness :
  findSingleExecution "1" (mkOptions true true true None) corruptWorld
  = (Throw SyntaxError, corruptWorld).
Proof.
  apply (findSingle_corrupt "1" (mkOptions true true true None) corruptWorld
           (columnsWith waiting (Some 5000%Z))
           (mkExecutionData [[("next", FSlot 7)]] someWorkflow));
    reflexivity.
Defined.

Lemma forEach_some_throw {A B} (f : A → M B) l w x :
  (∀ y w, (f y w).2 = w) →
  x ∈ l →
  (∃ e, f x w = (Throw e, w)) →
  ∃ e, forEach f l w = (Throw e, w).
Proof.
  intros Hw Hx [e Hfx]. induction l as [|y l IH]; [by apply elem_of_nil in Hx|].
  simpl. unfold bind.
  pose proof (Hw y w) as Hy.
  destruct (f y w) as [[b|e'] w1] eqn:Hfy; simpl in Hy; subst w1; [|by exists e'].
  apply elem_of_cons in Hx as [->|Hx]; [congruence|].
  destruct (IH Hx) as [e' ->]. by exists e'.
Qed.

#[local] Instance waitTillAsc_trans : Transitive waitTillAsc.
Proof.
  intros a b c. unfold waitTillAsc.
  destruct (waitTill (columns a)), (waitTill (columns b)), (waitTill (columns c));
    try done. lia.
Qed.

#[local] Instance waitTillAsc_total : Total waitTillAsc.
Proof.
  intros a b. unfold waitTillAsc.
  destruct (waitTill (columns a)), (waitTill (columns b)); try lia; by left.
Qed.

Lemma StronglySorted_lookup_lt {A} (R : relation A) l i j a b :
  StronglySorted R l → i < j → l !! i = Some a → l !! j = Some b → R a b.
Proof.
  intros Hs. revert i j. induction Hs as [|x l Hs IH Hall]; intros i j Hij Ha Hb.
  - by rewrite lookup_nil in Ha.
  - destruct j as [|j]; [lia|]. simpl in Hb. destruct i as [|i].
    + injection Ha as <-. rewrite Forall_forall in Hall.
      apply Hall. by eapply list_elem_of_lookup_2.
    + simpl in Ha. apply (IH i j); [lia|done|done].
Qed.

Lemma findRows_ascending q d :
  orderByWaitTill q = true → ascendingWaitTill (findRows q d).
Proof.
  intros Ho i j a b x y Hij Ha Hb Hx Hy.
  unfold findRows in Ha, Hb. rewrite Ho in Ha, Hb.
  pose proof (StronglySorted_lookup_lt waitTillAsc _ i j a b
                (StronglySorted_merge_sort _ _) Hij Ha Hb) as H.
  unfold waitTillAsc in H. by rewrite Hx, Hy in H.
Qed.

Lemma forEach_toFound_decoded includeW sel rels w l :
  "executionData" ∈ rels →
  (∀ e, e ∈ l → is_Some (decoded sel (db w) e)) →
  ∃ out,
    forEach (toFound (mkOptions true includeW true None))
      ((λ e, project sel (load (db w) rels e)) <$> l) w = (Ok out, w)
    ∧ Forall2 (λ e r, ∃ f, decoded sel (db w) e = Some f ∧ r = inr f) l out.
Proof.
  intros Hrel. induction l as [|e l IH]; intros Hall.
  - exists []. by split.
  - destruct IH as (out & Hout & HF); [intros e' He'; apply Hall; by right|].
    destruct (Hall e) as [f Hf]; [by left|].
    exists (inr f :: out). split; [|constructor; [by exists f|done]].
    simpl. unfold bind at 1. unfold toFound at 1; simpl.
    rewrite bool_decide_true by done.
    unfold decoded in Hf.
    destruct (executionData (db w) !! id e) as [row|]; [|done]. simpl in *.
    destruct (parse (data row)) as [g|] eqn:Hg; [|done]. simpl in *.
    injection Hf as <-.
    unfold bind, parseData, deref, ret in *. simpl. rewrite Hg. simpl.
    unfold fmap in Hout. by rewrite Hout.
Qed.

(** X6: with [includeData] and [unflattenData] set, when every stored
    execution that meets the [where] of the query has its data record and
    its payload decodes, [findMultipleExecutions] returns one object for
    each of them and no other, in ascending order of [waitTill] when the
    query asks for that order; each object has the properties the query
    selects (all columns without a [select]) and no other column, the
    decoded run data and the workflow snapshot. *)
Theorem findMultiple_decoded q w includeW :
  (∀ i c, executions (db w) !! i = Some c →
          matchesWhere (whereClause q) (mkExecution i c) = true →
          ∃ row g, executionData (db w) !! i = Some row ∧ parse (data row) = Some g) →
  ∃ es out q',
    findMultipleExecutions q (mkOptions true includeW true None) w = (Ok out, q', w)
    ∧ es ≡ₚ filter (λ e, matchesWhere (whereClause q) e) (rows (db w))
    ∧ (orderByWaitTill q = true → ascendingWaitTill es)
    ∧ Forall2 (λ e r, ∃ row g,
                 executionData (db w) !! id e = Some row
                 ∧ parse (data row) = Some g
                 ∧ r = inr (mkFound (pick (select q) "id" (id e))
                              (selectColumns (select q) (columns e))
                              g (workflowData row)))
              es out.
Proof.
  intros Hall.
  destruct (forEach_toFound_decoded includeW (select q)
              (relations (pushRelation q (mkOptions true includeW true None)))
              w (findRows q (db w))) as (out & Hout & HF).
  { unfold pushRelation; simpl. apply elem_of_app. right. by left. }
  { intros [i c] He. rewrite findRows_perm in He.
    apply list_elem_of_filter in He as [Hm He]. apply elem_of_rows in He. simpl in He.
    destruct (Hall i c He) as (row & g & Hrow & Hg); [by apply Is_true_true|].
    unfold decoded. simpl. rewrite Hrow. simpl. rewrite Hg. by eexists. }
  exists (findRows q (db w)), out, (pushRelation q (mkOptions true includeW true None)).
  split_and!.
  - rewrite findMultipleExecutions_eq. by rewrite Hout.
  - apply findRows_perm.
  - apply findRows_ascending.
  - eapply Forall2_impl; [exact HF|]. intros e r (f & Hf & ->).
    unfold decoded in Hf.
    destruct (executionData (db w) !! id e) as [row|]; [|done]. simpl in Hf.
    destruct (parse (data row)) as [g|] eqn:Hg; [|done]. simpl in Hf.
    injection Hf as <-. by exists row, g.
Qed.

Lemma findMultiple_decoded_witness :
  ∃ es out q',
    findMultipleExecutions (findQuery 1000) (mkOptions true false true None) waitingWorld
    = (Ok out, q', waitingWorld)
    ∧ es ≡ₚ filter (λ e, matchesWhere (whereClause (findQuery 1000)) e)
              (rows (db waitingWorld))
    ∧ (orderByWaitTill (findQuery 1000) = true → ascendingWaitTill es)
    ∧ Forall2 (λ e r, ∃ row g,
                 executionData (db waitingWorld) !! id e = Some row
                 ∧ parse (data row) = Some g
                 ∧ r = inr (mkFound (pick (select (findQuery 1000)) "id" (id e))
                              (selectColumns (select (findQuery 1000)) (columns e))
                              g (workflowData row)))
              es out.
Proof.
  apply (findMultiple_decoded (findQuery 1000) waitingWorld false).
  intros i c Hc _. simpl in Hc. apply lookup_singleton_Some in Hc as [<- _].
  exists (mkExecutionData (stringify runData) someWorkflow), runData.
  split; [reflexivity|exact parse_stringify_runData].
Defined.

(** The call of the witness: the sweep's query selects [id] and
    [waitTill], and the object returned for execution [1] has these two,
    the decoded run data and the workflow snapshot, and no other column;
    the query object comes back with the relation appended. *)
Lemma findMultiple_selected_sample :
  findMultipleExecutions (findQuery 1000) (mkOptions true false true None) waitingWorld
  = (Ok [inr (mkFound (Some "1")
                (mkPartialColumns None None None None None None None None
                   (Some (Some 5000%Z)))
                runData someWorkflow)],
     mkFind ["id"; "waitTill"] (mkWhere None (Some 71000%Z) (Some crashed)) true
            ["executionData"],
     waitingWorld).
Proof. vm_compute. reflexivity. Qed.

(** X7: [findMultipleExecutions] is all or nothing: one selected execution
    without its data record makes the whole call throw, whatever the
    options and however many of the other executions are intact, and
    nothing is changed but the query object. *)
Theorem findMultiple_missing_data q w o e :
  e ∈ findRows q (db w) →
  executionData (db w) !! id e = None →
  ∃ err q', findMultipleExecutions q o w = (Throw err, q', w).
Proof.
  intros He Hrow. rewrite findMultipleExecutions_eq.
  destruct (forEach_some_throw (toFound o)
              ((λ e, project (select q) (load (db w) (relations (pushRelation q o)) e))
                 <$> findRows q (db w)) w
              (project (select q) (load (db w) (relations (pushRelation q o)) e)))
    as [err Herr].
  - intros. apply toFound_world.
  - apply list_elem_of_fmap. by exists e.
  - exists TypeError.
    unfold toFound, project, load, bind, deref, throw; simpl. rewrite Hrow.
    destruct (bool_decide _); by destruct (includeData o && unflattenData o).
  - rewrite Herr. by eexists _, _.
Qed.

Lemma findMultiple_missing_data_witness :
  ∃ err q', findMultipleExecutions (findQuery 1000) (mkOptions true true true None)
              orphanWorld = (Throw err, q', orphanWorld).
Proof.
  apply (findMultiple_missing_data (findQuery 1000) orphanWorld
           (mkOptions true true true None)
           (mkExecution "1" (columnsWith waiting (Some 5000%Z)))).
  - vm_compute. by left.
  - reflexivity.
Defined.

End FindMore.

(** ** Writing executions *)

Section WritesMore.

Lemma closed_runData : closed runData.
Proof.
  apply wellFormed_closed. apply (bool_decide_unpack (wellFormed runData)).
  vm_compute. exact I.
Qed.

Lemma closed_cyclic : closed cyclic.
Proof.
  apply wellFormed_closed. apply (bool_decide_unpack (wellFormed cyclic)).
  vm_compute. exact I.
Qed.

Lemma createNewExecution_then_find_witness :
  ∃ w' g' φ,
    createNewExecution newExecution (worldOf emptyDb [])
    = (Ok (mkExecution "1" (columnsWith running None)), w')
    ∧ findSingleExecution "1" (mkOptions true true true None) w'
      = (Ok (Some (inr (mkResponse "1" g' someWorkflow (columnsWith running None)))), w')
    ∧ sameGraph φ runData g'.
Proof.
  apply (createNewExecution_then_find newExecution (worldOf emptyDb []) closed_runData);
    done.
Defined.

Lemma updateExecution_eq i p w :
  updateExecution i p w
  = if bool_decide (head (faults w) = Some true)
    then (Throw QueryFailedError, withFaults (tail (faults w)) w)
    else (Ok tt,
          withDb (mkDatabase (alter (setColumns p) i (executions (db w)))
                    (executionData (db w)) (executionMetadata (db w)) (nextId (db w)))
                 (withFaults (tail (faults w)) w)).
Proof.
  unfold updateExecution, bind. rewrite fallible_eq. by case_bool_decide.
Qed.

Lemma updateExecutionData_eq i wd dt w :
  updateExecutionData i wd dt w
  = if bool_decide (head (faults w) = Some true)
    then (Throw QueryFailedError, withFaults (tail (faults w)) w)
    else (Ok tt,
          withDb (mkDatabase (executions (db w))
                    (alter (λ row, mkExecutionData (default (data row) dt)
                                     (default (workflowData row) wd))
                           i (executionData (db w)))
                    (executionMetadata (db w)) (nextId (db w)))
                 (withFaults (tail (faults w)) w)).
Proof.
  unfold updateExecutionData, bind. rewrite fallible_eq. by case_bool_decide.
Qed.

(** What [updateExistingExecution] does to the store, outcome by
    outcome. *)
Lemma updateExistingExecution_cases i p w :
  ∃ r w', updateExistingExecution i p w = (r, w')
    ∧ executionMetadata (db w') = executionMetadata (db w)
    ∧ nextId (db w') = nextId (db w)
    ∧ ((∃ e, r = Throw e)
         ∧ executions (db w') = executions (db w)
         ∧ executionData (db w') = executionData (db w)
       ∨ r = Ok tt
         ∧ executions (db w') = updatedExecutions i p (db w)
         ∧ executionData (db w') = updatedData i p (db w)).
Proof.
  unfold updateExistingExecution, transaction, bind, updatedExecutions, updatedData.
  destruct (hasKeys (p_columns p)).
  - rewrite updateExecution_eq. case_bool_decide.
    + eexists _, _. split; [done|]. simpl. split_and!; try done. left. eauto.
    + destruct (bool_decide (is_Some (p_data p)) || bool_decide (is_Some (p_workflowData p))).
      * rewrite updateExecutionData_eq. case_bool_decide.
        -- eexists _, _. split; [done|]. simpl. split_and!; try done. left. eauto.
        -- eexists _, _. split; [done|]. simpl. split_and!; try done. by right.
      * eexists _, _. split; [done|]. simpl. split_and!; try done. by right.
  - unfold ret at 1.
    destruct (bool_decide (is_Some (p_data p)) || bool_decide (is_Some (p_workflowData p))).
    + rewrite updateExecutionData_eq. case_bool_decide.
      * eexists _, _. split; [done|]. simpl. split_and!; try done. left. eauto.
      * eexists _, _. split; [done|]. simpl. split_and!; try done. by right.
    + eexists _, _. split; [done|]. simpl. split_and!; try done. by right.
Qed.

Lemma Database_eq d d' :
  executions d = executions d' → executionData d = executionData d' →
  executionMetadata d = executionMetadata d' → nextId d = nextId d' → d = d'.
Proof. destruct d, d'; simpl. by intros -> -> -> ->. Qed.

(** What [createNewExecution] does to the store, outcome by outcome. *)
Lemma createNewExecution_cases x w :
  ∃ r w', createNewExecution x w = (r, w')
    ∧ executionMetadata (db w') = executionMetadata (db w)
    ∧ (executions (db w') = executions (db w)
       ∨ executions (db w') = <[generatedId x w := new_columns x]> (executions (db w)))
    ∧ (executionData (db w') = executionData (db w)
       ∨ executions (db w') = <[generatedId x w := new_columns x]> (executions (db w))
         ∧ executionData (db w')
           = <[generatedId x w := mkExecutionData (stringify (new_data x))
                                    (new_workflowData x)]> (executionData (db w))).
Proof.
  unfold createNewExecution, bind. rewrite saveExecution_eq.
  case_bool_decide.
  - eexists _, _. split; [done|]. simpl. split_and!; try done; by left.
  - rewrite saveExecutionData_eq. simpl. case_bool_decide.
    + eexists _, _. split; [done|]. simpl. split_and!; try done; [by right|by left].
    + eexists _, _. split; [done|]. simpl. split_and!; try done; by right.
Qed.

(** X9: [createNewExecution] touches the rows of one id only, the id the
    new execution is stored under: whatever the outcome, every other
    execution record and data record, and all metadata, stay as they
    were. *)
Theorem create_touches_one_record x w j :
  j ≠ generatedId x w →
  executions (db (createNewExecution x w).2) !! j = executions (db w) !! j
  ∧ executionData (db (createNewExecution x w).2) !! j = executionData (db w) !! j
  ∧ executionMetadata (db (createNewExecution x w).2) = executionMetadata (db w).
Proof.
  intros Hj.
  destruct (createNewExecution_cases x w) as (r & w' & -> & Hmd & He & Hd). simpl.
  split_and!; [| |done].
  - destruct He as [->| ->]; [done|]. by rewrite lookup_insert_ne.
  - destruct Hd as [->|[_ ->]]; [done|]. by rewrite lookup_insert_ne.
Qed.

Lemma create_touches_one_record_witness :
  "1" ≠ generatedId newExecution waitingWorld
  ∧ executions (db (createNewExecution newExecution waitingWorld).2) !! "1"
    = executions (db waitingWorld) !! "1"
  ∧ executionData (db (createNewExecution newExecution waitingWorld).2) !! "1"
    = executionData (db waitingWorld) !! "1"
  ∧ executionMetadata (db (createNewExecution newExecution waitingWorld).2)
    = executionMetadata (db waitingWorld).
Proof.
  assert ("1" ≠ generatedId newExecution waitingWorld) as Hne by (by vm_compute).
  split; [exact Hne|].
  exact (create_touches_one_record newExecution waitingWorld "1" Hne).
Defined.

(** X10: [updateExistingExecution] is all or nothing: when it throws,
    whichever of its two statements was rejected, the store is exactly as
    before the call. *)
Theorem update_all_or_nothing i p w e w' :
  updateExistingExecution i p w = (Throw e, w') → db w' = db w.
Proof.
  intros Hrun.
  destruct (updateExistingExecution_cases i p w) as (r & w1 & Hcase & Hmd & Hn & H).
  rewrite Hrun in Hcase. injection Hcase as <- <-.
  destruct H as [(_ & He & Hd)|(? & _)]; [|done].
  by apply Database_eq.
Qed.

Lemma update_all_or_nothing_witness :
  updateExistingExecution "1" bothUpdate
    (worldOf (storeWith (columnsWith waiting (Some 5000%Z))) [false; true])
  = (Throw QueryFailedError, worldOf (storeWith (columnsWith waiting (Some 5000%Z))) [])
  ∧ db (worldOf (storeWith (columnsWith waiting (Some 5000%Z))) [])
    = db (worldOf (storeWith (columnsWith waiting (Some 5000%Z))) [false; true]).
Proof.
  assert (updateExistingExecution "1" bothUpdate
            (worldOf (storeWith (columnsWith waiting (Some 5000%Z))) [false; true])
          = (Throw QueryFailedError,
             worldOf (storeWith (columnsWith waiting (Some 5000%Z))) [])) as Hrun
    by (vm_compute; reflexivity).
  split; [exact Hrun|].
  exact (update_all_or_nothing _ _ _ _ _ Hrun).
Defined.

(** X11: [updateExistingExecution] never creates or deletes a row, and
    never touches the rows of another execution: whatever the outcome, the
    same ids have an execution record and a data record as before, and the
    records of every id but the one given are unchanged. *)
Theorem update_touches_one_record i p w :
  (∀ k, is_Some (executions (db (updateExistingExecution i p w).2) !! k)
        ↔ is_Some (executions (db w) !! k))
  ∧ (∀ k, is_Some (executionData (db (updateExistingExecution i p w).2) !! k)
          ↔ is_Some (executionData (db w) !! k))
  ∧ (∀ j, j ≠ i →
       executions (db (updateExistingExecution i p w).2) !! j = executions (db w) !! j
       ∧ executionData (db (updateExistingExecution i p w).2) !! j
         = executionData (db w) !! j).
Proof.
  destruct (updateExistingExecution_cases i p w) as (r & w' & -> & _ & _ & H). simpl.
  destruct H as [(_ & -> & ->)|(_ & -> & ->)]; [done|].
  unfold updatedExecutions, updatedData.
  split_and!.
  - intros k. destruct (hasKeys _); [|done]. apply lookup_alter_is_Some.
  - intros k. destruct (_ || _); [|done]. apply lookup_alter_is_Some.
  - intros j Hj. split.
    + destruct (hasKeys _); [|done]. by apply lookup_alter_ne.
    + destruct (_ || _); [|done]. by apply lookup_alter_ne.
Qed.

Lemma Forall_false_head (l : list bool) :
  Forall (λ b, b = false) l → head l ≠ Some true.
Proof. intros Hl Hh%head_Some_elem_of. rewrite Forall_forall in Hl. by apply Hl in Hh. Qed.

Lemma Forall_false_tail (l : list bool) :
  Forall (λ b, b = false) l → Forall (λ b, b = false) (tail l).
Proof. intros Hl. destruct l; [done|]. by apply Forall_cons in Hl as [_ ?]. Qed.

Lemma updateExistingExecution_accepted i p w :
  Forall (λ b, b = false) (faults w) →
  ∃ w', updateExistingExecution i p w = (Ok tt, w')
        ∧ executions (db w') = updatedExecutions i p (db w)
        ∧ executionData (db w') = updatedData i p (db w).
Proof.
  intros Hf.
  pose proof (Forall_false_head _ Hf) as H0.
  pose proof (Forall_false_head _ (Forall_false_tail _ Hf)) as H1.
  unfold updateExistingExecution, transaction, bind, updatedExecutions, updatedData.
  destruct (hasKeys (p_columns p)).
  - rewrite updateExecution_eq. rewrite bool_decide_false by done.
    destruct (bool_decide (is_Some (p_data p)) || bool_decide (is_Some (p_workflowData p))).
    + rewrite updateExecutionData_eq. simpl. rewrite bool_decide_false by done.
      by eexists.
    + by eexists.
  - unfold ret at 1.
    destruct (bool_decide (is_Some (p_data p)) || bool_decide (is_Some (p_workflowData p))).
    + rewrite updateExecutionData_eq. rewrite bool_decide_false by done. by eexists.
    + by eexists.
Qed.



(** What [deleteExecution] does, outcome by outcome. *)
Lemma deleteExecution_cases i w :
  ∃ r w', deleteExecution i w = (r, w')
    ∧ (db w' = db w
       ∨ r = Ok tt
         ∧ binaryDeleted w' = binaryDeleted w ++ [i]
         ∧ db w' = mkDatabase (delete i (executions (db w)))
                     (delete i (executionData (db w)))
                     (filter (λ md, md_executionId md ≠ i) (executionMetadata (db w)))
                     (nextId (db w))).
Proof.
  unfold deleteExecution, bind. rewrite deleteBinaryData_eq. case_bool_decide.
  - eexists _, _. split; [done|]. by left.
  - unfold deleteExecutionRow, bind. rewrite fallible_eq. simpl. case_bool_decide.
    + eexists _, _. split; [done|]. by left.
    + eexists _, _. split; [done|]. right. by split_and!.
Qed.

(** X13: when the binary cleanup and the database accept the calls,
    [deleteExecution] removes the execution with its data record and
    exactly its metadata, leaves every other execution as it was, asks for
    the binary cleanup of this one execution, and a later
    [findSingleExecution] no longer finds it. *)
Theorem delete_removes_one_execution i w :
  faults w !! 0 ≠ Some true →
  faults w !! 1 ≠ Some true →
  ∃ w', deleteExecution i w = (Ok tt, w')
    ∧ executions (db w') !! i = None
    ∧ executionData (db w') !! i = None
    ∧ (∀ md, md ∈ executionMetadata (db w')
             ↔ md ∈ executionMetadata (db w) ∧ md_executionId md ≠ i)
    ∧ (∀ j, j ≠ i → executions (db w') !! j = executions (db w) !! j
                    ∧ executionData (db w') !! j = executionData (db w) !! j)
    ∧ binaryDeleted w' = binaryDeleted w ++ [i]
    ∧ (∀ o, extraWhere o = None → findSingleExecution i o w' = (Ok None, w')).
Proof.
  intros H0 H1.
  destruct (deleteExecution_ok i w H0 H1) as (w' & Hrun & Hb & He & Hd & Hmd).
  exists w'. split_and!; try done.
  - rewrite He. apply lookup_delete_eq.
  - rewrite Hd. apply lookup_delete_eq.
  - intros md. rewrite Hmd, list_elem_of_filter. tauto.
  - intros j Hj. rewrite He, Hd. by rewrite !lookup_delete_ne.
  - intros o Ho. apply findSingleExecution_unknown; [done|].
    rewrite He. apply lookup_delete_eq.
Qed.

Lemma delete_removes_one_execution_witness :
  ∃ w', deleteExecution "1" waitingWorld = (Ok tt, w')
    ∧ executions (db w') !! "1" = None
    ∧ executionData (db w') !! "1" = None
    ∧ (∀ md, md ∈ executionMetadata (db w')
             ↔ md ∈ executionMetadata (db waitingWorld) ∧ md_executionId md ≠ "1")
    ∧ (∀ j, j ≠ "1" →
         executions (db w') !! j = executions (db waitingWorld) !! j
         ∧ executionData (db w') !! j = executionData (db waitingWorld) !! j)
    ∧ binaryDeleted w' = binaryDeleted waitingWorld ++ ["1"]
    ∧ (∀ o, extraWhere o = None → findSingleExecution "1" o w' = (Ok None, w')).
Proof. apply (delete_removes_one_execution "1" waitingWorld); done. Defined.

(** X14: [deleteExecution] is not atomic: when the binary cleanup is
    accepted and the database then rejects the deletion, the call throws,
    the rows of the execution are all still stored, and the binary
    payloads have been deleted. *)
Theorem delete_rejected_after_cleanup i w rest :
  faults w = false :: true :: rest →
  ∃ w', deleteExecution i w = (Throw QueryFailedError, w')
    ∧ db w' = db w
    ∧ binaryDeleted w' = binaryDeleted w ++ [i].
Proof.
  intros Hf. unfold deleteExecution, bind.
  rewrite deleteBinaryData_eq, Hf. rewrite bool_decide_false by done.
  unfold deleteExecutionRow, bind. rewrite fallible_eq. simpl.
  by eexists.
Qed.

Lemma delete_rejected_after_cleanup_witness :
  ∃ w', deleteExecution "1"
          (worldOf (storeWith (columnsWith waiting (Some 5000%Z))) [false; true])
        = (Throw QueryFailedError, w')
    ∧ db w' = storeWith (columnsWith waiting (Some 5000%Z))
    ∧ binaryDeleted w' = ["1"].
Proof.
  apply (delete_rejected_after_cleanup "1"
           (worldOf (storeWith (columnsWith waiting (Some 5000%Z))) [false; true]) []).
  reflexivity.
Defined.

(** X15: the foreign key of the data table survives every write of the
    repository: if every data record belongs to an execution record, that
    still holds after [createNewExecution], [updateExistingExecution] and
    [deleteExecution], whether the call succeeds or throws (the deletion
    cascading as the data model says). *)
Theorem writes_keep_data_owned w :
  owned (db w) →
  (∀ x, owned (db (createNewExecution x w).2))
  ∧ (∀ i p, owned (db (updateExistingExecution i p w).2))
  ∧ (∀ i, owned (db (deleteExecution i w).2)).
Proof.
  intros Ho. split_and!.
  - intros x.
    destruct (createNewExecution_cases x w) as (r & w' & -> & _ & He & Hd). simpl.
    intros k Hk.
    destruct Hd as [Hd|[He' Hd]].
    + rewrite Hd in Hk. apply Ho in Hk.
      destruct He as [->| ->]; [done|]. apply lookup_insert_is_Some'. by right.
    + rewrite He'. rewrite Hd in Hk.
      apply lookup_insert_is_Some' in Hk. apply lookup_insert_is_Some'.
      destruct Hk as [?|Hk]; [by left|]. right. by apply Ho.
  - intros i p.
    destruct (updateExistingExecution_cases i p w) as (r & w' & -> & _ & _ & H). simpl.
    intros k Hk.
    destruct H as [(_ & -> & Hd)|(_ & -> & Hd)]; rewrite Hd in Hk; [by apply Ho|].
    unfold updatedExecutions, updatedData in *.
    assert (is_Some (executionData (db w) !! k)) as Hk'.
    { destruct (_ || _); [|done]. by apply lookup_alter_is_Some in Hk. }
    apply Ho in Hk'. destruct (hasKeys _); [|done]. by apply lookup_alter_is_Some.
  - intros i.
    destruct (deleteExecution_cases i w) as (r & w' & -> & H). simpl.
    destruct H as [->|(_ & _ & ->)]; [done|].
    intros k Hk. simpl in *.
    destruct (decide (k = i)) as [->|Hne].
    + rewrite lookup_delete_eq in Hk. by destruct Hk.
    + rewrite lookup_delete_ne in Hk by done. rewrite lookup_delete_ne by done.
      by apply Ho.
Qed.

Lemma writes_keep_data_owned_witness :
  owned (db waitingWorld)
  ∧ (∀ x, owned (db (createNewExecution x waitingWorld).2))
  ∧ (∀ i p, owned (db (updateExistingExecution i p waitingWorld).2))
  ∧ (∀ i, owned (db (deleteExecution i waitingWorld).2)).
Proof.
  assert (owned (db waitingWorld)) as Ho by apply owned_storeWith.
  split; [exact Ho|]. exact (writes_keep_data_owned waitingWorld Ho).
Defined.

End WritesMore.

(** ** Filters and search *)

Section FilterFacts.

Lemma metadata_fold mds : ∀ q,
  conditions (foldl (λ q md, mkQuery (conditions q ++ [MetadataKeyValue]) true (Some md))
                    q mds)
  = conditions q ++ replicate (length mds) MetadataKeyValue
  ∧ parameters (foldl (λ q md, mkQuery (conditions q ++ [MetadataKeyValue]) true (Some md))
                      q mds)
    = match last mds with Some md => Some md | None => parameters q end.
Proof.
  induction mds as [|md mds IH]; intros q; simpl.
  - by rewrite app_nil_r.
  - destruct (IH (mkQuery (conditions q ++ [MetadataKeyValue]) true (Some md)))
      as [-> ->]. simpl. split.
    + by rewrite <- app_assoc.
    + rewrite last_cons. by destruct (last mds).
Qed.

Lemma parseFilters_conditions advanced qb filters :
  conditions (parseFiltersToQueryBuilder advanced qb filters)
  = conditions qb ++ filterConditions advanced filters.
Proof.
  unfold parseFiltersToQueryBuilder, filterConditions, andWhere.
  destruct (filters ≫= f_status) as [l|],
           (filters ≫= f_finished) as [[|]|],
           (filters ≫= f_metadata) as [mds|], advanced,
           (filters ≫= f_startedAfter) as [ta|],
           (filters ≫= f_startedBefore) as [tb|],
           (filters ≫= f_workflowId) as [wf|];
    try case_bool_decide; simpl;
    rewrite ?(proj1 (metadata_fold _ _)); simpl;
    rewrite ?app_nil_r, <- ?app_assoc; simpl; try done.
Qed.

Lemma parseFilters_parameters advanced qb filters :
  parameters (parseFiltersToQueryBuilder advanced qb filters)
  = match metadataPairs advanced filters ≫= last with
    | Some md => Some md
    | None => parameters qb
    end.
Proof.
  unfold parseFiltersToQueryBuilder, metadataPairs, andWhere.
  destruct (filters ≫= f_status) as [l|],
           (filters ≫= f_finished) as [[|]|],
           (filters ≫= f_metadata) as [mds|], advanced,
           (filters ≫= f_startedAfter) as [ta|],
           (filters ≫= f_startedBefore) as [tb|],
           (filters ≫= f_workflowId) as [wf|];
    try case_bool_decide; simpl;
    rewrite ?(proj2 (metadata_fold _ _)); simpl; try done.
Qed.

Lemma parseFilters_join advanced qb filters mds :
  metadataPairs advanced filters = Some mds →
  joinMetadata (parseFiltersToQueryBuilder advanced qb filters) = true.
Proof.
  unfold metadataPairs, parseFiltersToQueryBuilder, andWhere.
  destruct advanced; [|done]. intros ->.
  assert (∀ l q, joinMetadata q = true →
            joinMetadata (foldl (λ q md, mkQuery (conditions q ++ [MetadataKeyValue])
                                           true (Some md)) q l) = true) as Hfold.
  { induction l as [|md l IH]; intros q Hq; simpl; [done|]. by apply IH. }
  destruct (filters ≫= f_status), (filters ≫= f_finished) as [[|]|],
           (filters ≫= f_startedAfter), (filters ≫= f_startedBefore),
           (filters ≫= f_workflowId);
    try case_bool_decide; simpl; by apply Hfold.
Qed.

(** X16: the filters [parseFiltersToQueryBuilder] ignores. No filter
    object leaves the query as it is; [finished: false] adds no condition,
    so it selects what no [finished] filter selects; the metadata pairs
    are dropped when the advanced filters are disabled; an empty
    [workflowId] is dropped. *)
Theorem filters_ignored advanced qb s fin m a b wf :
  parseFiltersToQueryBuilder advanced qb None = qb
  ∧ parseFiltersToQueryBuilder advanced qb (Some (mkFilter s (Some false) m a b wf))
    = parseFiltersToQueryBuilder advanced qb (Some (mkFilter s None m a b wf))
  ∧ parseFiltersToQueryBuilder false qb (Some (mkFilter s fin m a b wf))
    = parseFiltersToQueryBuilder false qb (Some (mkFilter s fin None a b wf))
  ∧ parseFiltersToQueryBuilder advanced qb (Some (mkFilter s fin m a b (Some EmptyString)))
    = parseFiltersToQueryBuilder advanced qb (Some (mkFilter s fin m a b None)).
Proof.
  split_and!; try done.
  unfold parseFiltersToQueryBuilder; simpl. by destruct m.
Qed.

End FilterFacts.

Section SearchFacts.

Context (workflows : gmap string string) (idLess : string → string → bool).

Lemma elem_of_searchRows qb onId d x :
  x ∈ searchRows workflows qb onId d
  ↔ x.1 ∈ rows d
    ∧ workflowOf workflows x.1 = Some x.2
    ∧ onId x.1 = true
    ∧ ∃ md, md ∈ joined d qb x.1 ∧ forallb (holds qb x.1 md) (conditions qb) = true.
Proof.
  unfold searchRows. rewrite list_elem_of_bind. split.
  - intros (e & Hx & He).
    destruct (workflowOf workflows e) as [name|] eqn:Hw; [|by apply elem_of_nil in Hx].
    destruct (onId e) eqn:Hon; [|by apply elem_of_nil in Hx].
    apply list_elem_of_fmap in Hx as (md & -> & Hmd).
    apply list_elem_of_filter in Hmd as [Hc Hmd]. simpl.
    split_and!; try done. exists md. split; [done|]. by apply Is_true_true.
  - intros (He & Hw & Hon & md & Hmd & Hc). exists x.1. split; [|done].
    rewrite Hw, Hon. apply list_elem_of_fmap. exists md. split; [by destruct x|].
    apply list_elem_of_filter. split; [by apply Is_true_true|done].
Qed.

Lemma distinctById_sublist l : ∀ seen, distinctById seen l `sublist_of` l.
Proof.
  induction l as [|x l IH]; intros seen; simpl; [constructor|].
  case_bool_decide; [by apply sublist_cons|by apply sublist_skip].
Qed.

Lemma distinctById_fresh l : ∀ seen x, x ∈ distinctById seen l → id x.1 ∉ seen.
Proof.
  induction l as [|y l IH]; intros seen x; simpl; [by intros ?%elem_of_nil|].
  case_bool_decide as Hy; [apply IH|].
  intros [->|Hx]%elem_of_cons; [done|].
  apply IH in Hx. intros Hs. apply Hx. by right.
Qed.

Lemma distinctById_NoDup l : ∀ seen, NoDup ((λ x, id x.1) <$> distinctById seen l).
Proof.
  induction l as [|y l IH]; intros seen; simpl; [constructor|].
  case_bool_decide as Hy; [apply IH|].
  simpl. constructor; [|apply IH].
  intros (x & Hid & Hx)%list_elem_of_fmap.
  apply distinctById_fresh in Hx. apply Hx. rewrite <- Hid. by left.
Qed.

(** Every id of the list has its first row in the result. *)
Lemma distinctById_first l : ∀ seen x,
  x ∈ l → id x.1 ∉ seen → ∃ y, y ∈ distinctById seen l ∧ id y.1 = id x.1.
Proof.
  induction l as [|z l IH]; intros seen x Hx Hseen; [by apply elem_of_nil in Hx|].
  simpl. case_bool_decide as Hz.
  - apply elem_of_cons in Hx as [->|Hx]; [done|]. by apply IH.
  - destruct (decide (id z.1 = id x.1)) as [Heq|Hne].
    + exists z. split; [by left|done].
    + apply elem_of_cons in Hx as [->|Hx]; [done|].
      destruct (IH (id z.1 :: seen) x Hx) as (y & Hy & Hid).
      { intros [?|?]%elem_of_cons; [congruence|done]. }
      exists y. split; [by right|done].
Qed.

Lemma limited_sublist {A} n (l : list A) : limited n l `sublist_of` l.
Proof. destruct n; [done|]. apply sublist_take. Qed.

Lemma limited_length {A} n (l : list A) : 0 < n → length (limited n l) ≤ n.
Proof. destruct n; [lia|]. intros _. simpl. rewrite length_take. lia. Qed.

Lemma StronglySorted_sublist {A} (R : relation A) l1 l2 :
  l1 `sublist_of` l2 → StronglySorted R l2 → StronglySorted R l1.
Proof.
  induction 1 as [|x l1 l2 Hsub IH|x l1 l2 Hsub IH]; intros Hs; [done| |].
  - apply StronglySorted_cons in Hs as [Hall Hs].
    apply StronglySorted_cons. split; [|by apply IH].
    rewrite Forall_forall in *. intros y Hy. apply Hall.
    by eapply elem_of_sublist.
  - apply StronglySorted_cons in Hs as [_ Hs]. by apply IH.
Qed.

#[local] Instance startedAtDesc_trans : Transitive startedAtDesc.
Proof. intros a b c. unfold startedAtDesc. lia. Qed.

#[local] Instance startedAtDesc_total : Total startedAtDesc.
Proof. intros a b. unfold startedAtDesc. lia. Qed.

Lemma searchQuery_conditions advanced filters accessible :
  conditions (searchQuery advanced filters accessible)
  = WorkflowIdIn accessible :: filterConditions advanced filters.
Proof. unfold searchQuery. by rewrite parseFilters_conditions. Qed.

Lemma searchQuery_parameters advanced filters accessible :
  parameters (searchQuery advanced filters accessible)
  = metadataPairs advanced filters ≫= last.
Proof.
  unfold searchQuery. rewrite parseFilters_parameters. simpl.
  by destruct (metadataPairs advanced filters ≫= last).
Qed.

Lemma filterConditions_hold qb e md advanced filters :
  forallb (holds qb e md) (filterConditions advanced filters) = true →
  filterHolds filters (columns e).
Proof.
  unfold filterConditions, filterHolds.
  rewrite !forallb_app, !andb_true_iff.
  intros (Hs & Hf & _ & Ha & Hb & Hw). split_and!.
  - intros l Hl. rewrite Hl in Hs. simpl in Hs.
    rewrite andb_true_r in Hs. by apply bool_decide_eq_true in Hs.
  - intros Hfin. rewrite Hfin in Hf. simpl in Hf.
    rewrite andb_true_r in Hf. by apply bool_decide_eq_true in Hf.
  - intros t Ht. rewrite Ht in Ha. simpl in Ha.
    rewrite andb_true_r in Ha. by apply bool_decide_eq_true in Ha.
  - intros t Ht. rewrite Ht in Hb. simpl in Hb.
    rewrite andb_true_r in Hb. by apply bool_decide_eq_true in Hb.
  - intros wf Hwf Hne. rewrite Hwf in Hw. rewrite bool_decide_false in Hw by done.
    simpl in Hw. rewrite andb_true_r in Hw. by apply bool_decide_eq_true in Hw.
Qed.

Lemma filterConditions_hold_inv qb e md advanced filters :
  metadataPairs advanced filters = None →
  filterHolds filters (columns e) →
  forallb (holds qb e md) (filterConditions advanced filters) = true.
Proof.
  unfold filterConditions, filterHolds, metadataPairs.
  intros Hmeta (Hs & Hf & Ha & Hb & Hw).
  rewrite !forallb_app, !andb_true_iff. split_and!.
  - destruct (filters ≫= f_status) as [l|]; [|done]. simpl.
    rewrite andb_true_r. apply bool_decide_eq_true. by apply Hs.
  - destruct (filters ≫= f_finished) as [[|]|]; try done. simpl.
    rewrite andb_true_r. apply bool_decide_eq_true. by apply Hf.
  - destruct advanced; [by rewrite Hmeta|]. by destruct (filters ≫= f_metadata).
  - destruct (filters ≫= f_startedAfter) as [t|]; [|done]. simpl.
    rewrite andb_true_r. apply bool_decide_eq_true. by apply Ha.
  - destruct (filters ≫= f_startedBefore) as [t|]; [|done]. simpl.
    rewrite andb_true_r. apply bool_decide_eq_true. by apply Hb.
  - destruct (filters ≫= f_workflowId) as [wf|]; [|done].
    case_bool_decide as Hwf; [done|]. simpl.
    rewrite andb_true_r. apply bool_decide_eq_true. by apply Hw.
Qed.

Lemma idConditions_spec excluded additional e :
  idConditions idLess excluded additional e = true
  ↔ (id e ∉ excluded) ∧ withinBounds idLess additional (id e).
Proof.
  unfold idConditions, withinBounds. rewrite !andb_true_iff. split.
  - intros [[Hex Hlast] Hfirst]. split_and!.
    + case_bool_decide as Hlen; [by apply bool_decide_eq_true in Hex|].
      destruct excluded; [apply not_elem_of_nil|simpl in Hlen; lia].
    + intros l Hl Hne. rewrite Hl in Hlast. by rewrite bool_decide_false in Hlast.
    + intros f Hf Hne. rewrite Hf in Hfirst. by rewrite bool_decide_false in Hfirst.
  - intros (Hex & Hlast & Hfirst). split_and!.
    + case_bool_decide; [|done]. by apply bool_decide_eq_true.
    + destruct (additional ≫= lastId) as [l|]; [|done].
      case_bool_decide; [done|]. by apply Hlast.
    + destruct (additional ≫= firstId) as [f|]; [|done].
      case_bool_decide; [done|]. by apply Hfirst.
Qed.

Lemma searchExecutions_eq filters limit excluded accessible additional w :
  searchExecutions workflows idLess filters limit excluded accessible additional w
  = (Ok (if bool_decide (length accessible = 0) then []
         else (λ x, mkSummary (id x.1) (columns x.1) x.2)
                <$> searchPage workflows idLess filters limit excluded accessible
                      additional w), w).
Proof. unfold searchExecutions. by case_bool_decide. Qed.

Lemma elem_of_searchPage filters limit excluded accessible additional w x :
  x ∈ searchPage workflows idLess filters limit excluded accessible additional w →
  x ∈ searchRows workflows
        (searchQuery (advancedExecutionFilters w) filters accessible)
        (idConditions idLess excluded additional) (db w).
Proof.
  unfold searchPage. intros Hx.
  apply (λ H, elem_of_sublist _ _ _ H (distinctById_sublist _ _)) in Hx.
  apply (λ H, elem_of_sublist _ _ _ H (limited_sublist _ _)) in Hx.
  by rewrite merge_sort_Permutation in Hx.
Qed.

Lemma joined_nonempty d qb e : ∃ md, md ∈ joined d qb e.
Proof.
  unfold joined. destruct (joinMetadata qb); [|exists None; by left].
  destruct (filter _ (executionMetadata d)) as [|r rs]; [exists None; by left|].
  exists (Some r). by left.
Qed.

Lemma joined_metadata d qb e row :
  joinMetadata qb = true → Some row ∈ joined d qb e →
  row ∈ executionMetadata d ∧ md_executionId row = id e.
Proof.
  intros Hj Hmd. unfold joined in Hmd. rewrite Hj in Hmd.
  destruct (filter _ (executionMetadata d)) as [|r rs] eqn:Hf.
  - by apply list_elem_of_singleton in Hmd.
  - apply list_elem_of_fmap in Hmd as (row' & [= <-] & Hrow).
    assert (row ∈ filter (λ md, md_executionId md = id e) (executionMetadata d))
      as Hr by (by rewrite Hf).
    apply list_elem_of_filter in Hr as [? ?]. done.
Qed.

(** X17: [searchExecutions] never throws and changes nothing; with no
    accessible workflow it returns the empty list; and every summary it
    returns is a stored execution, with the stored columns, of a workflow
    that is among the accessible ones and whose name the summary carries,
    is not among the excluded ids, and lies within the [lastId] and
    [firstId] bounds. *)
Theorem search_within_scope filters limit excluded accessible additional w :
  ∃ out,
    searchExecutions workflows idLess filters limit excluded accessible additional w
    = (Ok out, w)
    ∧ (accessible = [] → out = [])
    ∧ ∀ s, s ∈ out →
        executions (db w) !! sum_id s = Some (sum_columns s)
        ∧ (∃ wf, workflowId (sum_columns s) = Some wf
                 ∧ wf ∈ accessible
                 ∧ workflows !! wf = Some (sum_workflowName s))
        ∧ (sum_id s ∉ excluded)
        ∧ withinBounds idLess additional (sum_id s).
Proof.
  eexists. split; [apply searchExecutions_eq|]. split.
  { by intros ->. }
  intros s Hs. case_bool_decide as Hacc; [by apply elem_of_nil in Hs|].
  apply list_elem_of_fmap in Hs as ([e name] & -> & Hx). simpl.
  apply elem_of_searchPage, elem_of_searchRows in Hx as (He & Hw & Hon & md & _ & Hc).
  simpl in *. rewrite searchQuery_conditions in Hc. simpl in Hc.
  apply andb_true_iff in Hc as [Hscope _].
  apply idConditions_spec in Hon as [Hex Hb].
  split_and!; try done.
  - by apply elem_of_rows.
  - unfold workflowOf in Hw. destruct (workflowId (columns e)) as [wf|]; [|done].
    simpl in Hw. exists wf. split_and!; try done. by apply bool_decide_eq_true in Hscope.
Qed.

(** X18: every summary [searchExecutions] returns meets the simple
    filters given: its status is among the statuses asked for, it is
    finished when [finished: true] is asked for, it started within the
    [startedAfter] and [startedBefore] bounds, and it belongs to the
    workflow asked for. *)
Theorem search_honours_filters filters limit excluded accessible additional w :
  ∃ out,
    searchExecutions workflows idLess filters limit excluded accessible additional w
    = (Ok out, w)
    ∧ ∀ s, s ∈ out → filterHolds filters (sum_columns s).
Proof.
  eexists. split; [apply searchExecutions_eq|].
  case_bool_decide as Hacc; [by intros s ?%elem_of_nil|].
  intros s ([e name] & -> & Hx)%list_elem_of_fmap. simpl.
  apply elem_of_searchPage, elem_of_searchRows in Hx as (_ & _ & _ & md & _ & Hc).
  simpl in *. rewrite searchQuery_conditions in Hc. simpl in Hc.
  apply andb_true_iff in Hc as [_ Hc]. by eapply filterConditions_hold.
Qed.

(** X19: with the advanced filters enabled and metadata pairs given,
    every summary [searchExecutions] returns has a metadata entry with the
    key and the value of the last pair. (Each pair adds the condition
    [md.key = :key AND md.value = :value], and all of them share the two
    parameters, which hold the pair bound last.) *)
Theorem search_metadata_last_pair filters limit excluded accessible additional w
    mds k v :
  advancedExecutionFilters w = true →
  (filters ≫= f_metadata) = Some mds →
  last mds = Some (k, v) →
  ∃ out,
    searchExecutions workflows idLess filters limit excluded accessible additional w
    = (Ok out, w)
    ∧ ∀ s, s ∈ out →
        ∃ md, md ∈ executionMetadata (db w)
              ∧ md_executionId md = sum_id s ∧ md_key md = k ∧ md_value md = v.
Proof.
  intros Hadv Hmds Hlast. eexists. split; [apply searchExecutions_eq|].
  case_bool_decide as Hacc; [by intros s ?%elem_of_nil|].
  intros s ([e name] & -> & Hx)%list_elem_of_fmap. simpl.
  apply elem_of_searchPage, elem_of_searchRows in Hx as (_ & _ & _ & md & Hmd & Hc).
  simpl in *.
  assert (metadataPairs (advancedExecutionFilters w) filters = Some mds) as Hpairs.
  { unfold metadataPairs. by rewrite Hadv. }
  set (qb := searchQuery (advancedExecutionFilters w) filters accessible) in *.
  assert (parameters qb = Some (k, v)) as Hpar.
  { unfold qb. rewrite searchQuery_parameters, Hpairs. simpl. by rewrite Hlast. }
  assert (MetadataKeyValue ∈ conditions qb) as Hin.
  { unfold qb. rewrite searchQuery_conditions. right.
    unfold filterConditions. rewrite Hmds, Hadv.
    apply elem_of_app. right. apply elem_of_app. right. apply elem_of_app. left.
    destruct mds as [|md0 mds']; [done|]. by left. }
  rewrite forallb_forall in Hc.
  apply list_elem_of_In, Hc in Hin. simpl in Hin. rewrite Hpar in Hin.
  destruct md as [row|]; [|done].
  apply bool_decide_eq_true in Hin as [Hk Hv].
  assert (joinMetadata qb = true) as Hj by (by eapply parseFilters_join).
  destruct (joined_metadata _ _ _ _ Hj Hmd) as [Hrow Hid].
  by exists row.
Qed.

(** X20: the page [searchExecutions] returns has no execution twice, is
    ordered by start time, latest first, and, for a limit above 0, has at
    most [limit] entries. *)
Theorem search_page filters limit excluded accessible additional w :
  ∃ out,
    searchExecutions workflows idLess filters limit excluded accessible additional w
    = (Ok out, w)
    ∧ NoDup (sum_id <$> out)
    ∧ StronglySorted (λ a b, (startedAt (sum_columns b) ≤ startedAt (sum_columns a))%Z) out
    ∧ (0 < limit → length out ≤ limit).
Proof.
  eexists. split; [apply searchExecutions_eq|].
  case_bool_decide as Hacc.
  { split_and!; [constructor|constructor|simpl; lia]. }
  unfold searchPage. split_and!.
  - rewrite <- list_fmap_compose. apply (distinctById_NoDup _ []).
  - apply (StronglySorted_fmap _ startedAtDesc); [done|].
    eapply StronglySorted_sublist; [apply distinctById_sublist|].
    eapply StronglySorted_sublist; [apply limited_sublist|].
    apply StronglySorted_merge_sort; apply _.
  - intros Hl. rewrite length_fmap.
    etrans; [apply sublist_length, distinctById_sublist|]. by apply limited_length.
Qed.

(** X21: with limit 0 (no limit) and no metadata filter in force, nothing
    is left out: every stored execution of an accessible workflow that has
    a name, that is not excluded, lies within the id bounds and meets the
    simple filters is in the result, with its columns and the name of its
    workflow. *)
Theorem search_unlimited_complete filters excluded accessible additional w i c wf name :
  metadataPairs (advancedExecutionFilters w) filters = None →
  executions (db w) !! i = Some c →
  workflowId c = Some wf →
  wf ∈ accessible →
  workflows !! wf = Some name →
  i ∉ excluded →
  withinBounds idLess additional i →
  filterHolds filters c →
  ∃ out,
    searchExecutions workflows idLess filters 0 excluded accessible additional w
    = (Ok out, w)
    ∧ mkSummary i c name ∈ out.
Proof.
  intros Hmeta Hc Hwf Hin Hname Hex Hid Hfilters.
  eexists. split; [apply searchExecutions_eq|].
  rewrite bool_decide_false by (destruct accessible; [by apply elem_of_nil in Hin|done]).
  set (x := (mkExecution i c, name)).
  assert (x ∈ searchRows workflows
                (searchQuery (advancedExecutionFilters w) filters accessible)
                (idConditions idLess excluded additional) (db w)) as Hx.
  { apply elem_of_searchRows. simpl. split_and!.
    - by apply elem_of_rows.
    - unfold workflowOf. simpl. by rewrite Hwf.
    - by apply idConditions_spec.
    - destruct (joined_nonempty (db w)
                  (searchQuery (advancedExecutionFilters w) filters accessible)
                  (mkExecution i c)) as [md Hmd].
      exists md. split; [done|]. rewrite searchQuery_conditions. simpl.
      apply andb_true_iff. split.
      + rewrite Hwf. by apply bool_decide_eq_true.
      + by apply filterConditions_hold_inv. }
  destruct (distinctById_first
              (limited 0 (merge_sort startedAtDesc
                 (searchRows workflows
                    (searchQuery (advancedExecutionFilters w) filters accessible)
                    (idConditions idLess excluded additional) (db w)))) [] x)
    as (y & Hy & Hyid); [simpl; by rewrite merge_sort_Permutation|apply not_elem_of_nil|].
  apply list_elem_of_fmap. exists y. split; [|exact Hy].
  apply elem_of_searchPage, elem_of_searchRows in Hy as (Hrow & Hw & _).
  apply elem_of_rows in Hrow. simpl in Hyid. rewrite Hyid in Hrow.
  assert (columns y.1 = c) as Hcol by congruence.
  unfold workflowOf in Hw. rewrite Hcol, Hwf in Hw. simpl in Hw.
  assert (y.2 = name) as Hn by congruence.
  by rewrite Hyid, Hcol, Hn.
Qed.

End SearchFacts.

Section SearchSamples.

Lemma search_metadata_last_pair_witness :
  ∃ out,
    searchExecutions workflowNames String.ltb (Some customerFilter) 10 [] ["wf1"] None
      advancedWorld
    = (Ok out, advancedWorld)
    ∧ ∀ s, s ∈ out →
        ∃ md, md ∈ executionMetadata (db advancedWorld)
              ∧ md_executionId md = sum_id s
              ∧ md_key md = "customer" ∧ md_value md = "42".
Proof.
  apply (search_metadata_last_pair workflowNames String.ltb (Some customerFilter) 10
           [] ["wf1"] None advancedWorld
           [("plan", "free"); ("customer", "42")] "customer" "42"); reflexivity.
Defined.

(** The sample of the witness: execution [1] has the entry [customer = 42]
    and none for [plan]; the filter asks for [plan = free] and
    [customer = 42], and execution [1] is returned. *)
Lemma search_ignores_earlier_pairs :
  searchExecutions workflowNames String.ltb (Some customerFilter) 10 [] ["wf1"] None
    advancedWorld
  = (Ok [mkSummary "1" (columnsWith waiting (Some 5000%Z)) "Workflow"], advancedWorld).
Proof. vm_compute. reflexivity. Qed.

Lemma filterHolds_waitingFilter :
  filterHolds (Some waitingFilter) (columnsWith waiting (Some 5000%Z)).
Proof.
  unfold filterHolds; simpl. split_and!.
  - intros l [= <-]. by left.
  - done.
  - intros t [= <-]. lia.
  - done.
  - by intros wf [= <-] _.
Qed.

Lemma search_unlimited_complete_witness :
  ∃ out,
    searchExecutions workflowNames String.ltb (Some waitingFilter) 0 ["7"] ["wf1"]
      (Some (mkAdditional (Some "2") None)) waitingWorld
    = (Ok out, waitingWorld)
    ∧ mkSummary "1" (columnsWith waiting (Some 5000%Z)) "Workflow" ∈ out.
Proof.
  apply (search_unlimited_complete workflowNames String.ltb (Some waitingFilter)
           ["7"] ["wf1"] (Some (mkAdditional (Some "2") None)) waitingWorld
           "1" (columnsWith waiting (Some 5000%Z)) "wf1" "Workflow");
    [reflexivity|reflexivity|reflexivity|by left|reflexivity| | |
     exact filterHolds_waitingFilter].
  - by intros [[=]|?%elem_of_nil]%elem_of_cons.
  - split; simpl.
    + by intros l [= <-] _.
    + done.
Defined.

End SearchSamples.

(** ** The wait tracker: stopping, sweeping, resuming *)

Section StopMore.

Lemma updateExistingExecution_tracker i p w :
  sameTracker w (updateExistingExecution i p w).2.
Proof.
  unfold updateExistingExecution, transaction, bind.
  destruct (hasKeys (p_columns p)).
  - rewrite updateExecution_eq. case_bool_decide; [done|].
    destruct (_ || _); [|done].
    rewrite updateExecutionData_eq. by case_bool_decide.
  - unfold ret at 1. destruct (_ || _); [|done].
    rewrite updateExecutionData_eq. by case_bool_decide.
Qed.

Lemma attachError_world g w : (attachError g w).2 = w.
Proof.
  unfold attachError, bind, deref, ret, throw.
  destruct (heap g !! root g) as [top|]; [|done].
  destruct (getProperty "resultData" top) as [[?|r]|]; try done.
  by destruct (heap g !! r).
Qed.

(** After the registry is cleaned, [stopExecution] touches neither the
    timers nor the registry. *)
Lemma stopExecution_tracker i w :
  sameTracker (disarmed i w) (stopExecution i w).2.
Proof.
  rewrite stopExecution_unfold. unfold bind at 1.
  pose proof (findSingleExecution_world i (mkOptions true true true None) (disarmed i w)) as H.
  destruct (findSingleExecution _ _ _) as [[[r|]|e] w1]; simpl in H; subst w1; try done.
  destruct (waitTill (resultColumns r)); [|done].
  destruct r as [f|r]; [done|].
  unfold bind at 1. pose proof (attachError_world (res_data r) (disarmed i w)) as H.
  destruct (attachError _ _) as [[g|e] w1]; simpl in H; subst w1; [|done].
  unfold bind at 1, Date_now, gets. unfold bind, persistExecution.
  match goal with |- context [updateExistingExecution ?a ?b ?c] =>
    pose proof (updateExistingExecution_tracker a b c) as H;
    destruct (updateExistingExecution a b c) as [[[]|e] w1] end; done.
Qed.

Lemma disarmed_consistent i w :
  consistent w →
  consistent (disarmed i w)
  ∧ waitingExecutions (disarmed i w) !! i = None
  ∧ (∀ h t, timers (disarmed i w) !! h = Some t → resumes t ≠ i)
  ∧ (∀ j, j ≠ i → waitingExecutions (disarmed i w) !! j = waitingExecutions w !! j)
  ∧ (∀ h t, timers w !! h = Some t → resumes t ≠ i →
       timers (disarmed i w) !! h = Some t).
Proof.
  intros [Hreg Harm Hbelow]. unfold disarmed.
  destruct (waitingExecutions w !! i) as [entry|] eqn:Hentry; simpl.
  - destruct (Harm _ _ Hentry) as (Hid & t0 & Ht0 & Hr0).
    assert (∀ h t, delete (we_timer entry) (timers w) !! h = Some t → resumes t ≠ i)
      as Hnone.
    { intros h t [Hne Ht]%lookup_delete_Some Hr.
      specialize (Hreg _ _ Ht). rewrite Hr, Hentry in Hreg.
      injection Hreg as ->. done. }
    split_and!.
    + split; simpl.
      * intros h t Ht. pose proof (Hnone _ _ Ht) as Hr.
        apply lookup_delete_Some in Ht as [Hne Ht].
        rewrite lookup_delete_ne by done. by apply Hreg.
      * intros j e [Hne He]%lookup_delete_Some.
        destruct (Harm _ _ He) as (Hj & t & Ht & Hr).
        split; [done|]. exists t. split; [|done].
        rewrite lookup_delete_ne; [done|].
        intros Heq. rewrite <-Heq in Ht. congruence.
      * intros h [t Ht]. apply lookup_delete_Some in Ht as [_ Ht]. by apply Hbelow.
    + apply lookup_delete_eq.
    + exact Hnone.
    + intros j Hj. by apply lookup_delete_ne.
    + intros h t Ht Hr. rewrite lookup_delete_ne; [done|].
      intros <-. congruence.
  - split_and!; try done.
    intros h t Ht Hr. specialize (Hreg _ _ Ht). rewrite Hr in Hreg. congruence.
Qed.

(** X22: [stopExecution] always disarms. Whatever the outcome, also when
    it throws because the execution is not waiting or the database rejects
    the update, afterwards the registry has no entry for the execution and
    no timer is left that would resume it; the entries and timers of
    every other execution are as before, and the registry and the timers
    still agree. *)
Theorem stopExecution_disarms i w :
  consistent w →
  consistent (stopExecution i w).2
  ∧ waitingExecutions (stopExecution i w).2 !! i = None
  ∧ (∀ h t, timers (stopExecution i w).2 !! h = Some t → resumes t ≠ i)
  ∧ (∀ j, j ≠ i →
       waitingExecutions (stopExecution i w).2 !! j = waitingExecutions w !! j)
  ∧ (∀ h t, timers w !! h = Some t → resumes t ≠ i →
       timers (stopExecution i w).2 !! h = Some t).
Proof.
  intros Hc. destruct (disarmed_consistent i w Hc) as ([Hreg Harm Hbelow] & H2 & H3 & H4 & H5).
  destruct (stopExecution_tracker i w) as (Ht & Hn & Hw).
  split_and!.
  - split.
    + intros h t. rewrite Ht, Hw. apply Hreg.
    + intros j e. rewrite Ht, Hw. apply Harm.
    + intros h. rewrite Ht, Hn. apply Hbelow.
  - by rewrite Hw.
  - intros h t. rewrite Ht. apply H3.
  - intros j Hj. rewrite Hw. by apply H4.
  - intros h t Hh Hr. rewrite Ht. by apply H5.
Qed.

Lemma stopExecution_disarms_witness :
  consistent (armedWorld "1" 5000 waitingWorld)
  ∧ timers (armedWorld "1" 5000 waitingWorld) !! 0 = Some (mkTimer 4000 "1")
  ∧ consistent (stopExecution "1" (armedWorld "1" 5000 waitingWorld)).2
  ∧ waitingExecutions (stopExecution "1" (armedWorld "1" 5000 waitingWorld)).2 !! "1" = None
  ∧ (∀ h t, timers (stopExecution "1" (armedWorld "1" 5000 waitingWorld)).2 !! h = Some t →
       resumes t ≠ "1").
Proof.
  assert (consistent (armedWorld "1" 5000 waitingWorld)) as Hc.
  { apply armedWorld_consistent; [apply consistent_start|done]. }
  split; [exact Hc|]. split; [reflexivity|].
  destruct (stopExecution_disarms "1" (armedWorld "1" 5000 waitingWorld) Hc)
    as (H1 & H2 & H3 & _).
  exact (conj H1 (conj H2 H3)).
Defined.

(** X23: the sweep as a whole. [getWaitingExecutions] calls
    [findMultipleExecutions] without options, so the data relation is not
    loaded: when the query selects nothing the sweep returns, and when it
    selects an execution the sweep throws a [TypeError] before its loop is
    reached. Either way no timer is armed and nothing is changed. *)
Theorem sweep_outcome w :
  getWaitingExecutions w
  = (match findRows (findQuery (clock w)) (db w) with
     | [] => Ok tt
     | _ :: _ => Throw TypeError
     end, w).
Proof.
  destruct (findRows (findQuery (clock w)) (db w)) as [|e l] eqn:Hdue.
  - by apply getWaitingExecutions_idle.
  - apply getWaitingExecutions_throws. by rewrite Hdue.
Qed.

End StopMore.

Section ResumeFacts.

Context (getWorkflowOwner : string → M string)
        (run : IWorkflowExecutionDataProcess → string → M string).



(** X26: [startExecution] never throws: whatever the store holds and
    whatever the owner lookup and the runner do, every exception ends in
    its [catch]. *)
Theorem startExecution_never_throws i w :
  ∃ reported w', startExecution getWorkflowOwner run i w = (Ok reported, w').
Proof.
  unfold startExecution.
  destruct (findSingleExecution _ _ _) as [[[r|]|e] w1]; [|by eexists _, _..].
  destruct (finished _); [by eexists _, _|].
  destruct (wf_id _) as [wid|]; [|by eexists _, _].
  case_bool_decide; [by eexists _, _|].
  destruct (getWorkflowOwner _ _) as [[u|e] w2]; [|by eexists _, _].
  destruct (run _ _ _) as [[x|e] w3]; by eexists _, _.
Qed.

End ResumeFacts.

Section ResumeSamples.


End ResumeSamples.

(** ** The store of the external secrets *)

Section StoreFacts.

Lemma lookup_assign {V} (key : string) (value : V) (acc : gmap string V) k :
  assign key value acc !! k
  = if bool_decide (k = key ∧ key ≠ "__proto__") then Some value else acc !! k.
Proof.
  unfold assign. case_bool_decide as Hp.
  - rewrite bool_decide_false; [done|]. by intros [_ ?].
  - destruct (decide (k = key)) as [->|Hne].
    + rewrite lookup_insert_eq. by rewrite bool_decide_true.
    + rewrite lookup_insert_ne by done. rewrite bool_decide_false; [done|].
      by intros [? _].
Qed.

Lemma foldl_assign_lookup {V} (f : string → V) (keys : list string)
    (acc : gmap string V) k :
  foldl (λ a p, assign p (f p) a) acc keys !! k
  = if bool_decide (k ∈ keys ∧ k ≠ "__proto__") then Some (f k) else acc !! k.
Proof.
  revert acc. induction keys as [|p keys IH]; intros acc.
  - cbn [foldl]. destruct (bool_decide _) eqn:H; [|done].
    apply bool_decide_eq_true in H as [H%elem_of_nil _]. done.
  - cbn [foldl]. rewrite IH. case_bool_decide as Hin.
    + destruct Hin as [Hin Hp]. rewrite bool_decide_true; [done|]. split; [by right|done].
    + rewrite lookup_assign. case_bool_decide as Hk.
      * destruct Hk as [-> Hp]. rewrite bool_decide_true; [done|]. split; [by left|done].
      * rewrite bool_decide_false; [done|].
        intros [[->|?]%elem_of_cons Hp]; [by apply Hk|by apply Hin].
Qed.

Lemma maskSecrets_lookup names name :
  maskSecrets names !! name
  = if bool_decide (name ∈ names ∧ name ≠ "__proto__") then Some mask else None.
Proof.
  unfold maskSecrets. by rewrite (foldl_assign_lookup (λ _, mask)), lookup_empty.
Qed.

(** X27: [secretsAsObject] shows the names of the secrets and never a
    value. Its own properties are the providers of [secrets] other than
    [__proto__], and under each provider the names of its secrets other
    than [__proto__], every one of them mapped to the mask; an assignment
    under [__proto__] creates no property. *)
Theorem secretsAsObject_masks st provider :
  secretsAsObject st !! provider
  = (if bool_decide (provider = "__proto__") then None
     else (λ names, Some (maskSecrets names)) <$> (secrets st !! provider))
  ∧ (∀ names name,
       maskSecrets names !! name
       = if bool_decide (name ∈ names ∧ name ≠ "__proto__") then Some mask else None).
Proof.
  split; [|intros names name; apply maskSecrets_lookup].
  unfold secretsAsObject.
  rewrite (foldl_assign_lookup (λ p, maskSecrets <$> secrets st !! p)).
  rewrite lookup_empty.
  case_bool_decide as Hin.
  - destruct Hin as [Hin Hp]. rewrite bool_decide_false by done.
    apply list_elem_of_fmap in Hin as ([k names] & -> & Hin).
    apply elem_of_map_to_list in Hin. simpl. by rewrite Hin.
  - case_bool_decide as Hp; [done|].
    destruct (secrets st !! provider) as [names|] eqn:Hs; [|done].
    exfalso. apply Hin. split; [|done]. apply list_elem_of_fmap.
    exists (provider, names). split; [done|]. by apply elem_of_map_to_list.
Qed.

(** The sample: the provider [vault] with a secret named [__proto__]
    besides [token]. *)
Lemma secretsAsObject_sample :
  secretsAsObject (mkState [] {[ "vault" := ["token"; "__proto__"] ]}) !! "vault"
  = Some (Some {[ "token" := mask ]}).
Proof. vm_compute. reflexivity. Qed.

Lemma findIndex_found id l i :
  findIndex id l = Z.of_nat i →
  ∃ p, l !! i = Some p ∧ p !! "id" = Some (PStr id)
       ∧ ∀ j q, l !! j = Some q → j < i → q !! "id" ≠ Some (PStr id).
Proof.
  unfold findIndex.
  destruct (list_find _ l) as [[k p]|] eqn:Hf; [|lia].
  intros Hk. apply Nat2Z.inj in Hk as ->.
  apply list_find_Some in Hf as (Hl & Hp & Hbefore).
  exists p. split_and!; try done; intros j q Hq Hj; by eapply Hbefore.
Qed.

Lemma findIndex_cases id l :
  (∃ i, findIndex id l = Z.of_nat i ∧ i < length l)
  ∨ (findIndex id l = (-1)%Z ∧ Forall (λ p : Provider, p !! "id" ≠ Some (PStr id)) l).
Proof.
  unfold findIndex.
  destruct (list_find _ l) as [[k p]|] eqn:Hf.
  - left. exists k. split; [done|].
    apply list_find_Some in Hf as (Hl & _). by eapply lookup_lt_Some.
  - right. split; [done|]. by apply list_find_None in Hf.
Qed.

Lemma findIndex_first id (l : list Provider) i p :
  l !! i = Some p → p !! "id" = Some (PStr id) →
  (∀ j q, l !! j = Some q → j < i → q !! "id" ≠ Some (PStr id)) →
  findIndex id l = Z.of_nat i.
Proof.
  intros Hp Hid Hfirst. unfold findIndex.
  destruct (list_find _ l) as [[k q]|] eqn:Hf.
  - apply list_find_Some in Hf as (Hq & Hqid & Hbefore).
    f_equal. destruct (Nat.lt_trichotomy k i) as [Hlt|[->|Hgt]]; [|done|].
    + by destruct (Hfirst k q Hq Hlt).
    + by destruct (Hbefore i p Hp Hgt).
  - apply list_find_None in Hf. rewrite Forall_forall in Hf.
    destruct (Hf p); [by eapply list_elem_of_lookup_2|done].
Qed.

Lemma findIndex_none id (l : list Provider) :
  Forall (λ p : Provider, p !! "id" ≠ Some (PStr id)) l → findIndex id l = (-1)%Z.
Proof.
  intros Hall. destruct (findIndex_cases id l) as [(i & Hi & _)|[? _]]; [|done].
  destruct (findIndex_found _ _ _ Hi) as (p & Hp & Hid & _).
  rewrite Forall_forall in Hall. destruct (Hall p); [by eapply list_elem_of_lookup_2|done].
Qed.

Lemma sliceIndex_nat len (i : nat) : sliceIndex len (Z.of_nat i) = i `min` len.
Proof. unfold sliceIndex. rewrite bool_decide_false by lia. lia. Qed.

Lemma sliceIndex_last len : sliceIndex len (-1) = len - 1.
Proof. unfold sliceIndex. rewrite bool_decide_true by lia. lia. Qed.

Lemma slice_prefix {A} (l : list A) (i : nat) :
  i ≤ length l → slice l 0 (Some (Z.of_nat i)) = take i l.
Proof.
  intros Hi. unfold slice. rewrite (sliceIndex_nat _ 0), sliceIndex_nat.
  rewrite drop_0. f_equal. lia.
Qed.

Lemma slice_suffix {A} (l : list A) (i : nat) :
  slice l (Z.of_nat i) None = drop i l.
Proof.
  unfold slice. rewrite sliceIndex_nat.
  destruct (decide (i ≤ length l)) as [Hi|Hi].
  - rewrite Nat.min_l by lia. apply take_ge. rewrite length_drop. lia.
  - rewrite Nat.min_r by lia. rewrite !drop_ge by lia. by rewrite take_nil.
Qed.

Lemma slice_all_but_last {A} (l : list A) :
  slice l 0 (Some (-1)%Z) = take (length l - 1) l.
Proof.
  unfold slice. rewrite (sliceIndex_nat _ 0), sliceIndex_last.
  rewrite drop_0. f_equal. lia.
Qed.

Lemma updateProvider_state putProvider id data st :
  (updateProvider putProvider id data st).2
  = mkState (slice (providers st) 0 (Some (findIndex id (providers st)))
             ++ [spread (at_ (providers st) (findIndex id (providers st))) data]
             ++ slice (providers st) (findIndex id (providers st) + 1) None)
            (secrets st).
Proof. unfold updateProvider. by destruct (putProvider id data). Qed.

Lemma updateProvider_known putProvider id data st i :
  findIndex id (providers st) = Z.of_nat i →
  (updateProvider putProvider id data st).2
  = mkState (alter (λ p, data ∪ p) i (providers st)) (secrets st).
Proof.
  intros Hi. destruct (findIndex_found _ _ _ Hi) as (p & Hp & _).
  rewrite updateProvider_state, Hi. f_equal.
  pose proof (lookup_lt_Some _ _ _ Hp) as Hlt.
  rewrite slice_prefix by lia.
  replace (Z.of_nat i + 1)%Z with (Z.of_nat (S i)) by lia.
  rewrite slice_suffix.
  unfold at_. rewrite bool_decide_false by lia. rewrite Nat2Z.id, Hp. simpl.
  rewrite <-(take_drop_middle (providers st) i p) at 3 by done.
  rewrite alter_app_r_alt; rewrite length_take; [|lia].
  replace (i - i `min` length (providers st)) with 0 by lia. done.
Qed.

Lemma updateProviderConnected_state putProvider fetched id value st :
  (updateProviderConnected fetched putProvider id value st).2
  = (updateProvider putProvider id {[ "connected" := PBool value ]} st).2.
Proof.
  unfold updateProviderConnected.
  destruct (updateProvider _ _ _ _) as [[[]|] st']; [|done].
  by destruct fetched.
Qed.

(** X28: [getProvider] stores what the server returned: after a
    successful fetch the provider is in the list and the secrets are
    untouched; providers with another id stay; when no provider had the id
    the fetched one is appended, otherwise it replaces the first provider
    with the id and the length of the list is unchanged. A rejected fetch
    changes nothing. *)
Theorem getProvider_stores api id st :
  (api id = None → getProvider api id st = (None, st))
  ∧ ∀ provider, api id = Some provider →
    ∃ st', getProvider api id st = (Some provider, st')
      ∧ secrets st' = secrets st
      ∧ provider ∈ providers st'
      ∧ (∀ q, q ∈ providers st → q !! "id" ≠ Some (PStr id) → q ∈ providers st')
      ∧ (Forall (λ p : Provider, p !! "id" ≠ Some (PStr id)) (providers st) →
         providers st' = providers st ++ [provider])
      ∧ (∀ i p, providers st !! i = Some p → p !! "id" = Some (PStr id) →
           (∀ j q, providers st !! j = Some q → j < i → q !! "id" ≠ Some (PStr id)) →
           providers st' = <[i := provider]> (providers st)).
Proof.
  split; [by unfold getProvider; intros ->|].
  intros provider Hapi. unfold getProvider. rewrite Hapi.
  destruct (findIndex_cases id (providers st)) as [(i & Hi & Hlt)|[Hi Hall]].
  - rewrite Hi, bool_decide_true by lia. rewrite Nat2Z.id.
    destruct (findIndex_found _ _ _ Hi) as (p & Hp & Hid & _).
    eexists. split; [done|]. simpl. split_and!; try done.
    + apply list_elem_of_lookup. exists i. by apply list_lookup_insert_eq.
    + intros q [j Hq]%list_elem_of_lookup Hne.
      apply list_elem_of_lookup. exists j. rewrite list_lookup_insert_ne; [done|].
      intros <-. congruence.
    + intros Hall. rewrite Forall_forall in Hall. exfalso.
      apply (Hall p); [|done]. by eapply list_elem_of_lookup_2.
    + intros i' p' Hp' Hid' Hfirst.
      pose proof (findIndex_first _ _ _ _ Hp' Hid' Hfirst) as Hi'.
      rewrite Hi in Hi'. by apply Nat2Z.inj in Hi' as ->.
  - rewrite Hi. simpl. eexists. split; [done|]. simpl. split_and!; try done.
    + apply elem_of_app. right. by left.
    + intros q Hq _. apply elem_of_app. by left.
    + intros i p Hp Hid _. rewrite Forall_forall in Hall. exfalso.
      apply (Hall p); [|done]. by eapply list_elem_of_lookup_2.
Qed.

(** X29: [updateProvider] on a known id merges the data into the first
    provider with that id, the properties given winning over the stored
    ones, and leaves the other providers, the length of the list and the
    secrets as they were. The state is replaced before the request is
    sent, so this holds whether the server accepts the update or rejects
    it. [updateProviderConnected] leaves the state of [updateProvider]
    with [{ connected: value }]: the secrets it fetches are not stored. *)
Theorem updateProvider_merges putProvider fetched id data st i p :
  providers st !! i = Some p →
  p !! "id" = Some (PStr id) →
  (∀ j q, providers st !! j = Some q → j < i → q !! "id" ≠ Some (PStr id)) →
  secrets (updateProvider putProvider id data st).2 = secrets st
  ∧ length (providers (updateProvider putProvider id data st).2) = length (providers st)
  ∧ (∀ j, j ≠ i →
       providers (updateProvider putProvider id data st).2 !! j = providers st !! j)
  ∧ providers (updateProvider putProvider id data st).2 !! i = Some (data ∪ p)
  ∧ (∀ k v, data !! k = Some v → (data ∪ p) !! k = Some v)
  ∧ (∀ k, data !! k = None → (data ∪ p) !! k = p !! k)
  ∧ (∀ value,
       (updateProviderConnected fetched putProvider id value st).2
       = (updateProvider putProvider id {[ "connected" := PBool value ]} st).2).
Proof.
  intros Hp Hid Hfirst.
  rewrite (updateProvider_known _ _ _ _ i) by (by eapply findIndex_first). simpl.
  split_and!; try done.
  - by rewrite length_alter.
  - intros j Hj. by rewrite list_lookup_alter_ne.
  - by rewrite list_lookup_alter_eq, Hp.
  - intros k v Hk. by apply lookup_union_Some_l.
  - intros k Hk. by apply lookup_union_r.
  - intros value. apply updateProviderConnected_state.
Qed.

Lemma updateProvider_merges_witness :
  providers (updateProvider (λ _ _, false) "infisical" {[ "connected" := PBool false ]}
               twoProviders).2 !! 1
  = Some ({[ "connected" := PBool false ]} ∪ infisical)
  ∧ providers (updateProvider (λ _ _, false) "infisical" {[ "connected" := PBool false ]}
                 twoProviders).2 !! 0
    = Some vault.
Proof.
  destruct (updateProvider_merges (λ _ _, false) None "infisical"
              {[ "connected" := PBool false ]} twoProviders 1 infisical)
    as (_ & _ & Hother & Hat & _).
  - reflexivity.
  - reflexivity.
  - intros [|[|j]] q Hq Hj; [|lia|lia]. injection Hq as <-. by vm_compute.
  - split; [exact Hat|]. by rewrite (Hother 0).
Defined.

(** X30: [updateProvider] on an id no provider has does not fail and does
    not just add one entry: [findIndex] yields -1, [slice(0, -1)] is the
    list without its last provider and [slice(0)] the whole list, so the
    new list is the old one without its last provider, then the data
    alone, then the whole old list again. *)
Theorem updateProvider_unknown putProvider id data st :
  Forall (λ p : Provider, p !! "id" ≠ Some (PStr id)) (providers st) →
  (updateProvider putProvider id data st).2
  = mkState (take (length (providers st) - 1) (providers st) ++ [data] ++ providers st)
            (secrets st).
Proof.
  intros Hall. rewrite updateProvider_state, (findIndex_none _ _ Hall).
  f_equal. rewrite slice_all_but_last.
  change (-1 + 1)%Z with (Z.of_nat 0). rewrite slice_suffix, drop_0.
  unfold at_, spread. rewrite bool_decide_true by lia. simpl.
  by rewrite (right_id_L ∅ (∪)).
Qed.

Lemma updateProvider_unknown_witness :
  (updateProvider (λ _ _, true) "aws" {[ "connected" := PBool true ]} twoProviders).2
  = mkState [vault; {[ "connected" := PBool true ]}; vault; infisical]
            (secrets twoProviders).
Proof.
  apply (updateProvider_unknown (λ _ _, true) "aws" {[ "connected" := PBool true ]}
           twoProviders).
  repeat constructor; by vm_compute.
Defined.

End StoreFacts.
